(** * Coherent Point Drift (probreg/cpd.py): a shallow embedding

    The Python module is embedded function by function.  Arrays are numpy
    arrays of rank 0, 1 or 2 whose shapes are checked when an operation runs,
    as numpy does; an operation that numpy refuses raises the exception numpy
    raises.  Floating-point numbers are idealised as the elements of a real
    field [R]: rounding, infinities and NaN are outside the model, and numpy's
    division is the division of the field.  The transcendental functions of
    numpy ([np.log], [np.sqrt], [np.exp], [**], [np.pi]) and the collaborators
    whose code is not part of cpd.py (the singular value decomposition, the
    transformation classes, the helpers of math_utils) are parameters. *)

From HB Require Import structures.
From mathcomp Require Import boot order algebra.
From Stdlib Require Import String.

Set Implicit Arguments.
Unset Strict Implicit.
Unset Printing Implicit Defensive.

Import GRing.Theory Num.Theory Order.Theory.
Local Open Scope ring_scope.

(** ** Exceptions and the error monad *)

Inductive exn : Type :=
| ValueError (msg : string)
| IndexError
| AssertionError (msg : string)
| LinAlgError
| ZeroDivisionError
| TypeError
| AttributeError
| LibraryError (origin : string).

Inductive result (A : Type) : Type :=
| Ok (a : A)
| Raise (e : exn).

Arguments Ok {A} a.
Arguments Raise {A} e.

Definition bind {A B : Type} (m : result A) (f : A -> result B) : result B :=
  match m with
  | Ok a => f a
  | Raise e => Raise e
  end.

Notation "x <- m ;; k" := (bind m (fun x => k))
  (at level 100, m at next level, right associativity).

Definition is_ok {A : Type} (m : result A) : bool :=
  if m is Ok _ then true else false.

Definition broadcast_msg : string := "operands could not be broadcast together"%string.
Definition aligned_msg : string := "shapes not aligned"%string.
Definition ndim_msg : string := "source and target must have 2 dimensions."%string.

(** ** numpy arrays *)

Section Numpy.

Variable R : realFieldType.

Inductive ndarray : Type :=
| Arr0 (x : R)
| Arr1 (n : nat) (v : 'rV[R]_n)
| Arr2 (m n : nat) (A : 'M[R]_(m, n)).

Definition ndim (a : ndarray) : nat :=
  match a with
  | Arr0 _ => 0
  | Arr1 _ _ => 1
  | Arr2 _ _ _ => 2
  end.

Definition shape (a : ndarray) : seq nat :=
  match a with
  | Arr0 _ => [::]
  | Arr1 n _ => [:: n]
  | Arr2 m n _ => [:: m; n]
  end.

(** [a.shape[k]] *)
Definition shape_at (a : ndarray) (k : nat) : result nat :=
  if (k < size (shape a))%N then Ok (nth 0%N (shape a) k) else Raise IndexError.

(** Reading an entry by natural-number indices; 0 outside the matrix. *)
Definition mget (m n : nat) (A : 'M[R]_(m, n)) (i j : nat) : R :=
  if insub i is Some i' then
    if insub j is Some j' then A i' j' else 0
  else 0.

(** Every array is seen as a matrix when it is broadcast: a scalar as 1 x 1,
    a vector of length n as 1 x n. *)
Definition nrows (a : ndarray) : nat :=
  match a with
  | Arr0 _ => 1
  | Arr1 _ _ => 1
  | Arr2 m _ _ => m
  end.

Definition ncols (a : ndarray) : nat :=
  match a with
  | Arr0 _ => 1
  | Arr1 n _ => n
  | Arr2 _ n _ => n
  end.

Definition at2 (a : ndarray) (i j : nat) : R :=
  match a with
  | Arr0 x => x
  | Arr1 _ v => mget v i j
  | Arr2 _ _ A => mget A i j
  end.

Definition mk_array (rank m n : nat) (f : nat -> nat -> R) : ndarray :=
  match rank with
  | 0 => Arr0 (f 0%N 0%N)
  | 1 => Arr1 (\row_(j < n) f 0%N j)
  | _ => Arr2 (\matrix_(i < m, j < n) f i j)
  end.

(** Length of the broadcast of two axes. *)
Definition bdim (a b : nat) : option nat :=
  if a == b then Some a
  else if a == 1%N then Some b
  else if b == 1%N then Some a
  else None.

(** Index into an axis of length [a] that is being broadcast. *)
Definition bidx (a i : nat) : nat := if a == 1%N then 0%N else i.

(** Elementwise binary operators on arrays ([+], [-], [*]). *)
Definition np_binop (f : R -> R -> R) (x y : ndarray) : result ndarray :=
  match bdim (nrows x) (nrows y), bdim (ncols x) (ncols y) with
  | Some m, Some n =>
      Ok (mk_array (maxn (ndim x) (ndim y)) m n
            (fun i j => f (at2 x (bidx (nrows x) i) (bidx (ncols x) j))
                          (at2 y (bidx (nrows y) i) (bidx (ncols y) j))))
  | _, _ => Raise (ValueError broadcast_msg)
  end.

Definition np_add : ndarray -> ndarray -> result ndarray := np_binop +%R.
Definition np_sub : ndarray -> ndarray -> result ndarray := np_binop (fun a b => a - b).
Definition np_mul : ndarray -> ndarray -> result ndarray := np_binop *%R.

(** An operator between an array and a Python or numpy scalar, and a masked
    assignment of a scalar, act entry by entry. *)
Definition np_map (f : R -> R) (x : ndarray) : ndarray :=
  match x with
  | Arr0 a => Arr0 (f a)
  | Arr1 _ v => Arr1 (map_mx f v)
  | Arr2 _ _ A => Arr2 (map_mx f A)
  end.

(** [x.T] *)
Definition np_T (x : ndarray) : ndarray :=
  match x with
  | Arr2 _ _ A => Arr2 A^T
  | _ => x
  end.

(** [np.dot] *)
Definition np_dot (x y : ndarray) : result ndarray :=
  match x, y with
  | Arr0 a, _ => Ok (np_map (fun b => a * b) y)
  | _, Arr0 b => Ok (np_map (fun a => a * b) x)
  | Arr1 n v, Arr1 n' u =>
      if n == n' then Ok (Arr0 (\sum_(j < n) v 0 j * mget u 0 j))
      else Raise (ValueError aligned_msg)
  | Arr1 n v, Arr2 n' p B =>
      if n == n' then Ok (Arr1 (\row_(k < p) \sum_(j < n) v 0 j * mget B j k))
      else Raise (ValueError aligned_msg)
  | Arr2 m n A, Arr1 n' u =>
      if n == n' then Ok (Arr1 (\row_(i < m) \sum_(j < n) A i j * mget u 0 j))
      else Raise (ValueError aligned_msg)
  | Arr2 m n A, Arr2 n' p B =>
      if n == n' then
        Ok (Arr2 (\matrix_(i < m, k < p) \sum_(j < n) A i j * mget B j k))
      else Raise (ValueError aligned_msg)
  end.

(** Number of entries, and the entries in row-major order. *)
Definition np_size (x : ndarray) : nat :=
  match x with
  | Arr0 _ => 1
  | Arr1 n _ => n
  | Arr2 m n _ => (m * n)%N
  end.

Definition flat_at (x : ndarray) (k : nat) : R :=
  match x with
  | Arr0 a => a
  | Arr1 _ v => mget v 0 k
  | Arr2 _ n A => mget A (k %/ n) (k %% n)
  end.

(** [np.outer] *)
Definition np_outer (x y : ndarray) : ndarray :=
  Arr2 (\matrix_(i < np_size x, j < np_size y) (flat_at x i * flat_at y j)).

(** [np.sum(x)] and [np.sum(x, axis=0)] *)
Definition np_sum (x : ndarray) : R :=
  match x with
  | Arr0 a => a
  | Arr1 n v => \sum_(j < n) v 0 j
  | Arr2 m n A => \sum_(i < m) \sum_(j < n) A i j
  end.

Definition np_sum_axis0 (x : ndarray) : result ndarray :=
  match x with
  | Arr0 _ => Raise (ValueError "axis 0 is out of bounds"%string)
  | Arr1 n v => Ok (Arr0 (\sum_(j < n) v 0 j))
  | Arr2 m n A => Ok (Arr1 (\row_(j < n) \sum_(i < m) A i j))
  end.

(** [np.trace] *)
Definition np_trace (x : ndarray) : result R :=
  match x with
  | Arr2 m n A => Ok (\sum_(i < minn m n) mget A i i)
  | _ => Raise (ValueError "diag requires an array of at least two dimensions"%string)
  end.

(** [np.diag] *)
Definition np_diag (x : ndarray) : result ndarray :=
  match x with
  | Arr0 _ => Raise (ValueError "Input must be 1- or 2-d."%string)
  | Arr1 _ v => Ok (Arr2 (diag_mx v))
  | Arr2 m n A => Ok (Arr1 (\row_(i < minn m n) mget A i i))
  end.

(** [np.tile(x, (reps, 1))] *)
Definition np_tile_rows (x : ndarray) (reps : nat) : ndarray :=
  match x with
  | Arr0 a => Arr2 (const_mx a : 'M[R]_(reps, 1))
  | Arr1 n v => Arr2 (\matrix_(i < reps, j < n) v 0 j)
  | Arr2 m n A => Arr2 (\matrix_(i < (reps * m)%N, j < n) mget A (i %% m) j)
  end.

Definition np_identity (n : nat) : ndarray := Arr2 (1%:M : 'M[R]_n).
Definition np_zeros (n : nat) : ndarray := Arr1 (0 : 'rV[R]_n).
Definition np_ones (n : nat) : ndarray := Arr1 (const_mx 1 : 'rV[R]_n).

(** [c[-1] = x] for a scalar [x] *)
Definition setitem_last (c : ndarray) (x : R) : result ndarray :=
  match c with
  | Arr0 _ => Raise IndexError
  | Arr1 n v =>
      if n is 0 then Raise IndexError
      else Ok (Arr1 (\row_(j < n) if (j : nat) == n.-1 then x else v 0 j))
  | Arr2 m n A =>
      if m is 0 then Raise IndexError
      else Ok (Arr2 (\matrix_(i < m, j < n) if (i : nat) == m.-1 then x else A i j))
  end.

(** [np.linalg.det] *)
Definition np_linalg_det (x : ndarray) : result R :=
  match x with
  | Arr2 m n A =>
      if m == n then Ok (\det (\matrix_(i < m, j < m) mget A i j))
      else Raise LinAlgError
  | _ => Raise LinAlgError
  end.

(** [np.linalg.solve(a, b)]: the solution of [a x = b] for an invertible
    square [a]; a singular [a] raises [LinAlgError]. *)
Definition np_linalg_solve (a b : ndarray) : result ndarray :=
  match a with
  | Arr2 m n A =>
      if m != n then Raise LinAlgError else
      let A' : 'M[R]_m := \matrix_(i < m, j < m) mget A i j in
      match b with
      | Arr0 _ => Raise (ValueError aligned_msg)
      | Arr1 m' v =>
          if m' != m then Raise (ValueError aligned_msg)
          else if A' \in unitmx then
            Ok (Arr1 (\row_(i < m) \sum_(j < m) invmx A' i j * mget v 0 j))
          else Raise LinAlgError
      | Arr2 m' k B =>
          if m' != m then Raise (ValueError aligned_msg)
          else if A' \in unitmx then
            Ok (Arr2 (invmx A' *m \matrix_(i < m, j < k) mget B i j))
          else Raise LinAlgError
      end
  | _ => Raise LinAlgError
  end.

(** Division of Python floats. *)
Definition py_div (x y : R) : result R :=
  if y == 0 then Raise ZeroDivisionError else Ok (x / y).

End Numpy.

Arguments Arr0 {R} x.
Arguments np_identity {R} n.
Arguments np_zeros {R} n.
Arguments np_ones {R} n.
Arguments mget : simpl never.
Arguments np_binop : simpl never.
Arguments np_add : simpl never.
Arguments np_sub : simpl never.
Arguments np_mul : simpl never.
Arguments np_dot : simpl never.
Arguments np_outer : simpl never.
Arguments np_trace : simpl never.
Arguments np_linalg_det : simpl never.
Arguments np_linalg_solve : simpl never.
Arguments setitem_last : simpl never.

(** ** The module cpd.py *)

Section CoherentPointDrift.

Variable R : realFieldType.

Notation ndarray := (ndarray R).

(** numpy's transcendental primitives on floats. *)
Variable np_pi : R.
Variable np_sqrt : R -> R.
Variable np_log : R -> R.
Variable np_exp : R -> R.
Variable np_power : R -> R -> R.

(** [np.linalg.svd(a, full_matrices=True)], which returns the triple
    (u, s, vh) or raises [LinAlgError] when it does not converge. *)
Variable np_linalg_svd : ndarray -> result (ndarray * ndarray * ndarray).

(** [np.finfo(np.float32).eps], the gap between 1 and the next float32. *)
Definition finfo_float32_eps : R := 2%:R ^- 23.

(** The named tuples of the module. *)
Record EstepResult : Type := mkEstepResult {
  pt1 : ndarray;
  p1 : ndarray;
  px : ndarray;
  n_p : R
}.

(** The transformation classes of transformation.py keep their constructor
    arguments; the kernel matrix handed to the non-rigid one is [None] as long
    as no source was set. *)
Inductive transformation : Type :=
| RigidTransformation (rot t : ndarray) (scale : R)
| AffineTransformation (b t : ndarray)
| NonRigidTransformation (g : option ndarray) (w : ndarray).

(** Modelled from the spec: transformation.py is not part of these sources.
    The initializer builds the rigid transformation from a rotation and a
    translation only; the spec gives the value it then has (4.1: "unit scale"). *)
Definition RigidTransformation_default (rot t : ndarray) : transformation :=
  RigidTransformation rot t 1.

Record MstepResult : Type := mkMstepResult {
  mstep_transformation : transformation;
  sigma2 : R;
  q : R
}.

(** [transformation.transform(points)], of transformation.py. *)
Variable tf_transform : transformation -> ndarray -> result ndarray.

(** [mu.msn_all_combination] and [mu.gaussian_kernel], of math_utils.py. *)
Variable msn_all_combination : ndarray -> ndarray -> result R.
Variable gaussian_kernel : ndarray -> R -> result ndarray.

(** Modelled from the spec: gauss_transform.py is not part of these sources.
    Section 6 of the spec: for the reference points and bandwidth it was
    built with, [compute(query, weights)] returns for each query point the
    sum over the reference points of
    [weight * exp(- |query - reference|^2 / bandwidth^2)], the weight being 1
    without weights; weights given as a matrix hold one row of weights per
    output dimension, and there is one row of sums per row of weights (the
    expectation step transposes it into the points-by-dimension matrix the
    spec describes).  The spec requires point sets of one dimensionality;
    other operands are refused. *)
Definition sqdist (m1 n1 : nat) (P : 'M[R]_(m1, n1)) (i : nat)
    (m2 n2 : nat) (Q : 'M[R]_(m2, n2)) (j : nat) : R :=
  \sum_(k < n1) (mget P i k - mget Q j k) ^+ 2.

Definition gauss_msg : string := "gauss_transform"%string.

Definition GaussTransform_compute (source : ndarray) (h : R)
    (target : ndarray) (weights : option ndarray) : result ndarray :=
  match source, target with
  | Arr2 ns d P, Arr2 nt d' Q =>
      if d != d' then Raise (LibraryError gauss_msg) else
      let k (i j : nat) : R := np_exp (- sqdist Q i P j / h ^+ 2) in
      match weights with
      | None => Ok (Arr1 (\row_(i < nt) \sum_(j < ns) k i j))
      | Some (Arr1 n wt) =>
          if n != ns then Raise (LibraryError gauss_msg)
          else Ok (Arr1 (\row_(i < nt) \sum_(j < ns) mget wt 0 j * k i j))
      | Some (Arr2 c n W) =>
          if n != ns then Raise (LibraryError gauss_msg)
          else Ok (Arr2 (\matrix_(r < c, i < nt) \sum_(j < ns) mget W r j * k i j))
      | Some (Arr0 _) => Raise (LibraryError gauss_msg)
      end
  | _, _ => Raise (LibraryError gauss_msg)
  end.

(** *** CoherentPointDrift.expectation_step *)

(** [kt1[kt1==0] = np.finfo(np.float32).eps], on one entry. *)
Definition zero_to_eps (x : R) : R :=
  if x == 0 then finfo_float32_eps else x.

Definition expectation_step (t_source target : ndarray) (sigma2 w : R) :
    result EstepResult :=
  if ~~ ((ndim t_source == 2%N) && (ndim target == 2%N))
  then Raise (AssertionError ndim_msg) else
  ndim <- shape_at t_source 1 ;;
  let h := np_sqrt (2 * sigma2) in
  let c := np_power (2 * np_pi * sigma2) (ndim%:R * 2^-1) in
  r <- py_div w (1 - w) ;;
  n <- shape_at t_source 0 ;;
  m <- shape_at target 0 ;;
  r <- py_div (r * n%:R) m%:R ;;
  let c := c * r in
  kt1 <- GaussTransform_compute t_source h target None ;;
  let kt1 := np_map zero_to_eps kt1 in
  let a := np_map (fun x => 1 / x) (np_map (fun x => x + c) kt1) in
  let pt1 := np_map (fun x => 1 - x) (np_map (fun x => c * x) a) in
  p1 <- GaussTransform_compute target h t_source (Some a) ;;
  wts <- np_mul (np_tile_rows a ndim) (np_T target) ;;
  px <- GaussTransform_compute target h t_source (Some wts) ;;
  Ok (mkEstepResult pt1 p1 (np_T px) (np_sum p1)).

(** *** RigidCPD._maximization_step *)

Definition RigidCPD__maximization_step (source target : ndarray)
    (estep_res : EstepResult) (sigma2_p : option R) : result MstepResult :=
  let: mkEstepResult pt1 p1 px n_p := estep_res in
  ndim <- shape_at source 1 ;;
  sum_px <- np_sum_axis0 px ;;
  let mu_x := np_map (fun x => x / n_p) sum_px in
  yp <- np_dot (np_T source) p1 ;;
  let mu_y := np_map (fun x => x / n_p) yp in
  target_hat <- np_sub target mu_x ;;
  source_hat <- np_sub source mu_y ;;
  pxy <- np_dot (np_T px) source_hat ;;
  p1y <- np_dot (np_T p1) source_hat ;;
  a <- np_sub pxy (np_outer mu_x p1y) ;;
  usv <- np_linalg_svd a ;;
  let: (u, _, vh) := usv in
  let c := np_ones ndim in
  uvh <- np_dot u vh ;;
  d <- np_linalg_det uvh ;;
  c <- setitem_last c d ;;
  uc <- np_mul u c ;;
  rot <- np_dot uc vh ;;
  atr <- np_dot (np_T a) rot ;;
  tr_atr <- np_trace atr ;;
  yp1 <- np_mul (np_T source_hat) p1 ;;
  yp1y <- np_dot yp1 source_hat ;;
  tr_yp1y <- np_trace yp1y ;;
  let scale := tr_atr / tr_yp1y in
  rmu <- np_dot rot mu_y ;;
  t <- np_sub mu_x (np_map (fun x => scale * x) rmu) ;;
  xp1 <- np_mul (np_T target_hat) pt1 ;;
  xp1x <- np_dot xp1 target_hat ;;
  tr_xp1x <- np_trace xp1x ;;
  let sigma2 := (tr_xp1x - scale * tr_atr) / (n_p * ndim%:R) in
  let q := (tr_xp1x - 2 * scale * tr_atr + scale ^+ 2 * tr_yp1y) / (2 * sigma2) in
  let q := q + ndim%:R * n_p * 2^-1 * np_log sigma2 in
  Ok (mkMstepResult (RigidTransformation rot t scale) sigma2 q).

(** *** AffineCPD._maximization_step *)

Definition AffineCPD__maximization_step (source target : ndarray)
    (estep_res : EstepResult) (sigma2_p : option R) : result MstepResult :=
  let: mkEstepResult pt1 p1 px n_p := estep_res in
  ndim <- shape_at source 1 ;;
  sum_px <- np_sum_axis0 px ;;
  let mu_x := np_map (fun x => x / n_p) sum_px in
  yp <- np_dot (np_T source) p1 ;;
  let mu_y := np_map (fun x => x / n_p) yp in
  target_hat <- np_sub target mu_x ;;
  source_hat <- np_sub source mu_y ;;
  pxy <- np_dot (np_T px) source_hat ;;
  p1y <- np_dot (np_T p1) source_hat ;;
  a <- np_sub pxy (np_outer mu_x p1y) ;;
  yp1 <- np_mul (np_T source_hat) p1 ;;
  yp1y <- np_dot yp1 source_hat ;;
  bt <- np_linalg_solve (np_T yp1y) (np_T a) ;;
  let b := np_T bt in
  bmu <- np_dot b mu_y ;;
  t <- np_sub mu_x bmu ;;
  xp1 <- np_mul (np_T target_hat) pt1 ;;
  xp1x <- np_dot xp1 target_hat ;;
  tr_xp1x <- np_trace xp1x ;;
  abt <- np_dot a (np_T b) ;;
  tr_xpyb <- np_trace abt ;;
  let sigma2 := (tr_xp1x - tr_xpyb) / (n_p * ndim%:R) in
  abt' <- np_dot a (np_T b) ;;
  tr_ab <- np_trace abt' ;;
  let q := (tr_xp1x - 2 * tr_ab + tr_xpyb) / (2 * sigma2) in
  let q := q + ndim%:R * n_p * 2^-1 * np_log sigma2 in
  Ok (mkMstepResult (AffineTransformation b t) sigma2 q).

(** *** NonRigidCPD._maximization_step *)

Definition NonRigidCPD__maximization_step (source target : ndarray)
    (estep_res : EstepResult) (sigma2_p : option R) (g : option ndarray)
    (lmd : R) : result MstepResult :=
  let: mkEstepResult pt1 p1 px n_p := estep_res in
  ndim <- shape_at source 1 ;;
  dp1_inv <- np_diag (np_map (fun x => 1 / x) p1) ;;
  s2p <- (if sigma2_p is Some s then Ok s else Raise TypeError) ;;
  gm <- (if g is Some gm then Ok gm else Raise TypeError) ;;
  lhs <- np_add gm (np_map (fun x => lmd * s2p * x) dp1_inv) ;;
  dpx <- np_mul dp1_inv px ;;
  rhs <- np_sub dpx source ;;
  w <- np_linalg_solve lhs rhs ;;
  gw <- np_dot gm w ;;
  t <- np_add source gw ;;
  xp1 <- np_mul (np_T target) pt1 ;;
  xp1x <- np_dot xp1 target ;;
  tr_xp1x <- np_trace xp1x ;;
  pxt <- np_dot (np_T px) t ;;
  tr_pxtt <- np_trace pxt ;;
  tp1 <- np_mul (np_T t) p1 ;;
  tp1t <- np_dot tp1 t ;;
  tr_ttp1t <- np_trace tp1t ;;
  let sigma2 := (tr_xp1x - 2 * tr_pxtt + tr_ttp1t) / (n_p * ndim%:R) in
  Ok (mkMstepResult (NonRigidTransformation g w) sigma2 sigma2).

(** *** The three classes

    An object of a class is its attributes.  [_tf_type] is fixed by the class
    and never [None] for the three concrete classes, so the assertion that
    opens [registration] always holds for them. *)

Inductive cpd : Type :=
| RigidObj (_source : option ndarray)
| AffineObj (_source : option ndarray)
| NonRigidObj (_source : option ndarray) (_beta _lmd : R) (_g : option ndarray).

Definition cpd_source (self : cpd) : option ndarray :=
  match self with
  | RigidObj s => s
  | AffineObj s => s
  | NonRigidObj s _ _ _ => s
  end.

(** Using [self._source] as an array while it is [None]. *)
Definition self_source (self : cpd) : result ndarray :=
  if cpd_source self is Some s then Ok s else Raise AttributeError.

(** The constructors ([__init__]). *)
Definition RigidCPD (source : option ndarray) : cpd := RigidObj source.

Definition AffineCPD (source : option ndarray) : cpd := AffineObj source.

Definition NonRigidCPD (source : option ndarray) (beta lmd : R) : result cpd :=
  match source with
  | None => Ok (NonRigidObj None beta lmd None)
  | Some s =>
      g <- gaussian_kernel s beta ;;
      Ok (NonRigidObj (Some s) beta lmd (Some g))
  end.

(** [set_source], overridden by [NonRigidCPD]: the object after the call and
    how the call ended.  The source is assigned before the kernel matrix is
    computed, so the assignment stays when the helper raises. *)
Definition set_source (self : cpd) (source : ndarray) : cpd * result unit :=
  match self with
  | RigidObj _ => (RigidObj (Some source), Ok tt)
  | AffineObj _ => (AffineObj (Some source), Ok tt)
  | NonRigidObj _ beta lmd g =>
      match gaussian_kernel source beta with
      | Ok g' => (NonRigidObj (Some source) beta lmd (Some g'), Ok tt)
      | Raise e => (NonRigidObj (Some source) beta lmd g, Raise e)
      end
  end.

(** [_initialize] of each class. *)
Definition RigidCPD_initialize (self_source_ : option ndarray)
    (target : ndarray) : result MstepResult :=
  source <- (if self_source_ is Some s then Ok s else Raise AttributeError) ;;
  ndim <- shape_at source 1 ;;
  sigma2 <- msn_all_combination source target ;;
  m <- shape_at target 0 ;;
  let q := 1 + m%:R * ndim%:R * 2^-1 * np_log sigma2 in
  Ok (mkMstepResult
        (RigidTransformation_default (np_identity ndim) (np_zeros ndim))
        sigma2 q).

Definition AffineCPD_initialize (self_source_ : option ndarray)
    (target : ndarray) : result MstepResult :=
  source <- (if self_source_ is Some s then Ok s else Raise AttributeError) ;;
  ndim <- shape_at source 1 ;;
  sigma2 <- msn_all_combination source target ;;
  m <- shape_at target 0 ;;
  let q := 1 + m%:R * ndim%:R * 2^-1 * np_log sigma2 in
  Ok (mkMstepResult
        (AffineTransformation (np_identity ndim) (np_zeros ndim))
        sigma2 q).

Definition NonRigidCPD_initialize (self_source_ : option ndarray)
    (self_g : option ndarray) (target : ndarray) : result MstepResult :=
  source <- (if self_source_ is Some s then Ok s else Raise AttributeError) ;;
  ndim <- shape_at source 1 ;;
  sigma2 <- msn_all_combination source target ;;
  m <- shape_at target 0 ;;
  let q := 1 + m%:R * ndim%:R * 2^-1 * np_log sigma2 in
  n <- shape_at source 0 ;;
  Ok (mkMstepResult (NonRigidTransformation self_g (np_zeros n)) sigma2 q).

Definition _initialize (self : cpd) (target : ndarray) : result MstepResult :=
  match self with
  | RigidObj s => RigidCPD_initialize s target
  | AffineObj s => AffineCPD_initialize s target
  | NonRigidObj s _ _ g => NonRigidCPD_initialize s g target
  end.

(** [maximization_step], overridden by [NonRigidCPD]. *)
Definition maximization_step (self : cpd) (target : ndarray)
    (estep_res : EstepResult) (sigma2_p : option R) : result MstepResult :=
  source <- self_source self ;;
  match self with
  | RigidObj _ => RigidCPD__maximization_step source target estep_res sigma2_p
  | AffineObj _ => AffineCPD__maximization_step source target estep_res sigma2_p
  | NonRigidObj _ _ lmd g =>
      NonRigidCPD__maximization_step source target estep_res sigma2_p g lmd
  end.

(** *** CoherentPointDrift.registration *)

(** [range(k)] runs [k] times, and not at all for a negative [k]. *)
Definition range_len (k : int) : nat := if k is Posz n then n else 0%N.

(** The body of the loop up to the convergence test. *)
Definition em_iteration (self : cpd) (target : ndarray) (w : R)
    (res : MstepResult) : result MstepResult :=
  source <- self_source self ;;
  t_source <- tf_transform (mstep_transformation res) source ;;
  estep_res <- expectation_step t_source target (sigma2 res) w ;;
  maximization_step self target estep_res (Some (sigma2 res)).

Fixpoint registration_loop (self : cpd) (target : ndarray) (w tol : R)
    (n : nat) (res : MstepResult) (q0 : R) : result MstepResult :=
  if n is n'.+1 then
    res' <- em_iteration self target w res ;;
    if `|q res' - q0| < tol then Ok res'
    else registration_loop self target w tol n' res' (q res')
  else Ok res.

Definition registration (self : cpd) (target : ndarray) (w : R)
    (max_iteration : int) (tol : R) : result MstepResult :=
  res <- _initialize self target ;;
  registration_loop self target w tol (range_len max_iteration) res (q res).

(** The same loop with a ghost record of what it ran: the number of
    iterations it started and the results of those it completed. *)
Fixpoint registration_loop_trace (self : cpd) (target : ndarray) (w tol : R)
    (n : nat) (res : MstepResult) (q0 : R) :
    nat * seq MstepResult * result MstepResult :=
  if n is n'.+1 then
    match em_iteration self target w res with
    | Raise e => (1%N, [::], Raise e)
    | Ok res' =>
        if `|q res' - q0| < tol then (1%N, [:: res'], Ok res')
        else
          let: (k, tr, out) :=
            registration_loop_trace self target w tol n' res' (q res') in
          (k.+1, res' :: tr, out)
    end
  else (0%N, [::], Ok res).

Definition registration_trace (self : cpd) (target : ndarray) (w : R)
    (max_iteration : int) (tol : R) :
    nat * seq MstepResult * result MstepResult :=
  match _initialize self target with
  | Raise e => (0%N, [::], Raise e)
  | Ok res =>
      registration_loop_trace self target w tol (range_len max_iteration)
        res (q res)
  end.

(** *** registration_cpd *)

(** Keyword arguments ([**kargs]): a dictionary from names to floats. *)
Definition kwargs : Type := seq (string * R).

Fixpoint kw_get (k : string) (kargs : kwargs) : option R :=
  if kargs is (k', v) :: rest then
    if String.eqb k k' then Some v else kw_get k rest
  else None.

Definition kw_only (allowed : seq string) (kargs : kwargs) : bool :=
  all (fun kv => has (String.eqb kv.1) allowed) kargs.

(** [NonRigidCPD(source, **kargs)] with the defaults [beta=2.0], [lmd=2.0];
    a keyword that [__init__] does not have is a [TypeError]. *)
Definition NonRigidCPD_kw (source : ndarray) (kargs : kwargs) : result cpd :=
  if kw_only [:: "beta"%string; "lmd"%string] kargs then
    NonRigidCPD (Some source)
      (if kw_get "beta"%string kargs is Some b then b else 2)
      (if kw_get "lmd"%string kargs is Some l then l else 2)
  else Raise TypeError.

Definition unknown_type_msg (tf_type_name : string) : string :=
  String.append "Unknown transform type "%string tf_type_name.

(** [source] and [target] stand for [np.asarray(source.points)] and
    [np.asarray(target.points)]. *)
Definition registration_cpd (source target : ndarray) (tf_type_name : string)
    (w : R) (max_iteration : int) (tol : R) (kargs : kwargs) :
    result MstepResult :=
  if String.eqb tf_type_name "rigid"%string then
    cpd_ <- (if kw_only [::] kargs then Ok (RigidCPD (Some source))
             else Raise TypeError) ;;
    registration cpd_ target w max_iteration tol
  else if String.eqb tf_type_name "affine"%string then
    cpd_ <- (if kw_only [::] kargs then Ok (AffineCPD (Some source))
             else Raise TypeError) ;;
    registration cpd_ target w max_iteration tol
  else if String.eqb tf_type_name "nonrigid"%string then
    cpd_ <- NonRigidCPD_kw source kargs ;;
    registration cpd_ target w max_iteration tol
  else Raise (ValueError (unknown_type_msg tf_type_name)).

End CoherentPointDrift.

(** ** numpy operations on operands of matching shapes

    When the shapes of its operands fit, an operation returns the matrix
    expression it stands for. *)

Section NumpyTyped.

Variable R : realFieldType.

Lemma bindE (A B : Type) (a : A) (f : A -> result B) : bind (Ok a) f = f a.
Proof. by []. Qed.

Lemma mgetE (m n : nat) (A : 'M[R]_(m, n)) (i : 'I_m) (j : 'I_n) :
  mget A i j = A i j.
Proof. by rewrite /mget !valK. Qed.

Lemma mget0E (n : nat) (v : 'rV[R]_n) (j : 'I_n) : mget v 0 j = v 0 j.
Proof. by rewrite -(mgetE v 0 j). Qed.

Lemma tabulate_mget (m n : nat) (A : 'M[R]_(m, n)) :
  \matrix_(i < m, j < n) mget A i j = A.
Proof. by apply/matrixP => i j; rewrite mxE mgetE. Qed.

Lemma bidx_ord (m : nat) (i : 'I_m) : bidx m i = i.
Proof.
rewrite /bidx; case: eqP => // e.
by move: i; rewrite e => i; rewrite ord1.
Qed.

Lemma bdimxx (n : nat) : bdim n n = Some n.
Proof. by rewrite /bdim eqxx. Qed.

Lemma bdim_n1 (n : nat) : bdim n 1 = Some n.
Proof. by rewrite /bdim eqxx /=; case: eqP => // ->. Qed.

Lemma bdim_1n (n : nat) : bdim 1 n = Some n.
Proof. by rewrite /bdim eqxx /=; case: eqP => // <-. Qed.

Lemma bdim_none (a b : nat) :
  a != b -> a != 1%N -> b != 1%N -> bdim a b = None.
Proof. by rewrite /bdim => /negPf -> /negPf -> /negPf ->. Qed.

Lemma np_binop_22 (f : R -> R -> R) (m n : nat) (A B : 'M[R]_(m, n)) :
  np_binop f (Arr2 A) (Arr2 B) = Ok (Arr2 (map2_mx f A B)).
Proof.
rewrite /np_binop /= !bdimxx /=; congr (Ok (Arr2 _)).
by apply/matrixP => i j; rewrite !mxE !bidx_ord !mgetE.
Qed.

Lemma np_binop_21 (f : R -> R -> R) (m n : nat) (A : 'M[R]_(m, n))
    (v : 'rV[R]_n) :
  np_binop f (Arr2 A) (Arr1 v) = Ok (Arr2 (\matrix_(i, j) f (A i j) (v 0 j))).
Proof.
rewrite /np_binop /= bdim_n1 bdimxx /=; congr (Ok (Arr2 _)).
by apply/matrixP => i j; rewrite !mxE !bidx_ord mgetE mget0E.
Qed.

Lemma np_binop_11 (f : R -> R -> R) (n : nat) (u v : 'rV[R]_n) :
  np_binop f (Arr1 u) (Arr1 v) = Ok (Arr1 (map2_mx f u v)).
Proof.
rewrite /np_binop /= bdimxx /=; congr (Ok (Arr1 _)).
by apply/rowP => j; rewrite !mxE !bidx_ord !mget0E.
Qed.

Lemma np_sub_22 (m n : nat) (A B : 'M[R]_(m, n)) :
  np_sub (Arr2 A) (Arr2 B) = Ok (Arr2 (A - B)).
Proof.
rewrite /np_sub np_binop_22; congr (Ok (Arr2 _)).
by apply/matrixP => i j; rewrite !mxE.
Qed.

Lemma np_add_22 (m n : nat) (A B : 'M[R]_(m, n)) :
  np_add (Arr2 A) (Arr2 B) = Ok (Arr2 (A + B)).
Proof.
by rewrite /np_add np_binop_22.
Qed.

Lemma np_sub_11 (n : nat) (u v : 'rV[R]_n) :
  np_sub (Arr1 u) (Arr1 v) = Ok (Arr1 (u - v)).
Proof.
rewrite /np_sub np_binop_11; congr (Ok (Arr1 _)).
by apply/rowP => j; rewrite !mxE.
Qed.

(** Subtracting a vector from every row of a matrix. *)
Lemma np_sub_21 (m n : nat) (A : 'M[R]_(m, n)) (v : 'rV[R]_n) :
  np_sub (Arr2 A) (Arr1 v) = Ok (Arr2 (A - const_mx 1 *m v)).
Proof.
rewrite /np_sub np_binop_21; congr (Ok (Arr2 _)).
apply/matrixP => i j; rewrite !mxE big_ord_recl big_ord0 addr0.
by rewrite !mxE mul1r.
Qed.

(** Scaling column [j] of a matrix by entry [j] of a vector. *)
Lemma np_mul_21 (m n : nat) (A : 'M[R]_(m, n)) (v : 'rV[R]_n) :
  np_mul (Arr2 A) (Arr1 v) = Ok (Arr2 (A *m diag_mx v)).
Proof. by rewrite /np_mul np_binop_21 mul_mx_diag. Qed.

Lemma np_dot_22 (m n p : nat) (A : 'M[R]_(m, n)) (B : 'M[R]_(n, p)) :
  np_dot (Arr2 A) (Arr2 B) = Ok (Arr2 (A *m B)).
Proof.
rewrite /np_dot eqxx; congr (Ok (Arr2 _)).
apply/matrixP => i k; rewrite !mxE; apply: eq_bigr => j _.
by rewrite mgetE.
Qed.

Lemma np_dot_21 (m n : nat) (A : 'M[R]_(m, n)) (v : 'rV[R]_n) :
  np_dot (Arr2 A) (Arr1 v) = Ok (Arr1 (v *m A^T)).
Proof.
rewrite /np_dot eqxx; congr (Ok (Arr1 _)).
apply/rowP => i; rewrite !mxE; apply: eq_bigr => j _.
by rewrite mget0E mxE mulrC.
Qed.

Lemma np_dot_12 (n p : nat) (v : 'rV[R]_n) (B : 'M[R]_(n, p)) :
  np_dot (Arr1 v) (Arr2 B) = Ok (Arr1 (v *m B)).
Proof.
rewrite /np_dot eqxx; congr (Ok (Arr1 _)).
apply/rowP => k; rewrite !mxE; apply: eq_bigr => j _.
by rewrite mgetE.
Qed.

Lemma np_outer_11 (m n : nat) (u : 'rV[R]_m) (v : 'rV[R]_n) :
  np_outer (Arr1 u) (Arr1 v) = Arr2 (u^T *m v).
Proof.
rewrite /np_outer /=; congr (Arr2 _).
apply/matrixP => i j; rewrite !mxE big_ord_recl big_ord0 addr0.
by rewrite !mget0E mxE.
Qed.

Lemma np_trace_sq (n : nat) (A : 'M[R]_n) : np_trace (Arr2 A) = Ok (\tr A).
Proof.
rewrite /np_trace /mxtrace; congr (Ok _).
have e : minn n n = n by rewrite minnn.
rewrite [X in _ = X](reindex (cast_ord e)) /=.
  by exists (cast_ord (esym e)) => i _; rewrite ?cast_ordK ?cast_ordKV.
by apply: eq_bigr => i _; rewrite -(mgetE A).
Qed.

Lemma np_linalg_det_sq (n : nat) (A : 'M[R]_n) :
  np_linalg_det (Arr2 A) = Ok (\det A).
Proof. by rewrite /np_linalg_det eqxx tabulate_mget. Qed.

Lemma np_linalg_solve_22 (n k : nat) (A : 'M[R]_n) (B : 'M[R]_(n, k)) :
  np_linalg_solve (Arr2 A) (Arr2 B) =
  if A \in unitmx then Ok (Arr2 (invmx A *m B)) else Raise LinAlgError.
Proof. by rewrite /np_linalg_solve eqxx /= !tabulate_mget. Qed.

(** [np.ones(n)] with its last entry replaced by [d]. *)
Definition ones_with_last (n : nat) (d : R) : 'rV[R]_n :=
  \row_(j < n) if (j : nat) == n.-1 then d else 1.

Lemma setitem_last_ones (n : nat) (d : R) :
  (0 < n)%N -> setitem_last (np_ones n) d = Ok (Arr1 (ones_with_last n d)).
Proof.
case: n => [//|n] _; rewrite /setitem_last /np_ones; congr (Ok (Arr1 _)).
by apply/rowP => j; rewrite !mxE.
Qed.

Lemma setitem_last_ones0 (n : nat) (d : R) :
  n = 0%N -> setitem_last (np_ones n : ndarray R) d = Raise IndexError.
Proof. by move=> ->. Qed.

Lemma prod_ones_with_last (n : nat) (d : R) :
  (0 < n)%N -> \prod_(j < n) ones_with_last n d 0 j = d.
Proof.
case: n => [//|n] _; rewrite big_ord_recr /= big1 ?mul1r.
  move=> j _; rewrite /ones_with_last mxE /=; case: eqP => // e.
  by move: (ltn_ord j); rewrite e ltnn.
by rewrite /ones_with_last mxE /= eqxx.
Qed.

Lemma diag_ones_with_last_sq (n : nat) (d : R) :
  d * d = 1 ->
  diag_mx (ones_with_last n d) *m diag_mx (ones_with_last n d) = 1%:M.
Proof.
move=> dd; rewrite mul_diag_mx; apply/matrixP => i j.
rewrite /ones_with_last !mxE.
case: (i == j); rewrite ?mulr0n ?mulr0 // !mulr1n.
by case: ifP => _; rewrite ?mulr1.
Qed.

End NumpyTyped.

(** ** The maximization steps on well-shaped operands

    For a source of N points and a target of M points in D dimensions, and an
    [EstepResult] of matching shapes, the steps compute the quantities of the
    shared contract (spec 4.3), written here as matrix expressions. *)

Section MstepTyped.

Variable R : realFieldType.
Variable np_log : R -> R.
Variable np_linalg_svd : ndarray R -> result (ndarray R * ndarray R * ndarray R).

Variables (N M D : nat).
Variables (S : 'M[R]_(N, D)) (X : 'M[R]_(M, D)).
Variables (pt1 : 'rV[R]_M) (p1 : 'rV[R]_N) (px : 'M[R]_(N, D)) (n_p : R).

Definition typed_estep : EstepResult R :=
  mkEstepResult (Arr1 pt1) (Arr1 p1) (Arr2 px) n_p.

Definition mu_x : 'rV[R]_D :=
  map_mx (fun x => x / n_p) (\row_j \sum_i px i j).

Definition mu_y : 'rV[R]_D := map_mx (fun x => x / n_p) (p1 *m S).

Definition target_hat : 'M[R]_(M, D) := X - const_mx 1 *m mu_x.

Definition source_hat : 'M[R]_(N, D) := S - const_mx 1 *m mu_y.

Definition cross_cov : 'M[R]_D :=
  px^T *m source_hat - mu_x^T *m (p1 *m source_hat).

Definition mx_yp1y : 'M[R]_D := source_hat^T *m diag_mx p1 *m source_hat.

Definition tr_xp1x : R := \tr (target_hat^T *m diag_mx pt1 *m target_hat).

(** The affine step. *)
Definition affine_b : 'M[R]_D := (invmx mx_yp1y^T *m cross_cov^T)^T.

Definition affine_t : 'rV[R]_D := mu_x - mu_y *m affine_b^T.

Definition affine_tr_ab : R := \tr (cross_cov *m affine_b^T).

Definition affine_sigma2 : R := (tr_xp1x - affine_tr_ab) / (n_p * D%:R).

Lemma affine_mstep_typed (sigma2_p : option R) :
  AffineCPD__maximization_step np_log (Arr2 S) (Arr2 X) typed_estep sigma2_p =
  if mx_yp1y^T \in unitmx then
    Ok (mkMstepResult (AffineTransformation (Arr2 affine_b) (Arr1 affine_t))
          affine_sigma2
          ((tr_xp1x - 2 * affine_tr_ab + affine_tr_ab) / (2 * affine_sigma2)
           + D%:R * n_p * 2^-1 * np_log affine_sigma2))
  else Raise LinAlgError.
Proof.
rewrite /AffineCPD__maximization_step /typed_estep /shape_at /=.
rewrite np_dot_21 bindE trmxK -/mu_y.
rewrite np_sub_21 bindE np_sub_21 bindE -/mu_x -/target_hat -/source_hat.
rewrite np_dot_22 bindE np_dot_12 bindE np_outer_11 np_sub_22 bindE -/cross_cov.
rewrite np_mul_21 bindE np_dot_22 bindE -/mx_yp1y.
rewrite np_linalg_solve_22; case: ifP => // _; rewrite bindE.
rewrite -/affine_b np_dot_21 bindE np_sub_11 bindE -/affine_t.
rewrite np_mul_21 bindE np_dot_22 bindE np_trace_sq bindE -/tr_xp1x.
rewrite np_dot_22 bindE np_trace_sq bindE bindE np_trace_sq bindE.
by rewrite -/affine_tr_ab -/affine_sigma2.
Qed.

(** The rigid step, for the factors [U] and [Vh] of the decomposition. *)
Definition tr_yp1y : R := \tr mx_yp1y.

Section Rigid.

Variables U Vh : 'M[R]_D.

Definition rigid_rot : 'M[R]_D :=
  U *m diag_mx (ones_with_last D (\det (U *m Vh))) *m Vh.

Definition rigid_tr_atr : R := \tr (cross_cov^T *m rigid_rot).

Definition rigid_scale : R := rigid_tr_atr / tr_yp1y.

Definition rigid_t : 'rV[R]_D :=
  mu_x - map_mx (fun x => rigid_scale * x) (mu_y *m rigid_rot^T).

Definition rigid_sigma2 : R :=
  (tr_xp1x - rigid_scale * rigid_tr_atr) / (n_p * D%:R).

Definition rigid_q : R :=
  (tr_xp1x - 2 * rigid_scale * rigid_tr_atr + rigid_scale ^+ 2 * tr_yp1y)
    / (2 * rigid_sigma2)
  + D%:R * n_p * 2^-1 * np_log rigid_sigma2.

Lemma rigid_mstep_typed (sigma2_p : option R) (sv : ndarray R) :
  (0 < D)%N ->
  np_linalg_svd (Arr2 cross_cov) = Ok (Arr2 U, sv, Arr2 Vh) ->
  RigidCPD__maximization_step np_log np_linalg_svd (Arr2 S) (Arr2 X)
    typed_estep sigma2_p =
  Ok (mkMstepResult (RigidTransformation (Arr2 rigid_rot) (Arr1 rigid_t)
                       rigid_scale)
        rigid_sigma2 rigid_q).
Proof.
move=> D0 svdE.
rewrite /RigidCPD__maximization_step /typed_estep /shape_at /=.
rewrite np_dot_21 bindE trmxK -/mu_y.
rewrite np_sub_21 bindE np_sub_21 bindE -/mu_x -/target_hat -/source_hat.
rewrite np_dot_22 bindE np_dot_12 bindE np_outer_11 np_sub_22 bindE -/cross_cov.
rewrite svdE bindE np_dot_22 bindE np_linalg_det_sq bindE.
rewrite setitem_last_ones // bindE np_mul_21 bindE np_dot_22 bindE -/rigid_rot.
rewrite np_dot_22 bindE np_trace_sq bindE -/rigid_tr_atr.
rewrite np_mul_21 bindE np_dot_22 bindE np_trace_sq bindE -/mx_yp1y -/tr_yp1y.
rewrite -/rigid_scale np_dot_21 bindE.
have -> : np_map (fun x => rigid_scale * x) (Arr1 (mu_y *m rigid_rot^T))
          = Arr1 (map_mx (fun x => rigid_scale * x) (mu_y *m rigid_rot^T)) by [].
rewrite np_sub_11 bindE -/rigid_t.
by rewrite np_mul_21 bindE np_dot_22 bindE np_trace_sq bindE -/tr_xp1x.
Qed.

(** Without a last entry to replace, in dimension 0, the step stops. *)
Lemma rigid_mstep_dim0 (sigma2_p : option R) (sv : ndarray R) :
  D = 0%N ->
  np_linalg_svd (Arr2 cross_cov) = Ok (Arr2 U, sv, Arr2 Vh) ->
  RigidCPD__maximization_step np_log np_linalg_svd (Arr2 S) (Arr2 X)
    typed_estep sigma2_p = Raise IndexError.
Proof.
move=> D0 svdE.
rewrite /RigidCPD__maximization_step /typed_estep /shape_at /=.
rewrite np_dot_21 bindE trmxK -/mu_y.
rewrite np_sub_21 bindE np_sub_21 bindE -/mu_x -/target_hat -/source_hat.
rewrite np_dot_22 bindE np_dot_12 bindE np_outer_11 np_sub_22 bindE -/cross_cov.
rewrite svdE bindE np_dot_22 bindE np_linalg_det_sq bindE.
by rewrite setitem_last_ones0.
Qed.

(** The algebra of the reflection correction. *)
Hypothesis U_orth : U *m U^T = 1%:M.
Hypothesis Vh_orth : Vh *m Vh^T = 1%:M.

Lemma det_UVh_sq : \det (U *m Vh) * \det (U *m Vh) = 1.
Proof.
rewrite -{2}det_tr -det_mulmx trmx_mul mulmxA -(mulmxA U) Vh_orth mulmx1.
by rewrite U_orth det1.
Qed.

Lemma rigid_rot_orthogonal : rigid_rot *m rigid_rot^T = 1%:M.
Proof.
rewrite /rigid_rot !trmx_mul tr_diag_mx !mulmxA.
rewrite -(mulmxA (U *m _) Vh) Vh_orth mulmx1 -(mulmxA U).
by rewrite diag_ones_with_last_sq ?mulmx1 //; exact: det_UVh_sq.
Qed.

Lemma rigid_rot_det : (0 < D)%N -> \det rigid_rot = 1.
Proof.
move=> D0; rewrite /rigid_rot !det_mulmx det_diag prod_ones_with_last //.
by rewrite mulrAC -det_mulmx det_UVh_sq.
Qed.

End Rigid.

End MstepTyped.

(** ** The rotation of the rigid variant (C1) *)

Section RigidRotation.

Variable R : realFieldType.

(** What [np.linalg.svd] promises for a square matrix when it returns: square
    orthogonal factors [u] and [vh] and the singular values [s], with
    [a = u diag(s) vh]. *)
Definition svd_contract
    (svd : ndarray R -> result (ndarray R * ndarray R * ndarray R)) : Prop :=
  forall (n : nat) (A : 'M[R]_n) (u s vh : ndarray R),
    svd (Arr2 A) = Ok (u, s, vh) ->
    exists (U : 'M[R]_n) (sv : 'rV[R]_n) (Vh : 'M[R]_n),
      [/\ u = Arr2 U, s = Arr1 sv & vh = Arr2 Vh] /\
      [/\ U *m U^T = 1%:M, Vh *m Vh^T = 1%:M & A = U *m diag_mx sv *m Vh].

(** A proper rotation: a square matrix [r] with [r r^T = I] and [det r = 1]. *)
Definition proper_rotation (a : ndarray R) : Prop :=
  exists (n : nat) (Rm : 'M[R]_n),
    [/\ a = Arr2 Rm, Rm *m Rm^T = 1%:M & \det Rm = 1].

Definition rotation_of (t : transformation R) : option (ndarray R) :=
  if t is RigidTransformation r _ _ then Some r else None.

End RigidRotation.

(** A decomposition for 1 x 1 matrices, [a = sign(a) |a| 1]; it stands for
    numpy's on the inputs of the examples and refuses every other input, as a
    decomposition that does not converge does. *)
Definition svd_1x1 (R : realFieldType) (a : ndarray R) :
    result (ndarray R * ndarray R * ndarray R) :=
  match a with
  | Arr2 m n A =>
      if (m == 1%N) && (n == 1%N) then
        let x := mget A 0 0 in
        Ok (Arr2 ((if x < 0 then -1 else 1)%:M : 'M[R]_1),
            Arr1 (`|x|%:M : 'rV[R]_1),
            Arr2 (1%:M : 'M[R]_1))
      else Raise LinAlgError
  | _ => Raise LinAlgError
  end.

Lemma svd_1x1_contract (R : realFieldType) : svd_contract (@svd_1x1 R).
Proof.
move=> n A u s vh; rewrite /svd_1x1; case: eqP => //= e.
move: e A => -> A [<- <- <-].
exists (if mget A 0 0 < 0 then -1 else 1)%:M, (`|mget A 0 0|%:M), 1%:M.
split=> //; split.
- by rewrite tr_scalar_mx -scalar_mxM; case: ifP => _; rewrite ?mulrNN mulr1.
- by rewrite trmx1 mulmx1.
- rewrite mulmx1; apply/matrixP => i j; rewrite !ord1 !mxE big_ord1 !mxE.
  rewrite (mgetE A 0 0) /= !mulr1n.
  by case: ltrP => [/ltr0_norm ->|/ger0_norm ->]; rewrite ?mulrNN mul1r.
Qed.

(** Two points on a line, matched crosswise: the best orthogonal map is the
    reflection. *)
Definition line_source : 'M[rat]_(2, 1) := \matrix_(i, j) (i : nat)%:R.
Definition line_target : 'M[rat]_(2, 1) := \matrix_(i, j) (i : nat)%:R *+ 2.
Definition line_px : 'M[rat]_(2, 1) := \matrix_(i, j) (1 - (i : nat)%:R).
Definition line_ones : 'rV[rat]_2 := const_mx 1.


(** ** The objective of the affine variant (C5) *)

(** C5.  For a source of N points and a target of M points in D dimensions
    and an [EstepResult] of matching shapes, the affine maximization step
    returns exactly when the matrix of the linear system it solves is
    invertible, and then its variance is
    [sigma2_new = (tr_XP1X - tr_AB) / (n_p D)] and its objective is
    [(tr_XP1X - 2 tr_AB + tr_AB) / (2 sigma2_new) + D n_p / 2 log(sigma2_new)],
    which equals [(tr_XP1X - tr_AB) / (2 sigma2_new) + D n_p / 2 log(sigma2_new)]:
    both cross terms are [trace(A B^T)]. *)
Theorem affine_objective_cross_terms (R : realFieldType) (np_log : R -> R)
    (N M D : nat) (S : 'M[R]_(N, D)) (X : 'M[R]_(M, D))
    (pt1 : 'rV[R]_M) (p1 : 'rV[R]_N) (px : 'M[R]_(N, D)) (n_p : R)
    (sigma2_p : option R) :
  let step := AffineCPD__maximization_step np_log (Arr2 S) (Arr2 X)
                (typed_estep pt1 p1 px n_p) sigma2_p in
  let tr_XP1X := tr_xp1x X pt1 px n_p in
  let tr_AB := \tr (cross_cov S p1 px n_p *m (affine_b S p1 px n_p)^T) in
  let sigma2_new := (tr_XP1X - tr_AB) / (n_p * D%:R) in
  is_ok step = ((mx_yp1y S p1 n_p)^T \in unitmx) /\
  forall res, step = Ok res ->
    [/\ mstep_transformation res
        = AffineTransformation (Arr2 (affine_b S p1 px n_p))
            (Arr1 (affine_t S p1 px n_p)),
        sigma2 res = sigma2_new,
        q res = (tr_XP1X - 2 * tr_AB + tr_AB) / (2 * sigma2_new)
                + D%:R * n_p / 2 * np_log sigma2_new
      & q res = (tr_XP1X - tr_AB) / (2 * sigma2_new)
                + D%:R * n_p / 2 * np_log sigma2_new].
Proof.
move=> step tr_XP1X tr_AB sigma2_new.
rewrite /step affine_mstep_typed; case: ifP => _; split=> // res [<-] /=.
split=> //; congr (_ / _ + _).
by rewrite mulr_natl mulr2n opprD addrA subrK.
Qed.

(** ** The non-rigid maximization step *)

Section NonRigidTyped.

Variable R : realFieldType.

Lemma np_binop_cols_mismatch (f : R -> R -> R) (m1 n1 m2 n2 : nat)
    (A : 'M[R]_(m1, n1)) (B : 'M[R]_(m2, n2)) :
  bdim n1 n2 = None ->
  np_binop f (Arr2 A) (Arr2 B) = Raise (ValueError broadcast_msg).
Proof. by rewrite /np_binop /= => ->; case: (bdim m1 m2). Qed.

Lemma np_mul_cols_mismatch (m1 n1 m2 n2 : nat)
    (A : 'M[R]_(m1, n1)) (B : 'M[R]_(m2, n2)) :
  bdim n1 n2 = None ->
  np_mul (Arr2 A) (Arr2 B) = Raise (ValueError broadcast_msg).
Proof. exact: np_binop_cols_mismatch. Qed.

Lemma np_mul_22 (m n : nat) (A B : 'M[R]_(m, n)) :
  np_mul (Arr2 A) (Arr2 B) = Ok (Arr2 (map2_mx *%R A B)).
Proof. exact: np_binop_22. Qed.

Variables (N M D : nat).
Variables (S : 'M[R]_(N, D)) (X : 'M[R]_(M, D)).
Variables (pt1 : 'rV[R]_M) (p1 : 'rV[R]_N) (px : 'M[R]_(N, D)) (n_p : R).
Variables (g : 'M[R]_N) (lmd s2p : R).

(** [np.diag(1.0 / p1)] *)
Definition dp1_inv : 'M[R]_N := diag_mx (map_mx (fun x => 1 / x) p1).

(** [g + lmd * sigma2_p * dp1_inv] *)
Definition nonrigid_lhs : 'M[R]_N :=
  g + map_mx (fun x => lmd * s2p * x) dp1_inv.

(** When the number of points differs from the dimension and neither is 1,
    [dp1_inv * px] multiplies an N x N array by an N x D array entry by
    entry, which numpy refuses. *)
Lemma nonrigid_mstep_broadcast_error :
  N != D -> N != 1%N -> D != 1%N ->
  NonRigidCPD__maximization_step (Arr2 S) (Arr2 X)
    (typed_estep pt1 p1 px n_p) (Some s2p) (Some (Arr2 g)) lmd
  = Raise (ValueError broadcast_msg).
Proof.
move=> ND N1 D1.
rewrite /NonRigidCPD__maximization_step /typed_estep /shape_at /=.
rewrite np_add_22 bindE np_mul_cols_mismatch //.
exact: bdim_none.
Qed.

End NonRigidTyped.

Section NonRigidSquare.

Variable R : realFieldType.
Variables (N M : nat).
Variables (S : 'M[R]_(N, N)) (X : 'M[R]_(M, N)).
Variables (pt1 : 'rV[R]_M) (p1 : 'rV[R]_N) (px : 'M[R]_(N, N)) (n_p : R).
Variables (g : 'M[R]_N) (lmd s2p : R).

(** With as many points as dimensions, [dp1_inv * px] is the entrywise
    product of two N x N arrays. *)
Definition square_rhs : 'M[R]_N := map2_mx *%R (dp1_inv p1) px - S.

Definition square_w : 'M[R]_N :=
  invmx (nonrigid_lhs p1 g lmd s2p) *m square_rhs.

Definition square_t : 'M[R]_N := S + g *m square_w.

Definition square_residual : R :=
  \tr (X^T *m diag_mx pt1 *m X) - 2 * \tr (px^T *m square_t)
  + \tr (square_t^T *m diag_mx p1 *m square_t).

Definition square_sigma2 : R := square_residual / (n_p * N%:R).

Lemma nonrigid_mstep_square :
  NonRigidCPD__maximization_step (Arr2 S) (Arr2 X)
    (typed_estep pt1 p1 px n_p) (Some s2p) (Some (Arr2 g)) lmd =
  if nonrigid_lhs p1 g lmd s2p \in unitmx then
    Ok (mkMstepResult (NonRigidTransformation (Some (Arr2 g)) (Arr2 square_w))
          square_sigma2 square_sigma2)
  else Raise LinAlgError.
Proof.
rewrite /NonRigidCPD__maximization_step /typed_estep /shape_at /=.
rewrite np_add_22 bindE np_mul_22 bindE np_sub_22 bindE.
rewrite -/(dp1_inv p1) -/(nonrigid_lhs p1 g lmd s2p) -/square_rhs.
rewrite np_linalg_solve_22; case: ifP => // _; rewrite bindE -/square_w.
rewrite np_dot_22 bindE np_add_22 bindE -/square_t.
rewrite np_mul_21 bindE np_dot_22 bindE np_trace_sq bindE.
rewrite np_dot_22 bindE np_trace_sq bindE.
by rewrite np_mul_21 bindE np_dot_22 bindE np_trace_sq bindE.
Qed.

End NonRigidSquare.

(** ** The expectation step on well-shaped operands *)

Section EstepTyped.

Variable R : realFieldType.
Variable np_pi : R.
Variables np_sqrt np_exp : R -> R.
Variable np_power : R -> R -> R.

Variables (N M D : nat).
Variables (T : 'M[R]_(N, D)) (X : 'M[R]_(M, D)).
Variables (sigma2 w : R).

(** The quantities of the spec's algorithm (4.2), in its words. *)

(** 1. Bandwidth [h = sqrt(2 sigma2)]. *)
Definition estep_h : R := np_sqrt (2 * sigma2).

(** 2. Outlier-mixture constant [c = (2 pi sigma2)^(D/2) w/(1-w) N/M]. *)
Definition estep_c : R :=
  np_power (2 * np_pi * sigma2) (D%:R / 2) * (w / (1 - w)) * (N%:R / M%:R).

(** The Gaussian kernel between target point [m] and source point [n]. *)
Definition estep_kernel (m : 'I_M) (n : 'I_N) : R :=
  np_exp (- (\sum_(k < D) (X m k - T n k) ^+ 2) / estep_h ^+ 2).

(** 3. The kernel sums at the target points, zero entries clamped. *)
Definition estep_kt1 : 'rV[R]_M := \row_m \sum_n estep_kernel m n.

Definition estep_kt1_clamped : 'rV[R]_M :=
  \row_m zero_to_eps (estep_kt1 0 m).

(** 4. [a = 1 / (kt1 + c)] and [pt1 = 1 - c a]. *)
Definition estep_denominator : 'rV[R]_M :=
  \row_m (estep_kt1_clamped 0 m + estep_c).

Definition estep_a : 'rV[R]_M := \row_m (1 / estep_denominator 0 m).

Definition estep_pt1 : 'rV[R]_M := \row_m (1 - estep_c * estep_a 0 m).

(** 5. [p1]: the kernel sums at the source points, weighted by [a]. *)
Definition estep_p1 : 'rV[R]_N :=
  \row_n \sum_m estep_a 0 m * estep_kernel m n.

(** 6. [px]: the same sums with weights [a] times the target coordinates. *)
Definition estep_px : 'M[R]_(N, D) :=
  \matrix_(n, d) \sum_m (estep_a 0 m * X m d) * estep_kernel m n.

(** 7. [n_p = sum(p1)]. *)
Definition estep_n_p : R := \sum_n estep_p1 0 n.

Definition estep_spec : EstepResult R :=
  mkEstepResult (Arr1 estep_pt1) (Arr1 estep_p1) (Arr2 estep_px) estep_n_p.

Lemma sqdistE (m1 m2 : nat) (P : 'M[R]_(m1, D)) (Q : 'M[R]_(m2, D))
    (i : 'I_m1) (j : 'I_m2) :
  sqdist P i Q j = \sum_(k < D) (P i k - Q j k) ^+ 2.
Proof. by apply: eq_bigr => k _; rewrite !mgetE. Qed.

Lemma sqdist_sym (m1 m2 : nat) (P : 'M[R]_(m1, D)) (Q : 'M[R]_(m2, D))
    (i : 'I_m1) (j : 'I_m2) :
  sqdist P i Q j = sqdist Q j P i.
Proof.
by rewrite !sqdistE; apply: eq_bigr => k _; rewrite -sqrrN opprB.
Qed.

Lemma expectation_step_typed :
  w != 1 -> (0 < M)%N ->
  expectation_step np_pi np_sqrt np_exp np_power (Arr2 T) (Arr2 X) sigma2 w
  = Ok estep_spec.
Proof.
move=> w1 M0.
rewrite /expectation_step /shape_at /py_div /=.
rewrite subr_eq0 eq_sym (negPf w1) bindE pnatr_eq0 eqn0Ngt M0 /=.
have cE : np_power (2 * np_pi * sigma2) (D%:R / 2) * (w / (1 - w) * N%:R / M%:R)
          = estep_c by rewrite /estep_c -!mulrA.
rewrite cE (eqxx D) /= (eqxx M) /= np_mul_22 bindE /= ?eqxx /=.
have kt1E : \row_(i < M) \sum_(j < N)
      np_exp (- sqdist X i T j / np_sqrt (2 * sigma2) ^+ 2) = estep_kt1.
  apply/rowP => m; rewrite !mxE; apply: eq_bigr => n _.
  by rewrite sqdistE.
rewrite kt1E.
have aE : map_mx (fun x => 1 / x)
            (map_mx (fun x => x + estep_c) (map_mx (@zero_to_eps R) estep_kt1))
          = estep_a.
  by apply/rowP => m; rewrite !mxE.
rewrite aE.
have pt1E : map_mx (fun x => 1 - x) (map_mx (fun x => estep_c * x) estep_a)
            = estep_pt1.
  by apply/rowP => m; rewrite !mxE.
have p1E : \row_(i < N) \sum_(j < M) mget estep_a 0 j *
             np_exp (- sqdist T i X j / np_sqrt (2 * sigma2) ^+ 2) = estep_p1.
  apply/rowP => n; rewrite !mxE; apply: eq_bigr => m _.
  by rewrite mget0E sqdist_sym sqdistE.
have pxE : (\matrix_(r < D, i < N) \sum_(j < M)
              mget (map2_mx *%R (\matrix_(i < D, j < M) estep_a 0 j) X^T) r j *
              np_exp (- sqdist T i X j / np_sqrt (2 * sigma2) ^+ 2))^T
           = estep_px.
  apply/matrixP => n d; rewrite !mxE; apply: eq_bigr => m _.
  by rewrite mgetE !mxE sqdist_sym sqdistE.
by rewrite pt1E p1E pxE.
Qed.

End EstepTyped.

(** ** Examples run over the rationals

    The theorems hold for every real field and every choice of the numeric
    primitives.  Examples are run over the rationals, where the arithmetic
    of the module is exact, with rational stand-ins for the transcendental
    functions; each stand-in has the sign properties the theorems ask of the
    function it stands for. *)

Definition rat_pi : rat := 22%:R / 7%:R.
Definition rat_sqrt (x : rat) : rat := (1 + x) / 2.
Definition rat_log (x : rat) : rat := x - 1.
Definition rat_exp (x : rat) : rat := 1 / (1 + x ^+ 2).
Definition rat_power (x y : rat) : rat := 1 + x ^+ 2 * y ^+ 2.

Lemma rat_pi_gt0 : 0 < rat_pi.
Proof. by rewrite /rat_pi divr_gt0 // ltr0n. Qed.

Lemma rat_exp_ge0 (x : rat) : 0 <= rat_exp x.
Proof.
by rewrite /rat_exp divr_ge0 // addr_ge0 // sqr_ge0.
Qed.

Lemma rat_power_ge0 (x y : rat) : 0 < x -> 0 <= rat_power x y.
Proof.
by move=> _; rewrite /rat_power addr_ge0 // mulr_ge0 // sqr_ge0.
Qed.

(** ** The expectation step (C3) *)


Definition line_points : 'M[rat]_(2, 1) := \matrix_(i, j) (i : nat)%:R.


(** ** The clamp of the kernel sums (C7) *)

(** Binary floating-point formats: the non-negative numbers [m 2^e] with a
    significand [m] of [prec] bits and an exponent in the format's range.
    binary32 has 24 bits and exponents from -149 to 104, binary64 has 53 bits
    and exponents from -1074 to 971. *)
Definition float_format (R : realFieldType) (prec : nat) (emin emax : int)
    (x : R) : Prop :=
  exists (m : nat) (e : int),
    [/\ (m < 2 ^ prec)%N, (emin <= e)%R, (e <= emax)%R & x = m%:R * 2%:R ^ e].

Definition binary32 (R : realFieldType) : R -> Prop :=
  float_format 24 (- 149%:Z) 104%:Z.

Definition binary64 (R : realFieldType) : R -> Prop :=
  float_format 53 (- 1074%:Z) 971%:Z.

(** The claim as the spec words it: the value that replaces a zero entry is
    the smallest positive number of the format. *)
Definition smallest_positive (R : realFieldType) (fmt : R -> Prop) (x : R) :
    Prop :=
  [/\ fmt x, 0 < x & forall y, fmt y -> 0 < y -> x <= y].

Section EstepDenominator.

Variable R : realFieldType.
Variable np_pi : R.
Variables np_sqrt np_exp : R -> R.
Variable np_power : R -> R -> R.

Hypothesis np_pi_gt0 : 0 < np_pi.
Hypothesis np_power_ge0 : forall x y, 0 < x -> 0 <= np_power x y.
Hypothesis np_exp_ge0 : forall x, 0 <= np_exp x.

Variables (N M D : nat).
Variables (T : 'M[R]_(N, D)) (X : 'M[R]_(M, D)).
Variables (sigma2 w : R).

Hypothesis sigma2_gt0 : 0 < sigma2.
Hypothesis w_range : 0 <= w < 1.

Lemma finfo_float32_eps_gt0 : 0 < finfo_float32_eps R.
Proof. by rewrite /finfo_float32_eps invr_gt0 exprn_gt0 // ltr0n. Qed.

Lemma estep_c_ge0 : 0 <= estep_c np_pi np_power N M D sigma2 w.
Proof.
case/andP: w_range => w0 w1.
rewrite /estep_c !mulr_ge0 //.
- by rewrite np_power_ge0 // !mulr_gt0 // ltr0n.
- by rewrite invr_ge0 subr_ge0 ltW.
- by rewrite invr_ge0 ler0n.
Qed.

Lemma estep_kt1_ge0 (m : 'I_M) :
  0 <= estep_kt1 np_sqrt np_exp T X sigma2 0 m.
Proof.
by rewrite /estep_kt1 mxE; apply: sumr_ge0 => n _; exact: np_exp_ge0.
Qed.

Lemma estep_kt1_clamped_gt0 (m : 'I_M) :
  0 < estep_kt1_clamped np_sqrt np_exp T X sigma2 0 m.
Proof.
rewrite /estep_kt1_clamped mxE /zero_to_eps; case: eqP => [_|/eqP ne0].
  exact: finfo_float32_eps_gt0.
by rewrite lt_def ne0 estep_kt1_ge0.
Qed.

Lemma estep_denominator_gt0 (m : 'I_M) :
  0 < estep_denominator np_pi np_sqrt np_exp np_power T X sigma2 w 0 m.
Proof.
rewrite /estep_denominator mxE.
by rewrite ltr_wpDr ?estep_c_ge0 ?estep_kt1_clamped_gt0.
Qed.

End EstepDenominator.

(** C7, as amended.  In the expectation step every entry of the kernel-sum
    vector [kt1] that is exactly zero is replaced by the float32 machine
    epsilon [np.finfo(np.float32).eps = 2^-23], the other entries are kept,
    and [a = 1 / (kt1 + c)] is formed from the result; for [sigma2 > 0] and
    [w] in [0, 1), with the kernel sums non-negative, [c >= 0] and every
    denominator [kt1 + c] is strictly positive. *)
Theorem estep_denominator_positive (R : realFieldType) (np_pi : R)
    (np_sqrt np_exp : R -> R) (np_power : R -> R -> R)
    (N M D : nat) (T : 'M[R]_(N, D)) (X : 'M[R]_(M, D)) (sigma2 w : R) :
  0 < np_pi -> (forall x y, 0 < x -> 0 <= np_power x y) ->
  (forall x, 0 <= np_exp x) ->
  0 < sigma2 -> 0 <= w < 1 -> (0 < M)%N ->
  let kt1 := estep_kt1 np_sqrt np_exp T X sigma2 in
  let kt1' := estep_kt1_clamped np_sqrt np_exp T X sigma2 in
  let c := estep_c np_pi np_power N M D sigma2 w in
  let den := estep_denominator np_pi np_sqrt np_exp np_power T X sigma2 w in
  [/\ expectation_step np_pi np_sqrt np_exp np_power (Arr2 T) (Arr2 X)
        sigma2 w
      = Ok (estep_spec np_pi np_sqrt np_exp np_power T X sigma2 w),
      forall m, kt1' 0 m = if kt1 0 m == 0 then 2%:R ^- 23 else kt1 0 m,
      forall m, den 0 m = kt1' 0 m + c
             /\ estep_a np_pi np_sqrt np_exp np_power T X sigma2 w 0 m
                = 1 / den 0 m,
      0 <= c
    & forall m, 0 < den 0 m].
Proof.
move=> pi0 pow0 exp0 s0 wr M0 kt1 kt1' c den; split.
- apply: expectation_step_typed => //.
  by case/andP: wr => _; rewrite lt_neqAle => /andP[].
- by move=> m; rewrite /kt1' /estep_kt1_clamped mxE.
- by move=> m; rewrite /den /estep_a /estep_denominator !mxE.
- exact: estep_c_ge0.
- by move=> m; apply: estep_denominator_gt0.
Qed.

Lemma estep_denominator_positive_witness :
  let kt1 := estep_kt1 rat_sqrt rat_exp line_points line_points 1 in
  let kt1' := estep_kt1_clamped rat_sqrt rat_exp line_points line_points 1 in
  let c := estep_c rat_pi rat_power 2 2 1 1 (1 / 2%:R) in
  let den := estep_denominator rat_pi rat_sqrt rat_exp rat_power
               line_points line_points 1 (1 / 2%:R) in
  [/\ expectation_step rat_pi rat_sqrt rat_exp rat_power
        (Arr2 line_points) (Arr2 line_points) 1 (1 / 2%:R)
      = Ok (estep_spec rat_pi rat_sqrt rat_exp rat_power
              line_points line_points 1 (1 / 2%:R)),
      forall m, kt1' 0 m = if kt1 0 m == 0 then 2%:R ^- 23 else kt1 0 m,
      forall m, den 0 m = kt1' 0 m + c
             /\ estep_a rat_pi rat_sqrt rat_exp rat_power
                  line_points line_points 1 (1 / 2%:R) 0 m
                = 1 / den 0 m,
      0 <= c
    & forall m, 0 < den 0 m].
Proof.
apply: estep_denominator_positive.
- exact: rat_pi_gt0.
- exact: rat_power_ge0.
- exact: rat_exp_ge0.
- exact: ltr01.
- by rewrite divr_ge0 ?ler0n //= ltr_pdivrMr ?ltr0n // mul1r ltr1n.
- by [].
Defined.

Lemma inv_pow2_gt0 (R : realFieldType) (n : nat) : 0 < 2%:R ^- n :> R.
Proof. by rewrite invr_gt0 exprn_gt0 // ltr0n. Qed.

Lemma inv_pow2_lt (R : realFieldType) (n : nat) :
  2%:R ^- n.+1 < 2%:R ^- n :> R.
Proof.
rewrite ltf_pV2 ?posrE ?exprn_gt0 ?ltr0n //.
by rewrite ltr_eXn2l ?ltr1n.
Qed.

Lemma one_lt_pow2 (p : nat) : (1 < 2 ^ p.+1)%N.
Proof. by rewrite -[1%N]/(2 ^ 0)%N ltn_exp2l. Qed.

(** The value that replaces a zero entry is [2^-23]; the float [2^-24],
    which both binary32 and binary64 hold, is positive and smaller, so the
    replacement is not the smallest positive float of either format. *)
Lemma zero_clamp_is_not_smallest_float :
  [/\ zero_to_eps (0 : rat) = 2%:R ^- 23,
      binary32 (2%:R ^- 24 : rat),
      binary64 (2%:R ^- 24 : rat),
      (0 : rat) < 2%:R ^- 24
    & (2%:R ^- 24 : rat) < zero_to_eps 0].
Proof.
split.
- by rewrite /zero_to_eps eqxx.
- exists 1%N, (- 24%:Z); split.
  + exact: (one_lt_pow2 23).
  + by vm_compute.
  + by vm_compute.
  + by rewrite mul1r exprnN.
- exists 1%N, (- 24%:Z); split.
  + exact: (one_lt_pow2 52).
  + by vm_compute.
  + by vm_compute.
  + by rewrite mul1r exprnN.
- exact: (inv_pow2_gt0 rat 24).
- rewrite /zero_to_eps eqxx /finfo_float32_eps.
  exact: (inv_pow2_lt rat 23).
Qed.

(** ** The variance of a maximization step (C6) *)

Ltac mx_eval := repeat (rewrite ?mxE ?big_ord_recl ?big_ord0).

Lemma line_cross_cov00 :
  cross_cov line_points line_ones line_points 2 0 0 = 1 / 2%:R.
Proof.
rewrite /cross_cov /source_hat /mu_x /mu_y /line_points /line_ones.
by mx_eval; vm_compute.
Qed.

Lemma line_svd :
  svd_1x1 (Arr2 (cross_cov line_points line_ones line_points 2))
  = Ok (Arr2 (1%:M : 'M[rat]_1), Arr1 (`|1 / 2%:R|%:M : 'rV[rat]_1),
        Arr2 (1%:M : 'M[rat]_1)).
Proof.
rewrite /svd_1x1 /= (mgetE _ 0 0) line_cross_cov00.
by have -> : (1 / 2%:R < 0 :> rat) = false by vm_compute.
Qed.

Lemma line_rigid_sigma2 :
  rigid_sigma2 line_points line_points line_ones line_ones line_points 2
    1%:M 1%:M = 0.
Proof.
rewrite /rigid_sigma2 /rigid_scale /rigid_tr_atr /tr_yp1y /tr_xp1x.
rewrite /rigid_rot !mul1mx !mulmx1 det1 /mxtrace /mx_yp1y /cross_cov.
rewrite /target_hat /source_hat /mu_x /mu_y /line_points /line_ones.
by rewrite /ones_with_last; mx_eval; vm_compute.
Qed.

(** Two points on a line matched to themselves: the fit is exact and the
    rigid step returns the variance 0. *)
Lemma rigid_sigma2_not_positive :
  exists res,
    [/\ RigidCPD__maximization_step rat_log (@svd_1x1 _)
          (Arr2 line_points) (Arr2 line_points)
          (typed_estep line_ones line_ones line_points 2) None = Ok res,
        sigma2 res = 0
      & (0 < sigma2 res) = false].
Proof.
eexists; split.
- exact: (rigid_mstep_typed rat_log line_points line_ones None _ line_svd).
- exact: line_rigid_sigma2.
- by rewrite /= line_rigid_sigma2 ltxx.
Qed.

Lemma pos_quotient (R : realFieldType) (r n_p : R) (D : nat) :
  0 < n_p -> (0 < D)%N -> (0 < r / (n_p * D%:R)) = (0 < r).
Proof.
by move=> n0 D0; rewrite pmulr_lgt0 // invr_gt0 mulr_gt0 // ltr0n.
Qed.

(** The amended statement of C6 is proved at the end of the development,
    after the non-rigid step has been followed on every shape on which it
    returns. *)

Definition unit_mx1 : 'M[rat]_1 := 1%:M.
Definition unit_row1 : 'rV[rat]_1 := const_mx 1.


(** ** The linear system of the non-rigid step (C2) *)

(** C2, at the failing input.  For three points in the plane, the right-hand
    side [dp1_inv * px - source] cannot be formed: [dp1_inv * px] multiplies
    a 3 x 3 array and a 3 x 2 array entry by entry, where the linear system
    of the claim needs their matrix product, and the step raises
    [ValueError] instead of returning NonRigid(G, W). *)
Theorem nonrigid_mstep_three_planar_points (R : realFieldType) (M : nat)
    (S : 'M[R]_(3, 2)) (X : 'M[R]_(M, 2)) (pt1 : 'rV[R]_M) (p1 : 'rV[R]_3)
    (px : 'M[R]_(3, 2)) (n_p : R) (g : 'M[R]_3) (lmd sigma2_prev : R) :
  NonRigidCPD__maximization_step (Arr2 S) (Arr2 X)
    (typed_estep pt1 p1 px n_p) (Some sigma2_prev) (Some (Arr2 g)) lmd
  = Raise (ValueError broadcast_msg).
Proof. exact: nonrigid_mstep_broadcast_error. Qed.

(** With as many points as dimensions the step returns, and its [W] solves
    the system whose right-hand side is the entrywise product
    [dp1_inv * px] minus the source: row [i] of that product keeps only
    [px i i / p1 i], on the diagonal. *)
Lemma nonrigid_square_rhs (R : realFieldType) (N : nat)
    (S : 'M[R]_(N, N)) (p1 : 'rV[R]_N) (px : 'M[R]_(N, N)) (i j : 'I_N) :
  square_rhs S p1 px i j
  = (if i == j then 1 / p1 0 i * px i j else 0) - S i j.
Proof.
rewrite /square_rhs /dp1_inv !mxE; congr (_ - _).
by case: (i == j); rewrite ?mulr1n ?mulr0n ?mul0r.
Qed.

Lemma nonrigid_square_solution (R : realFieldType) (N : nat)
    (S : 'M[R]_(N, N)) (p1 : 'rV[R]_N) (px : 'M[R]_(N, N))
    (g : 'M[R]_N) (lmd s2p : R) :
  nonrigid_lhs p1 g lmd s2p \in unitmx ->
  nonrigid_lhs p1 g lmd s2p *m square_w S p1 px g lmd s2p
  = square_rhs S p1 px.
Proof. by move=> u; rewrite /square_w mulKVmx. Qed.

(** ** The previous variance (C9) *)

Section PreviousVariance.

Variable R : realFieldType.

(** One point on a line. *)
Definition one_zero : 'M[R]_1 := 0.
Definition one_one : 'M[R]_1 := 1%:M.
Definition one_row : 'rV[R]_1 := const_mx 1.

Definition one_step (s : R) : result (MstepResult R) :=
  NonRigidCPD__maximization_step (Arr2 one_zero) (Arr2 one_zero)
    (typed_estep one_row one_row one_one 1) (Some s) (Some (Arr2 one_one)) 1.

(** The first displacement coefficient of a result. *)
Definition first_coefficient (r : result (MstepResult R)) : R :=
  if r is Ok res then
    if mstep_transformation res is NonRigidTransformation _ w then at2 w 0 0
    else 0
  else 0.

Lemma unitmx11 (A : 'M[R]_1) : (A \in unitmx) = (A 0 0 != 0).
Proof. by rewrite unitmxE det_mx11 unitfE. Qed.

Lemma one_lhs00 (s : R) : nonrigid_lhs one_row one_one 1 s 0 0 = 1 + s.
Proof.
rewrite /nonrigid_lhs /dp1_inv /one_one /one_row !mxE eqxx !mulr1n.
by rewrite divr1 mulr1 mul1r.
Qed.

Lemma one_rhs00 : square_rhs one_zero one_row one_one 0 0 = 1.
Proof.
rewrite nonrigid_square_rhs eqxx /one_one /one_row /one_zero !mxE eqxx.
by rewrite mulr1n divr1 mulr1 subr0.
Qed.

Lemma one_step_coefficient (s : R) :
  0 <= s -> first_coefficient (one_step s) = (1 + s)^-1.
Proof.
move=> s0; have ne0 : 1 + s != 0 by rewrite gt_eqF // ltr_wpDr.
have u : nonrigid_lhs one_row one_one 1 s \in unitmx.
  by rewrite unitmx11 one_lhs00.
rewrite /one_step nonrigid_mstep_square u /= (mgetE _ 0 0).
have := nonrigid_square_solution one_zero one_one u.
move/matrixP/(_ 0 0); rewrite mxE big_ord1 one_lhs00 one_rhs00 => e.
by rewrite -[LHS](mulKf ne0) e mulr1.
Qed.

End PreviousVariance.

(** C9.  The rigid and the affine maximization steps do not depend on the
    previous variance: for every source, target and [EstepResult] and any
    two values of [sigma2_p] each returns the same result.  The non-rigid
    step does depend on it: for one point on a line it returns different
    displacement coefficients for the previous variances 1 and 3. *)
Theorem previous_variance_only_in_nonrigid (R : realFieldType)
    (np_log : R -> R)
    (np_linalg_svd : ndarray R -> result (ndarray R * ndarray R * ndarray R)) :
  [/\ forall source target estep_res (s1 s2 : option R),
        RigidCPD__maximization_step np_log np_linalg_svd source target
          estep_res s1
        = RigidCPD__maximization_step np_log np_linalg_svd source target
            estep_res s2,
      forall source target estep_res (s1 s2 : option R),
        AffineCPD__maximization_step np_log source target estep_res s1
        = AffineCPD__maximization_step np_log source target estep_res s2
    & exists source target estep_res g lmd,
        NonRigidCPD__maximization_step source target estep_res (Some 1) g lmd
        <> NonRigidCPD__maximization_step (R := R) source target estep_res
             (Some 3%:R) g lmd].
Proof.
split=> //.
exists (Arr2 (one_zero R)), (Arr2 (one_zero R)),
       (typed_estep (one_row R) (one_row R) (one_one R) 1),
       (Some (Arr2 (one_one R))), 1.
move/(congr1 (@first_coefficient R)).
rewrite -!/(one_step _) !one_step_coefficient ?ler01 ?ler0n //.
move/invr_inj/addrI/eqP.
by rewrite -[1]/(1%:R) eqr_nat.
Qed.

(** ** The registration loop (C4) *)

Section Driver.

Variable R : realFieldType.
Variable np_pi : R.
Variables np_sqrt np_log np_exp : R -> R.
Variable np_power : R -> R -> R.
Variable np_linalg_svd : ndarray R -> result (ndarray R * ndarray R * ndarray R).
Variable tf_transform : transformation R -> ndarray R -> result (ndarray R).
Variable msn_all_combination : ndarray R -> ndarray R -> result R.

(** The convergence test [abs(res.q - q) < tol] on a result and the objective
    it is compared with. *)
Definition met (tol : R) (p : R * MstepResult R) : bool :=
  `|q p.2 - p.1| < tol.

(** Each result of a run with the objective it was compared with: the
    first with the initial objective, the others with their predecessor's. *)
Fixpoint compared (q0 : R) (tr : seq (MstepResult R)) :
    seq (R * MstepResult R) :=
  if tr is r :: tr' then (q0, r) :: compared (q r) tr' else [::].

Lemma size_compared (q0 : R) (tr : seq (MstepResult R)) :
  size (compared q0 tr) = size tr.
Proof. by elim: tr q0 => [|r tr IH] q0 //=; rewrite IH. Qed.

Lemma last_compared (d d' : R * MstepResult R) (q0 : R)
    (tr : seq (MstepResult R)) :
  (0 < size tr)%N -> last d (compared q0 tr) = last d' (compared q0 tr).
Proof. by case: tr. Qed.

Variables (self : cpd R) (target : ndarray R) (w tol : R).

Let em := em_iteration np_pi np_sqrt np_log np_exp np_power np_linalg_svd
            tf_transform self target w.
Let loop := registration_loop np_pi np_sqrt np_log np_exp np_power
              np_linalg_svd tf_transform self target w tol.
Let loop_trace := registration_loop_trace np_pi np_sqrt np_log np_exp
                    np_power np_linalg_svd tf_transform self target w tol.

Lemma registration_loop_trace_spec (n : nat) (res : MstepResult R) (q0 : R) :
  let: (k, tr, out) := loop_trace n res q0 in
  [/\ (k <= n)%N,
      out = loop n res q0,
      all (fun p => ~~ met tol p) (take (size tr).-1 (compared q0 tr)),
      forall r, out = Ok r ->
        [/\ size tr = k, r = last res tr
          & (k < n)%N ->
            (0 < k)%N /\ met tol (last (q0, res) (compared q0 tr))]
    & forall e, out = Raise e ->
        k = (size tr).+1 /\ em (last res tr) = Raise e].
Proof.
rewrite /loop_trace /loop.
elim: n res q0 => [|n IH] res q0 /=.
  by split=> // r [<-]; split.
rewrite -/em; case E: em => [res'|e] /=; last first.
  by split=> // e' [<-].
case: ifP => conv.
  split=> // r [<-]; split=> // _; split=> //.
move: (IH res' (q res')).
case: (registration_loop_trace _ _ _ _ _ _ _ _ _ _ _ _ _ _) => [[k tr] out].
move=> [kn outE notmet okP errP]; split=> //.
- case: tr notmet {okP errP} => [|r tr] //= notmet.
  by rewrite /met /= conv.
- move=> r /okP [sz rE last_met]; split=> //; first by rewrite /= sz.
  rewrite ltnS => /last_met [k0 m]; split=> //=.
  by rewrite (last_compared _ (q res', res')) // sz.
- by move=> e /errP [-> emE].
Qed.

End Driver.

(** C4.  The registration driver is a total function: it always ends, with
    a result or with the exception of the initializer or of an iteration.
    It starts at most [max_iteration] iterations (none for a negative
    count), the result it returns is the last one computed, no iteration
    before the last met the test [|q_new - q_old| < tol], and a run that
    returns before the budget is spent ended on an iteration that met it;
    a run that spends the budget returns its last result, so the cap is no
    error.  With [max_iteration = 0] it returns the initializer's result
    and starts no iteration; for the rigid variant on N x D and M x D point
    sets that is the identity rotation, the zero translation and the unit
    scale, with [sigma2_0] and [q_0 = 1 + M D / 2 log(sigma2_0)]. *)
Theorem registration_terminates_within_budget (R : realFieldType)
    (np_pi : R) (np_sqrt np_log np_exp : R -> R) (np_power : R -> R -> R)
    (np_linalg_svd : ndarray R -> result (ndarray R * ndarray R * ndarray R))
    (tf_transform : transformation R -> ndarray R -> result (ndarray R))
    (msn_all_combination : ndarray R -> ndarray R -> result R)
    (self : cpd R) (target : ndarray R) (w : R) (max_iteration : int)
    (tol : R) :
  let run := registration np_pi np_sqrt np_log np_exp np_power np_linalg_svd
               tf_transform msn_all_combination in
  let init := _initialize np_log msn_all_combination in
  let: (k, tr, out) :=
    registration_trace np_pi np_sqrt np_log np_exp np_power np_linalg_svd
      tf_transform msn_all_combination self target w max_iteration tol in
  [/\ out = run self target w max_iteration tol
      /\ (size tr <= k <= range_len max_iteration)%N,
      forall res0, init self target = Ok res0 ->
        [/\ all (fun p => ~~ met tol p)
              (take (size tr).-1 (compared (q res0) tr)),
            forall r, out = Ok r ->
              [/\ size tr = k, r = last res0 tr
                & (k < range_len max_iteration)%N ->
                  (0 < k)%N
                  /\ met tol (last (q res0, res0) (compared (q res0) tr))]
          & forall e, out = Raise e ->
              k = (size tr).+1
              /\ em_iteration np_pi np_sqrt np_log np_exp np_power
                   np_linalg_svd tf_transform self target w (last res0 tr)
                 = Raise e],
      forall e, init self target = Raise e -> k = 0%N /\ out = Raise e,
      range_len max_iteration = 0%N ->
        k = 0%N /\ run self target w max_iteration tol = init self target
    & forall (N M D : nat) (S : 'M[R]_(N, D)) (X : 'M[R]_(M, D)) (s0 : R),
        msn_all_combination (Arr2 S) (Arr2 X) = Ok s0 ->
        run (RigidCPD (Some (Arr2 S))) (Arr2 X) w 0 tol
        = Ok (mkMstepResult
                (RigidTransformation (np_identity D) (np_zeros D) 1)
                s0 (1 + M%:R * D%:R / 2 * np_log s0))].
Proof.
move=> run init; rewrite /registration_trace /run /registration -/init.
case initE: (init self target) => [res0|e0] /=.
  have := registration_loop_trace_spec np_pi np_sqrt np_log np_exp np_power
    np_linalg_svd tf_transform self target w tol (range_len max_iteration)
    res0 (q res0).
  case: (registration_loop_trace _ _ _ _ _ _ _ _ _ _ _ _ _ _) => [[k tr] out].
  move=> [kn outE notmet okP errP]; split=> //.
  - split=> //; rewrite kn andbT.
    case: out {outE} okP errP => [r|e] okP errP.
      by have [-> _ _] := okP r erefl.
    by have [-> _] := errP e erefl.
  - by move=> res [<-].
  - by move=> n0; move: kn; rewrite n0 leqn0 => /eqP ->.
  - move=> N M D S X s0 msnE.
    by rewrite /_initialize /RigidCPD /RigidCPD_initialize /shape_at /= msnE.
split=> // N M D S X s0 msnE.
by rewrite /_initialize /RigidCPD /RigidCPD_initialize /shape_at /= msnE.
Qed.

(** ** The entry point (C8) *)

Definition recognized (tf_type_name : string) : bool :=
  has (String.eqb tf_type_name)
      [:: "rigid"%string; "affine"%string; "nonrigid"%string].

(** Stand-ins for the collaborators in the examples: a transformation that
    leaves the points where they are, a unit initial variance, and the
    identity as kernel matrix of an N x D source. *)
Definition still_transform (t : transformation rat) (points : ndarray rat) :
    result (ndarray rat) := Ok points.

Definition unit_msn (a b : ndarray rat) : result rat := Ok 1.

Definition identity_kernel (a : ndarray rat) (beta : rat) :
    result (ndarray rat) :=
  if a is Arr2 n _ _ then Ok (np_identity n)
  else Raise (LibraryError "gaussian_kernel"%string).

(** A source given as a flat array of three numbers is not a 2-dimensional
    point set; the entry point does not answer it with the invalid-argument
    error: the initializer fails on [source.shape[1]] with [IndexError]. *)
Lemma registration_cpd_flat_source :
  registration_cpd rat_pi rat_sqrt rat_log rat_exp rat_power (@svd_1x1 _)
    still_transform unit_msn identity_kernel
    (Arr1 (const_mx 1 : 'rV[rat]_3)) (Arr2 line_points) "rigid"%string
    0 100 (1 / 1000%:R) [::]
  = Raise IndexError.
Proof. by []. Qed.

(** C8, as amended.  The entry point itself raises the invalid-argument
    error, before it constructs or runs anything, exactly for a variant name
    other than 'rigid', 'affine' and 'nonrigid', whatever the point sets.
    For a recognized name it checks no shape: it constructs the variant and
    returns what its registration returns.  A source of fewer than two
    dimensions then fails in the initializer with [IndexError], and that
    transformed source and target have two dimensions is asserted by the
    expectation step only, inside the first iteration. *)
Theorem registration_cpd_dispatch (R : realFieldType)
    (np_pi : R) (np_sqrt np_log np_exp : R -> R) (np_power : R -> R -> R)
    (np_linalg_svd : ndarray R -> result (ndarray R * ndarray R * ndarray R))
    (tf_transform : transformation R -> ndarray R -> result (ndarray R))
    (msn_all_combination : ndarray R -> ndarray R -> result R)
    (gaussian_kernel : ndarray R -> R -> result (ndarray R))
    (source target : ndarray R) (tf_type_name : string) (w : R)
    (max_iteration : int) (tol : R) (kargs : kwargs R) :
  let entry := registration_cpd np_pi np_sqrt np_log np_exp np_power
                 np_linalg_svd tf_transform msn_all_combination
                 gaussian_kernel in
  let run := registration np_pi np_sqrt np_log np_exp np_power np_linalg_svd
               tf_transform msn_all_combination in
  [/\ recognized tf_type_name = false ->
        entry source target tf_type_name w max_iteration tol kargs
        = Raise (ValueError (unknown_type_msg tf_type_name)),
      [/\ entry source target "rigid"%string w max_iteration tol [::]
          = run (RigidCPD (Some source)) target w max_iteration tol,
          entry source target "affine"%string w max_iteration tol [::]
          = run (AffineCPD (Some source)) target w max_iteration tol
        & entry source target "nonrigid"%string w max_iteration tol [::]
          = (obj <- NonRigidCPD gaussian_kernel (Some source) 2 2 ;;
             run obj target w max_iteration tol)],
      (ndim source < 2)%N ->
        entry source target "rigid"%string w max_iteration tol [::]
          = Raise IndexError
        /\ entry source target "affine"%string w max_iteration tol [::]
          = Raise IndexError
    & forall t_source sigma2_,
        (ndim t_source != 2%N) || (ndim target != 2%N) ->
        expectation_step np_pi np_sqrt np_exp np_power t_source target
          sigma2_ w
        = Raise (AssertionError ndim_msg)].
Proof.
move=> entry run; split.
- rewrite /recognized /= orbF => /norP [/negPf e1 /norP [/negPf e2 /negPf e3]].
  by rewrite /entry /registration_cpd e1 e2 e3.
- by [].
- by case: source => [x|n v|m n A].
- move=> t_source sigma2_; rewrite -negb_and /expectation_step.
  by move=> ->.
Qed.

(** For a recognized variant and valid point sets the entry point can still
    end in a [ValueError]: with three points in the plane the first
    non-rigid maximization step raises it (see C2), whatever the target. *)
Lemma registration_cpd_nonrigid_planar (R : realFieldType)
    (np_pi : R) (np_sqrt np_log np_exp : R -> R) (np_power : R -> R -> R)
    (np_linalg_svd : ndarray R -> result (ndarray R * ndarray R * ndarray R))
    (tf_transform : transformation R -> ndarray R -> result (ndarray R))
    (msn_all_combination : ndarray R -> ndarray R -> result R)
    (gaussian_kernel : ndarray R -> R -> result (ndarray R))
    (M : nat) (S T : 'M[R]_(3, 2)) (X : 'M[R]_(M, 2)) (G : 'M[R]_3)
    (s0 w tol : R) (n : nat) :
  (0 < M)%N -> w != 1 ->
  gaussian_kernel (Arr2 S) 2 = Ok (Arr2 G) ->
  msn_all_combination (Arr2 S) (Arr2 X) = Ok s0 ->
  tf_transform (NonRigidTransformation (Some (Arr2 G)) (np_zeros 3)) (Arr2 S)
    = Ok (Arr2 T) ->
  registration_cpd np_pi np_sqrt np_log np_exp np_power np_linalg_svd
    tf_transform msn_all_combination gaussian_kernel
    (Arr2 S) (Arr2 X) "nonrigid"%string w (Posz n.+1) tol [::]
  = Raise (ValueError broadcast_msg).
Proof.
move=> M0 w1 gkE msnE tfE.
rewrite /registration_cpd /= /NonRigidCPD_kw /= gkE bindE.
rewrite /registration /= /NonRigidCPD_initialize /shape_at /= msnE /=.
by rewrite /em_iteration /= tfE bindE expectation_step_typed.
Qed.

Definition planar_source : 'M[rat]_(3, 2) :=
  \matrix_(i, j) ((i : nat) == (j : nat).+1)%:R.

Lemma registration_cpd_nonrigid_example :
  registration_cpd rat_pi rat_sqrt rat_log rat_exp rat_power (@svd_1x1 _)
    still_transform unit_msn identity_kernel
    (Arr2 planar_source) (Arr2 planar_source) "nonrigid"%string
    0 100 (1 / 1000%:R) [::]
  = Raise (ValueError broadcast_msg).
Proof.
by apply: (@registration_cpd_nonrigid_planar _ _ _ _ _ _ _ _ _ _ _ _
          planar_source _ 1%:M 1 _ _ 99).
Qed.

(** ** The kernel matrix of the non-rigid variant (C10) *)

Section KernelMatrix.

Variable R : realFieldType.
Variable np_log : R -> R.
Variable np_linalg_svd : ndarray R -> result (ndarray R * ndarray R * ndarray R).
Variable msn_all_combination : ndarray R -> ndarray R -> result R.
Variable gaussian_kernel : ndarray R -> R -> result (ndarray R).


Definition is_nonrigid (self : cpd R) : bool :=
  if self is NonRigidObj _ _ _ _ then true else false.

(** Successive calls of [set_source], up to the first that raises. *)
Fixpoint set_sources (self : cpd R) (sources : seq (ndarray R)) :
    cpd R * result unit :=
  if sources is s :: rest then
    match set_source gaussian_kernel self s with
    | (self', Ok _) => set_sources self' rest
    | (self', Raise e) => (self', Raise e)
    end
  else (self, Ok tt).



End KernelMatrix.


(** When the helper raises inside [set_source], the call raises too, after
    the new source was stored. *)
Lemma set_source_raises (R : realFieldType)
    (gaussian_kernel : ndarray R -> R -> result (ndarray R))
    (old_source : option (ndarray R)) (beta lmd : R)
    (old_g : option (ndarray R)) (source : ndarray R) (e : exn) :
  gaussian_kernel source beta = Raise e ->
  set_source gaussian_kernel (NonRigidObj old_source beta lmd old_g) source
  = (NonRigidObj (Some source) beta lmd old_g, Raise e).
Proof. by move=> /= ->. Qed.

(** The stand-in kernel on the planar source, then on the line. *)
Lemma nonrigid_kernel_example :
  exists self,
    NonRigidCPD identity_kernel (Some (Arr2 planar_source)) 2 2 = Ok self
    /\ set_sources identity_kernel self [:: Arr2 line_points]
       = (NonRigidObj (Some (Arr2 line_points)) 2 2 (Some (np_identity 2)),
          Ok tt).
Proof. by eexists; split; first by reflexivity. Qed.

(** ** Runs of the code on examples *)

(** The affine step returns on the two points of the line. *)
Lemma affine_step_example :
  is_ok (AffineCPD__maximization_step rat_log
           (Arr2 line_points) (Arr2 line_points)
           (typed_estep line_ones line_ones line_points 2) None).
Proof.
rewrite affine_mstep_typed.
have -> // : (mx_yp1y line_points line_ones 2)^T \in unitmx.
rewrite unitmx11 /mx_yp1y /source_hat /mu_y /line_points /line_ones.
by mx_eval; vm_compute.
Qed.

Lemma maximization_step_rigid (R : realFieldType) (np_log : R -> R)
    (np_linalg_svd : ndarray R -> result (ndarray R * ndarray R * ndarray R))
    (source target : ndarray R) (estep_res : EstepResult R)
    (sigma2_p : option R) :
  maximization_step np_log np_linalg_svd (RigidObj (Some source)) target
    estep_res sigma2_p
  = RigidCPD__maximization_step np_log np_linalg_svd source target estep_res
      sigma2_p.
Proof. by []. Qed.

Lemma svd_1x1E (R : realFieldType) (A : 'M[R]_1) :
  svd_1x1 (Arr2 A)
  = Ok (Arr2 ((if mget A 0 0 < 0 then -1 else 1)%:M : 'M[R]_1),
        Arr1 (`|mget A 0 0|%:M : 'rV[R]_1), Arr2 (1%:M : 'M[R]_1)).
Proof. by []. Qed.

(** Points on a line under the rigid variant, with a target of at least one
    point, the stand-in collaborators and a tolerance of 0, which no
    iteration meets: every iteration returns, the loop spends its budget of
    [n] iterations and returns a result. *)
Lemma rigid_line_iteration (N M : nat) (S : 'M[rat]_(N, 1))
    (X : 'M[rat]_(M, 1)) (w : rat) (res : MstepResult rat) :
  (0 < M)%N -> w != 1 ->
  is_ok (em_iteration rat_pi rat_sqrt rat_log rat_exp rat_power (@svd_1x1 _)
           still_transform (RigidCPD (Some (Arr2 S))) (Arr2 X) w res).
Proof.
move=> M0 w1.
rewrite /em_iteration /= expectation_step_typed // bindE.
rewrite maximization_step_rigid /estep_spec -/(typed_estep _ _ _ _).
by rewrite (rigid_mstep_typed rat_log X _ _ _ (svd_1x1E _)).
Qed.

Lemma rigid_line_loop_spends_budget (N M : nat) (S : 'M[rat]_(N, 1))
    (X : 'M[rat]_(M, 1)) (w : rat) (n : nat) (res : MstepResult rat)
    (q0 : rat) :
  (0 < M)%N -> w != 1 ->
  let: (k, tr, out) :=
    registration_loop_trace rat_pi rat_sqrt rat_log rat_exp rat_power
      (@svd_1x1 _) still_transform (RigidCPD (Some (Arr2 S))) (Arr2 X) w 0
      n res q0 in
  [/\ k = n, size tr = n & is_ok out].
Proof.
move=> M0 w1; elim: n res q0 => [|n IH] res q0 //=.
have := rigid_line_iteration S X res M0 w1.
case: (em_iteration _ _ _ _ _ _ _ _ _ _ _) => [res'|] //= _.
rewrite real_ltNge ?num_real // normr_ge0 /=.
move: (IH res' (q res')).
case: (registration_loop_trace _ _ _ _ _ _ _ _ _ _ _ _ _ _) => [[k tr] out].
by move=> [-> sz ok]; split=> //=; rewrite sz.
Qed.

Lemma rigid_line_run_spends_budget (N M : nat) (S : 'M[rat]_(N, 1))
    (X : 'M[rat]_(M, 1)) (w : rat) (n : nat) :
  (0 < M)%N -> w != 1 ->
  let: (k, tr, out) :=
    registration_trace rat_pi rat_sqrt rat_log rat_exp rat_power
      (@svd_1x1 _) still_transform unit_msn
      (RigidCPD (Some (Arr2 S))) (Arr2 X) w (Posz n) 0 in
  [/\ k = n, size tr = n & is_ok out].
Proof.
move=> M0 w1; rewrite /registration_trace /= /RigidCPD_initialize /shape_at /=.
exact: rigid_line_loop_spends_budget.
Qed.

(** ** The rotation of the rigid variant across a run (C1) *)

Section RigidRun.

Variable R : realFieldType.
Variable np_pi : R.
Variables np_sqrt np_log np_exp : R -> R.
Variable np_power : R -> R -> R.
Variable np_linalg_svd : ndarray R -> result (ndarray R * ndarray R * ndarray R).
Variable tf_transform : transformation R -> ndarray R -> result (ndarray R).
Variable msn_all_combination : ndarray R -> ndarray R -> result R.

Definition has_proper_rotation (res : MstepResult R) : Prop :=
  exists2 r, rotation_of (mstep_transformation res) = Some r
           & proper_rotation r.

Fixpoint every (T : Type) (P : T -> Prop) (s : seq T) : Prop :=
  if s is x :: s' then P x /\ every P s' else True.

Lemma sg_unit_square (d : R) : d * d = 1 -> Num.sg d = d.
Proof.
move/eqP; rewrite -expr2 sqrf_eq1 => /orP [] /eqP ->.
  exact: sgr1.
by rewrite sgrN sgr1.
Qed.

Hypothesis svdP : svd_contract np_linalg_svd.

Variables (N M D : nat) (S : 'M[R]_(N, D)) (X : 'M[R]_(M, D)).

Hypothesis D_gt0 : (0 < D)%N.

Lemma rigid_step_cases (pt1 : 'rV[R]_M) (p1 : 'rV[R]_N) (px : 'M[R]_(N, D))
    (n_p : R) (sigma2_p : option R) :
  let step := RigidCPD__maximization_step np_log np_linalg_svd
                (Arr2 S) (Arr2 X) (typed_estep pt1 p1 px n_p) sigma2_p in
  match np_linalg_svd (Arr2 (cross_cov S p1 px n_p)) with
  | Raise e => step = Raise e
  | Ok _ =>
      exists U Vh : 'M[R]_D,
        [/\ U *m U^T = 1%:M, Vh *m Vh^T = 1%:M
          & step = Ok (mkMstepResult
                         (RigidTransformation (Arr2 (rigid_rot U Vh))
                            (Arr1 (rigid_t S p1 px n_p U Vh))
                            (rigid_scale S p1 px n_p U Vh))
                         (rigid_sigma2 S X pt1 p1 px n_p U Vh)
                         (rigid_q np_log S X pt1 p1 px n_p U Vh))]
  end.
Proof.
move=> step.
case svdE: (np_linalg_svd _) => [[[u s] vh]|e]; last first.
  rewrite /step /RigidCPD__maximization_step /typed_estep /shape_at /=.
  rewrite np_dot_21 bindE trmxK np_sub_21 bindE np_sub_21 bindE.
  rewrite np_dot_22 bindE np_dot_12 bindE np_outer_11 np_sub_22 bindE.
  by rewrite -/(mu_x px n_p) -/(mu_y S p1 n_p) -/(source_hat S p1 n_p)
             -/(cross_cov S p1 px n_p) svdE.
have [U [sv [Vh [[eu es evh] [UU VV _]]]]] := svdP svdE.
exists U, Vh; split=> //; rewrite eu evh in svdE.
by rewrite /step (rigid_mstep_typed np_log X pt1 sigma2_p D_gt0 svdE).
Qed.

Lemma rigid_rot_proper (U Vh : 'M[R]_D) :
  U *m U^T = 1%:M -> Vh *m Vh^T = 1%:M ->
  proper_rotation (Arr2 (rigid_rot U Vh)).
Proof.
move=> UU VV; exists D, (rigid_rot U Vh); split=> //.
  exact: rigid_rot_orthogonal.
exact: rigid_rot_det.
Qed.

Lemma rigid_step_proper (pt1 : 'rV[R]_M) (p1 : 'rV[R]_N) (px : 'M[R]_(N, D))
    (n_p : R) (sigma2_p : option R) (res : MstepResult R) :
  RigidCPD__maximization_step np_log np_linalg_svd (Arr2 S) (Arr2 X)
    (typed_estep pt1 p1 px n_p) sigma2_p = Ok res ->
  has_proper_rotation res.
Proof.
have := rigid_step_cases pt1 p1 px n_p sigma2_p.
case: (np_linalg_svd _) => [_ [U [Vh [UU VV ->]]] [<-]|e -> //].
by exists (Arr2 (rigid_rot U Vh)) => //; apply: rigid_rot_proper.
Qed.

(** An expectation step that returns was given a transformed source of the
    target's dimensionality. *)
Lemma expectation_step_returns (t_source : ndarray R) (sigma2_ w : R)
    (e : EstepResult R) :
  expectation_step np_pi np_sqrt np_exp np_power t_source (Arr2 X) sigma2_ w
    = Ok e ->
  exists (N' : nat) (T : 'M[R]_(N', D)),
    t_source = Arr2 T
    /\ e = estep_spec np_pi np_sqrt np_exp np_power T X sigma2_ w.
Proof.
case: t_source => [x|n v|N' D' T] //.
have unfold_step := (subr_eq0, pnatr_eq0).
case w1: (w == 1).
  rewrite /expectation_step /shape_at /py_div /= !unfold_step eq_sym.
  by rewrite w1.
case M0: (M == 0)%N.
  rewrite /expectation_step /shape_at /py_div /= !unfold_step eq_sym.
  by rewrite w1 M0.
case: (D' =P D) => [eD|/eqP neD]; last first.
  rewrite /expectation_step /shape_at /py_div /= !unfold_step eq_sym.
  by rewrite w1 M0 /= (negPf neD).
move: T; rewrite eD => T.
rewrite expectation_step_typed ?w1 ?lt0n ?M0 // => -[<-].
by exists N', T.
Qed.

(** A rigid step that returns was given statistics of as many source points
    as the source has. *)
Lemma rigid_step_returns (N' : nat) (pt1 : 'rV[R]_M) (p1 : 'rV[R]_N')
    (px : 'M[R]_(N', D)) (n_p : R) (sigma2_p : option R)
    (res : MstepResult R) :
  RigidCPD__maximization_step np_log np_linalg_svd (Arr2 S) (Arr2 X)
    (typed_estep pt1 p1 px n_p) sigma2_p = Ok res ->
  has_proper_rotation res.
Proof.
case: (N' =P N) => [eN|/eqP neN].
  by move: p1 px; rewrite eN => p1 px; apply: rigid_step_proper.
rewrite /RigidCPD__maximization_step /typed_estep /shape_at /=.
by rewrite {1}/np_dot eq_sym (negPf neN).
Qed.

Lemma rigid_iteration_proper (w : R) (res res' : MstepResult R) :
  em_iteration np_pi np_sqrt np_log np_exp np_power np_linalg_svd
    tf_transform (RigidCPD (Some (Arr2 S))) (Arr2 X) w res = Ok res' ->
  has_proper_rotation res'.
Proof.
rewrite /em_iteration /=.
case: (tf_transform _ _) => [t_source|] //=.
case E: (expectation_step _ _ _ _ _ _ _ _) => [e|] //=.
have [N' [T [_ ->]]] := expectation_step_returns E.
by rewrite maximization_step_rigid; apply: rigid_step_returns.
Qed.

Lemma rigid_loop_proper (w tol : R) (n : nat) (res : MstepResult R) (q0 : R) :
  has_proper_rotation res ->
  let: (k, tr, out) :=
    registration_loop_trace np_pi np_sqrt np_log np_exp np_power
      np_linalg_svd tf_transform (RigidCPD (Some (Arr2 S))) (Arr2 X) w tol
      n res q0 in
  every has_proper_rotation tr
  /\ forall r, out = Ok r -> has_proper_rotation r.
Proof.
elim: n res q0 => [|n IH] res q0 P /=; first by split=> // r [<-].
case E: (em_iteration _ _ _ _ _ _ _ _ _ _ _) => [res'|e] //=.
have P' := rigid_iteration_proper E.
case: ifP => _; first by split=> // r [<-].
move: (IH res' (q res') P').
case: (registration_loop_trace _ _ _ _ _ _ _ _ _ _ _ _ _ _) => [[k tr] out].
by move=> [Ptr Pout]; split.
Qed.

Lemma rigid_initialize_proper (res : MstepResult R) :
  RigidCPD_initialize np_log msn_all_combination (Some (Arr2 S)) (Arr2 X)
    = Ok res ->
  has_proper_rotation res.
Proof.
rewrite /RigidCPD_initialize /shape_at /=.
case: (msn_all_combination _ _) => [s0|e] //= [<-] /=.
exists (np_identity D) => //; exists D, 1%:M; split=> //.
  by rewrite trmx1 mulmx1.
exact: det1.
Qed.

End RigidRun.

Arguments has_proper_rotation {R} res.

(** C1.  For a source of N points and a target of M points in D >= 1
    dimensions and an [EstepResult] of matching shapes, and a singular value
    decomposition that keeps numpy's contract: the rigid maximization step
    returns whenever the decomposition of the cross-covariance matrix does,
    and its rotation is [U diag(1, ..., 1, sign(det(U Vh))) Vh] for the
    orthogonal factors [U] and [Vh], where [det(U Vh)] is 1 or -1; it
    satisfies [r r^T = I] and [det r = 1] in both cases.  The rotation of the
    initializer's result is the identity, and every result of every iteration
    of a rigid registration, and the result the registration returns, has a
    proper rotation. *)
Theorem rigid_rotation_is_proper (R : realFieldType)
    (np_pi : R) (np_sqrt np_log np_exp : R -> R) (np_power : R -> R -> R)
    (np_linalg_svd : ndarray R -> result (ndarray R * ndarray R * ndarray R))
    (tf_transform : transformation R -> ndarray R -> result (ndarray R))
    (msn_all_combination : ndarray R -> ndarray R -> result R)
    (N M D : nat) (S : 'M[R]_(N, D)) (X : 'M[R]_(M, D))
    (pt1 : 'rV[R]_M) (p1 : 'rV[R]_N) (px : 'M[R]_(N, D)) (n_p : R)
    (sigma2_p : option R) (w : R) (max_iteration : int) (tol : R) :
  svd_contract np_linalg_svd -> (0 < D)%N ->
  let step := RigidCPD__maximization_step np_log np_linalg_svd
                (Arr2 S) (Arr2 X) (typed_estep pt1 p1 px n_p) sigma2_p in
  [/\ is_ok step = is_ok (np_linalg_svd (Arr2 (cross_cov S p1 px n_p))),
      forall res, step = Ok res ->
        exists U Vh : 'M[R]_D,
          [/\ U *m U^T = 1%:M /\ Vh *m Vh^T = 1%:M,
              \det (U *m Vh) = 1 \/ \det (U *m Vh) = -1,
              rotation_of (mstep_transformation res)
              = Some (Arr2 (U *m diag_mx (ones_with_last D
                                            (Num.sg (\det (U *m Vh))))
                              *m Vh))
            & has_proper_rotation res],
      forall res,
        RigidCPD_initialize np_log msn_all_combination (Some (Arr2 S)) (Arr2 X)
          = Ok res ->
        has_proper_rotation res
    & let: (k, tr, out) :=
        registration_trace np_pi np_sqrt np_log np_exp np_power np_linalg_svd
          tf_transform msn_all_combination (RigidCPD (Some (Arr2 S)))
          (Arr2 X) w max_iteration tol in
      every has_proper_rotation tr
      /\ forall r, out = Ok r -> has_proper_rotation r].
Proof.
move=> svdP D0 step.
have cases := rigid_step_cases np_log svdP S X D0 pt1 p1 px n_p sigma2_p.
split.
- move: cases; rewrite -/step.
  by case: (np_linalg_svd _) => [usv [U [Vh [_ _ ->]]]|e ->].
- move=> res; move: cases; rewrite -/step.
  case: (np_linalg_svd _) => [usv [U [Vh [UU VV ->]]] [<-]|e -> //].
  have dd := det_UVh_sq UU VV.
  exists U, Vh; split=> //.
  + by move/eqP: dd; rewrite -expr2 sqrf_eq1 => /orP [] /eqP ->; [left|right].
  + by rewrite /= sg_unit_square.
  + by exists (Arr2 (rigid_rot U Vh)) => //; apply: rigid_rot_proper.
- exact: rigid_initialize_proper.
- rewrite /registration_trace.
  case E: (_initialize _ _ _ _) => [res0|e] //.
  apply: rigid_loop_proper => //.
  exact: (rigid_initialize_proper E).
Qed.

Lemma rigid_rotation_is_proper_witness :
  let step := RigidCPD__maximization_step rat_log (@svd_1x1 _)
                (Arr2 line_source) (Arr2 line_target)
                (typed_estep line_ones line_ones line_px 2) None in
  [/\ is_ok step
      = is_ok (svd_1x1 (Arr2 (cross_cov line_source line_ones line_px 2))),
      forall res, step = Ok res ->
        exists U Vh : 'M[rat]_1,
          [/\ U *m U^T = 1%:M /\ Vh *m Vh^T = 1%:M,
              \det (U *m Vh) = 1 \/ \det (U *m Vh) = -1,
              rotation_of (mstep_transformation res)
              = Some (Arr2 (U *m diag_mx (ones_with_last 1
                                            (Num.sg (\det (U *m Vh))))
                              *m Vh))
            & has_proper_rotation res],
      forall res,
        RigidCPD_initialize rat_log unit_msn
          (Some (Arr2 line_source)) (Arr2 line_target) = Ok res ->
        has_proper_rotation res
    & let: (k, tr, out) :=
        registration_trace rat_pi rat_sqrt rat_log rat_exp rat_power
          (@svd_1x1 _) still_transform unit_msn
          (RigidCPD (Some (Arr2 line_source))) (Arr2 line_target)
          0 100 (1 / 1000%:R) in
      every has_proper_rotation tr
      /\ forall r, out = Ok r -> has_proper_rotation r].
Proof.
apply: rigid_rotation_is_proper; [exact: svd_1x1_contract | by []].
Defined.

(** On the crosswise matched line the uncorrected orthogonal map is the
    reflection: [det(U Vh) = -1], and the rotation returned is the
    identity. *)
Lemma line_px_cross_cov00 :
  cross_cov line_source line_ones line_px 2 0 0 = - (1 / 2%:R).
Proof.
rewrite /cross_cov /source_hat /mu_x /mu_y /line_source /line_px /line_ones.
by mx_eval; vm_compute.
Qed.

Lemma rigid_reflection_example :
  exists U Vh : 'M[rat]_1,
    [/\ svd_1x1 (Arr2 (cross_cov line_source line_ones line_px 2))
        = Ok (Arr2 U, Arr1 (`|- (1 / 2%:R)|%:M), Arr2 Vh),
        \det (U *m Vh) = -1
      & rigid_rot U Vh = 1%:M].
Proof.
exists (-1)%:M, 1%:M; split.
- rewrite svd_1x1E (mgetE _ 0 0) line_px_cross_cov00.
  by have -> : (- (1 / 2%:R) < 0 :> rat) = true by vm_compute.
- by rewrite mulmx1 det_scalar1.
- rewrite /rigid_rot !mulmx1 det_scalar1.
  apply/matrixP => i j; rewrite !ord1 /ones_with_last.
  by mx_eval; vm_compute.
Qed.

(** * Further properties of the module

    Properties of the same functions that the code shows on its own: closed
    forms of the objective, what a step solves and what it depends on, the
    behaviour of the driver at the edges of its arguments, and the
    probabilities of the expectation step. *)

(** ** The objective of the rigid and of the affine step in closed form *)

Lemma half_residual_over_variance (R : realFieldType) (r k l : R) :
  r / k != 0 ->
  r / (2 * (r / k)) + k * 2^-1 * l = k / 2 * (1 + l).
Proof.
rewrite mulf_eq0 invr_eq0 negb_or => /andP [r0 k0].
rewrite mulrDr mulr1; congr (_ + _).
by rewrite !invfM invrK mulrCA (mulrA r) divff // mul1r mulrC.
Qed.

Lemma rigid_residual (R : realFieldType) (x t y s : R) :
  y != 0 -> s = t / y ->
  x - 2 * s * t + s ^+ 2 * y = x - s * t.
Proof.
move=> y0 ->; rewrite expr2 -[_ * _ * y]mulrA divfK //.
by rewrite -mulrA mulr_natl mulr2n opprD addrA subrK.
Qed.


(** The rigid step, when no division in it is by zero: the objective is a
    function of the variance alone,
    [q = D n_p / 2 (1 + log(sigma2_new))]. *)
Theorem rigid_objective_closed_form (R : realFieldType) (np_log : R -> R)
    (np_linalg_svd : ndarray R -> result (ndarray R * ndarray R * ndarray R))
    (N M D : nat) (S : 'M[R]_(N, D)) (X : 'M[R]_(M, D))
    (pt1 : 'rV[R]_M) (p1 : 'rV[R]_N) (px : 'M[R]_(N, D)) (n_p : R)
    (sigma2_p : option R) (res : MstepResult R) :
  svd_contract np_linalg_svd -> (0 < D)%N ->
  n_p != 0 -> tr_yp1y S p1 n_p != 0 ->
  RigidCPD__maximization_step np_log np_linalg_svd (Arr2 S) (Arr2 X)
    (typed_estep pt1 p1 px n_p) sigma2_p = Ok res ->
  sigma2 res != 0 ->
  q res = D%:R * n_p / 2 * (1 + np_log (sigma2 res)).
Proof.
move=> svdP D0 _ y0.
have := rigid_step_cases np_log svdP S X D0 pt1 p1 px n_p sigma2_p.
case: (np_linalg_svd _) => [usv [U [Vh [_ _ ->]]] [<-] /= s0|e -> //].
rewrite /rigid_q (rigid_residual _ y0 (erefl (rigid_scale S p1 px n_p U Vh))).
rewrite [D%:R * n_p]mulrC.
by apply: half_residual_over_variance.
Qed.

(** The crosswise matched line: the rigid step returns the variance 1. *)
Definition minus_mx1 : 'M[rat]_1 := (-1)%:M.

Lemma line_px_svd :
  svd_1x1 (Arr2 (cross_cov line_source line_ones line_px 2))
  = Ok (Arr2 minus_mx1, Arr1 (`|- (1 / 2%:R)|%:M : 'rV[rat]_1),
        Arr2 unit_mx1).
Proof.
rewrite svd_1x1E (mgetE _ 0 0) line_px_cross_cov00.
by have -> : (- (1 / 2%:R) < 0 :> rat) = true by vm_compute.
Qed.

Definition line_px_result : MstepResult rat :=
  mkMstepResult
    (RigidTransformation (Arr2 (rigid_rot minus_mx1 unit_mx1))
       (Arr1 (rigid_t line_source line_ones line_px 2 minus_mx1 unit_mx1))
       (rigid_scale line_source line_ones line_px 2 minus_mx1 unit_mx1))
    (rigid_sigma2 line_source line_target line_ones line_ones line_px 2
       minus_mx1 unit_mx1)
    (rigid_q rat_log line_source line_target line_ones line_ones line_px 2
       minus_mx1 unit_mx1).

Lemma line_px_step :
  RigidCPD__maximization_step rat_log (@svd_1x1 _)
    (Arr2 line_source) (Arr2 line_target)
    (typed_estep line_ones line_ones line_px 2) None
  = Ok line_px_result.
Proof.
exact: (rigid_mstep_typed rat_log line_target line_ones None _ line_px_svd).
Qed.

Lemma line_source_tr_yp1y : tr_yp1y line_source line_ones 2 = 1 / 2%:R.
Proof.
rewrite /tr_yp1y /mxtrace /mx_yp1y /source_hat /mu_y /line_source /line_ones.
by mx_eval; vm_compute.
Qed.

Lemma line_px_sigma2 : sigma2 line_px_result = 1.
Proof.
rewrite /= /rigid_sigma2 /rigid_scale /rigid_tr_atr /tr_yp1y /tr_xp1x.
rewrite /rigid_rot /minus_mx1 /unit_mx1 !mulmx1 det_scalar1 /mxtrace /mx_yp1y /cross_cov.
rewrite /target_hat /source_hat /mu_x /mu_y.
rewrite /line_source /line_target /line_px /line_ones.
by rewrite /ones_with_last; mx_eval; vm_compute.
Qed.

Lemma rigid_objective_closed_form_witness :
  q line_px_result = 1%:R * 2 / 2 * (1 + rat_log (sigma2 line_px_result)).
Proof.
apply: (@rigid_objective_closed_form _ rat_log (@svd_1x1 _) 2 2 1
          line_source line_target line_ones line_ones line_px 2 None).
- exact: svd_1x1_contract.
- by [].
- by vm_compute.
- by rewrite line_source_tr_yp1y; vm_compute.
- exact: line_px_step.
- by rewrite line_px_sigma2; vm_compute.
Defined.

(** The affine step, when no division in it is by zero: the objective is the
    same function of the variance, [q = D n_p / 2 (1 + log(sigma2_new))]. *)
Theorem affine_objective_closed_form (R : realFieldType) (np_log : R -> R)
    (N M D : nat) (S : 'M[R]_(N, D)) (X : 'M[R]_(M, D))
    (pt1 : 'rV[R]_M) (p1 : 'rV[R]_N) (px : 'M[R]_(N, D)) (n_p : R)
    (sigma2_p : option R) (res : MstepResult R) :
  (0 < D)%N -> n_p != 0 ->
  AffineCPD__maximization_step np_log (Arr2 S) (Arr2 X)
    (typed_estep pt1 p1 px n_p) sigma2_p = Ok res ->
  sigma2 res != 0 ->
  q res = D%:R * n_p / 2 * (1 + np_log (sigma2 res)).
Proof.
move=> _ _; rewrite affine_mstep_typed; case: ifP => // _ [<-] /= s0.
rewrite (mulr_natl _ 2) mulr2n opprD addrA subrK [D%:R * n_p]mulrC.
by apply: half_residual_over_variance.
Qed.

Section AffineSystem.

Variable R : realFieldType.
Variables (N D : nat) (S : 'M[R]_(N, D)).
Variables (p1 : 'rV[R]_N) (px : 'M[R]_(N, D)) (n_p : R).

Lemma affine_b_system :
  (mx_yp1y S p1 n_p)^T \in unitmx ->
  affine_b S p1 px n_p *m mx_yp1y S p1 n_p = cross_cov S p1 px n_p.
Proof.
move=> u; apply: trmx_inj.
by rewrite trmx_mul /affine_b trmxK mulKVmx.
Qed.

Lemma affine_t_centroid :
  mu_y S p1 n_p *m (affine_b S p1 px n_p)^T + affine_t S p1 px n_p
  = mu_x px n_p.
Proof. by rewrite /affine_t addrC subrK. Qed.

End AffineSystem.

(** The affine step returns the solution of its normal equations: the matrix
    [B] with [B (Yh^T diag(p1) Yh) = A], and the translation that sends the
    weighted mean of the source onto the weighted mean of the target,
    [B mu_y + t = mu_x]. *)
Theorem affine_step_solves_normal_equations (R : realFieldType)
    (np_log : R -> R)
    (N M D : nat) (S : 'M[R]_(N, D)) (X : 'M[R]_(M, D))
    (pt1 : 'rV[R]_M) (p1 : 'rV[R]_N) (px : 'M[R]_(N, D)) (n_p : R)
    (sigma2_p : option R) (res : MstepResult R) :
  AffineCPD__maximization_step np_log (Arr2 S) (Arr2 X)
    (typed_estep pt1 p1 px n_p) sigma2_p = Ok res ->
  exists (B : 'M[R]_D) (t : 'rV[R]_D),
    [/\ mstep_transformation res = AffineTransformation (Arr2 B) (Arr1 t),
        B *m (source_hat S p1 n_p)^T *m diag_mx p1 *m source_hat S p1 n_p
        = (px^T *m source_hat S p1 n_p
           - (mu_x px n_p)^T *m (p1 *m source_hat S p1 n_p))
      & mu_y S p1 n_p *m B^T + t = mu_x px n_p].
Proof.
rewrite affine_mstep_typed; case: ifP => // u [<-] /=.
exists (affine_b S p1 px n_p), (affine_t S p1 px n_p); split=> //.
  by rewrite -!mulmxA [X in _ *m X]mulmxA -/(mx_yp1y S p1 n_p) affine_b_system.
exact: affine_t_centroid.
Qed.

(** The crosswise matched line under the affine step. *)
Lemma line_source_yp1y_unit : (mx_yp1y line_source line_ones 2)^T \in unitmx.
Proof.
rewrite unitmx11 /mx_yp1y /source_hat /mu_y /line_source /line_ones.
by mx_eval; vm_compute.
Qed.

Definition line_px_affine_result : MstepResult rat :=
  mkMstepResult
    (AffineTransformation (Arr2 (affine_b line_source line_ones line_px 2))
       (Arr1 (affine_t line_source line_ones line_px 2)))
    (affine_sigma2 line_source line_target line_ones line_ones line_px 2)
    ((tr_xp1x line_target line_ones line_px 2
      - 2 * affine_tr_ab line_source line_ones line_px 2
      + affine_tr_ab line_source line_ones line_px 2)
     / (2 * affine_sigma2 line_source line_target line_ones line_ones
              line_px 2)
     + 1%:R * 2 * 2^-1
       * rat_log (affine_sigma2 line_source line_target line_ones line_ones
                    line_px 2)).

Lemma line_px_affine_step :
  AffineCPD__maximization_step rat_log (Arr2 line_source) (Arr2 line_target)
    (typed_estep line_ones line_ones line_px 2) None
  = Ok line_px_affine_result.
Proof. by rewrite affine_mstep_typed line_source_yp1y_unit. Qed.

Lemma line_source_yp1y00 : mx_yp1y line_source line_ones 2 0 0 = 1 / 2%:R.
Proof.
rewrite /mx_yp1y /source_hat /mu_y /line_source /line_ones.
by mx_eval; vm_compute.
Qed.

Lemma line_px_affine_b00 : affine_b line_source line_ones line_px 2 0 0 = -1.
Proof.
have := affine_b_system line_px line_source_yp1y_unit.
move/matrixP/(_ 0 0); rewrite mxE big_ord1 line_source_yp1y00.
rewrite line_px_cross_cov00 => e.
have h0 : (1 / 2%:R : rat) != 0 by vm_compute.
by rewrite -[LHS](mulfK h0) e; vm_compute.
Qed.

Lemma line_px_tr_xp1x : tr_xp1x line_target line_ones line_px 2 = 5%:R / 2%:R.
Proof.
rewrite /tr_xp1x /mxtrace /target_hat /mu_x /line_target /line_px /line_ones.
by mx_eval; vm_compute.
Qed.

Lemma line_px_affine_sigma2 : sigma2 line_px_affine_result = 1.
Proof.
have ab : affine_tr_ab line_source line_ones line_px 2 = 1 / 2%:R.
  rewrite /affine_tr_ab /mxtrace big_ord1 [LHS]mxE big_ord1 [X in _ * X]mxE.
  by rewrite line_px_affine_b00 line_px_cross_cov00; vm_compute.
by rewrite /= /affine_sigma2 ab line_px_tr_xp1x; vm_compute.
Qed.

Lemma affine_objective_closed_form_witness :
  q line_px_affine_result
  = 1%:R * 2 / 2 * (1 + rat_log (sigma2 line_px_affine_result)).
Proof.
apply: (@affine_objective_closed_form _ rat_log 2 2 1
          line_source line_target line_ones line_ones line_px 2 None).
- by [].
- by vm_compute.
- exact: line_px_affine_step.
- by rewrite line_px_affine_sigma2; vm_compute.
Defined.

Lemma affine_step_solves_normal_equations_witness :
  exists (B : 'M[rat]_1) (t : 'rV[rat]_1),
    [/\ mstep_transformation line_px_affine_result
        = AffineTransformation (Arr2 B) (Arr1 t),
        B *m (source_hat line_source line_ones 2)^T *m diag_mx line_ones
          *m source_hat line_source line_ones 2
        = (line_px^T *m source_hat line_source line_ones 2
           - (mu_x line_px 2)^T
             *m (line_ones *m source_hat line_source line_ones 2))
      & mu_y line_source line_ones 2 *m B^T + t = mu_x line_px 2].
Proof.
exact: (affine_step_solves_normal_equations line_px_affine_step).
Defined.

(** ** The scale and the translation of the rigid step *)

Definition scale_of (R : realFieldType) (t : transformation R) : option R :=
  if t is RigidTransformation _ _ s then Some s else None.

Definition translation_of (R : realFieldType) (t : transformation R) :
    option (ndarray R) :=
  match t with
  | RigidTransformation _ t _ => Some t
  | AffineTransformation _ t => Some t
  | NonRigidTransformation _ _ => None
  end.

Section RigidScale.

Variable R : realFieldType.
Variables (N D : nat) (S : 'M[R]_(N, D)).
Variables (p1 : 'rV[R]_N) (px : 'M[R]_(N, D)) (n_p : R).
Variables (U Vh : 'M[R]_D) (sv : 'rV[R]_D).

Hypothesis U_orth : U *m U^T = 1%:M.
Hypothesis Vh_orth : Vh *m Vh^T = 1%:M.
Hypothesis factors : cross_cov S p1 px n_p = U *m diag_mx sv *m Vh.

(** [trace(A^T R)] is the sum of the singular values, the last one with the
    sign [det(U Vh)]. *)
Lemma rigid_tr_atr_singular_values :
  rigid_tr_atr S p1 px n_p U Vh
  = \sum_(i < D) sv 0 i * (if (i : nat) == D.-1 then \det (U *m Vh) else 1).
Proof.
have UtU : U^T *m U = 1%:M by apply: mulmx1C.
rewrite /rigid_tr_atr factors /rigid_rot !trmx_mul tr_diag_mx.
rewrite mxtrace_mulC !mulmxA -(mulmxA _ Vh) Vh_orth mulmx1.
rewrite mxtrace_mulC !mulmxA UtU mul1mx mulmx_diag mxtrace_diag.
by apply: eq_bigr => i _; rewrite /ones_with_last !mxE mulrC.
Qed.

Lemma rigid_t_centroid :
  map_mx (fun x => rigid_scale S p1 px n_p U Vh * x)
    (mu_y S p1 n_p *m (rigid_rot U Vh)^T)
  + rigid_t S p1 px n_p U Vh
  = mu_x px n_p.
Proof. by rewrite /rigid_t addrC subrK. Qed.

End RigidScale.

(** The rigid step with a decomposition that keeps numpy's contract: the
    scale is the sum of the singular values of the cross-covariance matrix,
    the last one taken with the sign [det(U Vh)], divided by
    [trace(Yh^T diag(p1) Yh)]; and the translation sends the weighted mean of
    the source onto the weighted mean of the target,
    [s R mu_y + t = mu_x]. *)
Theorem rigid_scale_from_singular_values (R : realFieldType)
    (np_log : R -> R)
    (np_linalg_svd : ndarray R -> result (ndarray R * ndarray R * ndarray R))
    (N M D : nat) (S : 'M[R]_(N, D)) (X : 'M[R]_(M, D))
    (pt1 : 'rV[R]_M) (p1 : 'rV[R]_N) (px : 'M[R]_(N, D)) (n_p : R)
    (sigma2_p : option R) (res : MstepResult R) :
  svd_contract np_linalg_svd -> (0 < D)%N ->
  RigidCPD__maximization_step np_log np_linalg_svd (Arr2 S) (Arr2 X)
    (typed_estep pt1 p1 px n_p) sigma2_p = Ok res ->
  exists (U Vh Rm : 'M[R]_D) (sv t : 'rV[R]_D) (s : R),
    [/\ np_linalg_svd (Arr2 (cross_cov S p1 px n_p))
        = Ok (Arr2 U, Arr1 sv, Arr2 Vh),
        mstep_transformation res = RigidTransformation (Arr2 Rm) (Arr1 t) s,
        s = (\sum_(i < D) sv 0 i
               * (if (i : nat) == D.-1 then \det (U *m Vh) else 1))
            / \tr ((source_hat S p1 n_p)^T *m diag_mx p1
                     *m source_hat S p1 n_p)
      & map_mx (fun x => s * x) (mu_y S p1 n_p *m Rm^T) + t = mu_x px n_p].
Proof.
move=> svdP D0.
have := rigid_step_cases np_log svdP S X D0 pt1 p1 px n_p sigma2_p.
case svdE: (np_linalg_svd _) => [[[u s] vh]|e]; last by move=> ->.
move=> _.
have [U [sv [Vh [[eu es evh] [UU VV AE]]]]] := svdP _ _ _ _ _ svdE.
rewrite eu es evh in svdE.
rewrite (rigid_mstep_typed np_log X pt1 sigma2_p D0 svdE) => -[<-] /=.
exists U, Vh, (rigid_rot U Vh), sv, (rigid_t S p1 px n_p U Vh),
       (rigid_scale S p1 px n_p U Vh); split=> //.
- by rewrite eu es evh.
- by rewrite /rigid_scale (rigid_tr_atr_singular_values UU VV AE).
- exact: rigid_t_centroid.
Qed.

Lemma rigid_scale_from_singular_values_witness :
  exists (U Vh Rm : 'M[rat]_1) (sv t : 'rV[rat]_1) (s : rat),
    [/\ svd_1x1 (Arr2 (cross_cov line_source line_ones line_px 2))
        = Ok (Arr2 U, Arr1 sv, Arr2 Vh),
        mstep_transformation line_px_result
        = RigidTransformation (Arr2 Rm) (Arr1 t) s,
        s = (\sum_(i < 1) sv 0 i
               * (if (i : nat) == 0%N then \det (U *m Vh) else 1))
            / \tr ((source_hat line_source line_ones 2)^T *m diag_mx line_ones
                     *m source_hat line_source line_ones 2)
      & map_mx (fun x => s * x) (mu_y line_source line_ones 2 *m Rm^T) + t
        = mu_x line_px 2].
Proof.
apply: (@rigid_scale_from_singular_values _ rat_log (@svd_1x1 _) 2 2 1
          line_source line_target line_ones line_ones line_px 2 None).
- exact: svd_1x1_contract.
- by [].
- exact: line_px_step.
Defined.

(** ** The driver: missing source, tolerance and budget *)

(** An object constructed without a source and never given one: registration
    and the maximization step end on the first use of the source, with
    [AttributeError]. *)
Theorem registration_without_source (R : realFieldType)
    (np_pi : R) (np_sqrt np_log np_exp : R -> R) (np_power : R -> R -> R)
    (np_linalg_svd : ndarray R -> result (ndarray R * ndarray R * ndarray R))
    (tf_transform : transformation R -> ndarray R -> result (ndarray R))
    (msn_all_combination : ndarray R -> ndarray R -> result R)
    (self : cpd R) (target : ndarray R) (w : R) (max_iteration : int)
    (tol : R) (estep_res : EstepResult R) (sigma2_p : option R) :
  cpd_source self = None ->
  [/\ registration np_pi np_sqrt np_log np_exp np_power np_linalg_svd
        tf_transform msn_all_combination self target w max_iteration tol
      = Raise AttributeError,
      _initialize np_log msn_all_combination self target
      = Raise AttributeError
    & maximization_step np_log np_linalg_svd self target estep_res sigma2_p
      = Raise AttributeError].
Proof. by case: self => [[s|]|[s|]|[s|] beta lmd g]. Qed.

Lemma registration_without_source_witness :
  [/\ registration rat_pi rat_sqrt rat_log rat_exp rat_power (@svd_1x1 _)
        still_transform unit_msn (NonRigidObj None 2 2 None)
        (Arr2 line_points) 0 50 (1 / 1000%:R)
      = Raise AttributeError,
      _initialize rat_log unit_msn (NonRigidObj None 2 2 None)
        (Arr2 line_points)
      = Raise AttributeError
    & maximization_step rat_log (@svd_1x1 _) (NonRigidObj None 2 2 None)
        (Arr2 line_points)
        (typed_estep line_ones line_ones line_points 2) (Some 1)
      = Raise AttributeError].
Proof. by apply: registration_without_source. Defined.

Section Budget.

Variable R : realFieldType.
Variable np_pi : R.
Variables np_sqrt np_log np_exp : R -> R.
Variable np_power : R -> R -> R.
Variable np_linalg_svd : ndarray R -> result (ndarray R * ndarray R * ndarray R).
Variable tf_transform : transformation R -> ndarray R -> result (ndarray R).
Variable msn_all_combination : ndarray R -> ndarray R -> result R.

Variables (self : cpd R) (target : ndarray R) (w tol : R).

Let loop_trace := registration_loop_trace np_pi np_sqrt np_log np_exp
                    np_power np_linalg_svd tf_transform self target w tol.

(** A run that stopped before its budget was spent, or that raised, is
    the same under any larger budget. *)
Lemma registration_loop_trace_budget (n n' : nat) (res : MstepResult R)
    (q0 : R) (k : nat) (tr : seq (MstepResult R))
    (out : result (MstepResult R)) :
  loop_trace n res q0 = (k, tr, out) ->
  (k < n)%N || ~~ is_ok out -> (n <= n')%N ->
  loop_trace n' res q0 = (k, tr, out).
Proof.
rewrite /loop_trace.
elim: n n' res q0 k tr out => [|n IH] [|n'] res q0 k tr out //=.
  by move=> [<- _ <-].
case: (em_iteration _ _ _ _ _ _ _ _ _ _ _) => [res'|e] //.
case: ifP => // _.
move: (IH n' res' (q res')).
case: (registration_loop_trace _ _ _ _ _ _ _ _ _ _ _ n _ _)
  => [[k1 tr1] out1] IH1 [<- <- <-].
by rewrite ltnS => c le; rewrite (IH1 k1 tr1 out1).
Qed.

(** With a tolerance that is not positive no iteration meets the test. *)
Lemma registration_loop_trace_tol0 (n : nat) (res : MstepResult R) (q0 : R)
    (k : nat) (tr : seq (MstepResult R)) (r : MstepResult R) :
  tol <= 0 ->
  loop_trace n res q0 = (k, tr, Ok r) -> k = n /\ size tr = n.
Proof.
move=> tol0; rewrite /loop_trace.
elim: n res q0 k tr => [|n IH] res q0 k tr /=; first by move=> [<- <-].
case: (em_iteration _ _ _ _ _ _ _ _ _ _ _) => [res'|e] //.
rewrite real_ltNge ?num_real // (le_trans tol0) //=.
move: (IH res' (q res')).
case: (registration_loop_trace _ _ _ _ _ _ _ _ _ _ _ n _ _)
  => [[k1 tr1] out1] IH1 [<- <- e].
by have [-> sz] := IH1 k1 tr1 (congr1 (pair (k1, tr1)) e); rewrite /= sz.
Qed.

(** A first iteration that meets the tolerance ends the run. *)
Lemma registration_trace_first (max_iteration : nat)
    (res0 r : MstepResult R) :
  _initialize np_log msn_all_combination self target = Ok res0 ->
  em_iteration np_pi np_sqrt np_log np_exp np_power np_linalg_svd
    tf_transform self target w res0 = Ok r ->
  `|q r - q res0| < tol ->
  registration_trace np_pi np_sqrt np_log np_exp np_power np_linalg_svd
    tf_transform msn_all_combination self target w (Posz max_iteration.+1)
    tol
  = (1%N, [:: r], Ok r).
Proof. by rewrite /registration_trace => -> /= -> ->. Qed.

End Budget.

(** With a tolerance that is zero or negative the test [abs(res.q - q) < tol]
    never holds: a registration that returns has run exactly
    [max_iteration] iterations (none for a negative count). *)
Theorem nonpositive_tolerance_spends_budget (R : realFieldType)
    (np_pi : R) (np_sqrt np_log np_exp : R -> R) (np_power : R -> R -> R)
    (np_linalg_svd : ndarray R -> result (ndarray R * ndarray R * ndarray R))
    (tf_transform : transformation R -> ndarray R -> result (ndarray R))
    (msn_all_combination : ndarray R -> ndarray R -> result R)
    (self : cpd R) (target : ndarray R) (w : R) (max_iteration : int)
    (tol : R) (k : nat) (tr : seq (MstepResult R)) (r : MstepResult R) :
  tol <= 0 ->
  registration_trace np_pi np_sqrt np_log np_exp np_power np_linalg_svd
    tf_transform msn_all_combination self target w max_iteration tol
  = (k, tr, Ok r) ->
  k = range_len max_iteration /\ size tr = range_len max_iteration.
Proof.
move=> tol0; rewrite /registration_trace.
case: (_initialize _ _ _ _) => [res0|e] //.
exact: registration_loop_trace_tol0.
Qed.

Lemma nonpositive_tolerance_spends_budget_witness :
  exists (k : nat) (tr : seq (MstepResult rat)) (r : MstepResult rat),
    registration_trace rat_pi rat_sqrt rat_log rat_exp rat_power (@svd_1x1 _)
      still_transform unit_msn (RigidCPD (Some (Arr2 line_source)))
      (Arr2 line_target) 0 3 0
    = (k, tr, Ok r)
    /\ k = 3%N /\ size tr = 3%N.
Proof.
have w1 : (0 : rat) != 1 by rewrite eq_sym oner_neq0.
have := @rigid_line_run_spends_budget 2 2 line_source line_target 0 3 isT w1.
case E: (registration_trace _ _ _ _ _ _ _ _ _ _ _ _ _) => [[k tr] out].
case: out E => [r|e] E [_ _ ok]; last by case: ok.
exists k, tr, r; split; first by [].
exact: (nonpositive_tolerance_spends_budget (lexx 0) E).
Defined.

(** A registration that stopped before its budget was spent, because an
    iteration met the tolerance or raised, ends the same way under any larger
    budget: after the same iterations, with the same result or exception. *)
Theorem larger_budget_same_outcome (R : realFieldType)
    (np_pi : R) (np_sqrt np_log np_exp : R -> R) (np_power : R -> R -> R)
    (np_linalg_svd : ndarray R -> result (ndarray R * ndarray R * ndarray R))
    (tf_transform : transformation R -> ndarray R -> result (ndarray R))
    (msn_all_combination : ndarray R -> ndarray R -> result R)
    (self : cpd R) (target : ndarray R) (w tol : R) (n n' : nat)
    (k : nat) (tr : seq (MstepResult R)) (out : result (MstepResult R)) :
  registration_trace np_pi np_sqrt np_log np_exp np_power np_linalg_svd
    tf_transform msn_all_combination self target w (Posz n) tol
  = (k, tr, out) ->
  (k < n)%N || ~~ is_ok out -> (n <= n')%N ->
  registration_trace np_pi np_sqrt np_log np_exp np_power np_linalg_svd
    tf_transform msn_all_combination self target w (Posz n') tol
  = (k, tr, out)
  /\ registration np_pi np_sqrt np_log np_exp np_power np_linalg_svd
       tf_transform msn_all_combination self target w (Posz n') tol
     = out.
Proof.
move=> E stop le.
have E' : registration_trace np_pi np_sqrt np_log np_exp np_power
            np_linalg_svd tf_transform msn_all_combination self target w
            (Posz n') tol = (k, tr, out).
  move: E; rewrite /registration_trace.
  case: (_initialize _ _ _ _) => [res0|e] //= E.
  exact: (registration_loop_trace_budget E).
split=> //.
move: E'; rewrite /registration_trace /registration.
case: (_initialize _ _ _ _) => [res0|e] /=; last by move=> [_ _ <-].
have := registration_loop_trace_spec np_pi np_sqrt np_log np_exp np_power
  np_linalg_svd tf_transform self target w tol n' res0 (q res0).
by move=> + E'; rewrite E' => -[_ ->].
Qed.

(** The rigid variant on the crosswise matched line, with a tolerance above
    the first change of the objective: the first iteration meets it. *)
Definition line_init : MstepResult rat :=
  mkMstepResult (RigidTransformation (np_identity 1) (np_zeros 1) 1)
    1 (1 + 2%:R * 1%:R * 2^-1 * rat_log 1).

Definition line_first : MstepResult rat :=
  if em_iteration rat_pi rat_sqrt rat_log rat_exp rat_power (@svd_1x1 _)
       still_transform (RigidCPD (Some (Arr2 line_source))) (Arr2 line_target)
       0 line_init is Ok r then r
  else line_init.

Definition line_tol : rat := `|q line_first - q line_init| + 1.

Lemma line_first_run (n : nat) :
  registration_trace rat_pi rat_sqrt rat_log rat_exp rat_power (@svd_1x1 _)
    still_transform unit_msn (RigidCPD (Some (Arr2 line_source)))
    (Arr2 line_target) 0 (Posz n.+1) line_tol
  = (1%N, [:: line_first], Ok line_first).
Proof.
have w1 : (0 : rat) != 1 by rewrite eq_sym oner_neq0.
apply: (@registration_trace_first _ _ _ _ _ _ _ _ _ _ _ _ _ n line_init).
- by [].
- rewrite /line_first.
  have := @rigid_line_iteration 2 2 line_source line_target 0 line_init isT w1.
  by case: (em_iteration _ _ _ _ _ _ _ _ _ _ _).
- by rewrite /line_tol ltrDl ltr01.
Qed.

Lemma larger_budget_same_outcome_witness :
  registration_trace rat_pi rat_sqrt rat_log rat_exp rat_power (@svd_1x1 _)
    still_transform unit_msn (RigidCPD (Some (Arr2 line_source)))
    (Arr2 line_target) 0 (Posz 7) line_tol
  = (1%N, [:: line_first], Ok line_first)
  /\ registration rat_pi rat_sqrt rat_log rat_exp rat_power (@svd_1x1 _)
       still_transform unit_msn (RigidCPD (Some (Arr2 line_source)))
       (Arr2 line_target) 0 (Posz 7) line_tol
     = Ok line_first.
Proof.
apply: (@larger_budget_same_outcome _ _ _ _ _ _ _ _ _ _ _ _ _ 2 7 1
          [:: line_first] (Ok line_first)).
- exact: (line_first_run 1).
- by [].
- by [].
Defined.

(** ** The objective of the non-rigid variant *)

Lemma bind_ok (A B : Type) (m : result A) (f : A -> result B) (b : B) :
  bind m f = Ok b -> exists2 a, m = Ok a & f a = Ok b.
Proof. by case: m => [a|e] //= E; exists a. Qed.

Ltac bind_inv :=
  match goal with
  | |- bind ?m _ = Ok _ -> _ => case: m => [?|?]; [rewrite bindE | by []]
  end.

Section NonRigidObjective.

Variable R : realFieldType.
Variable np_pi : R.
Variables np_sqrt np_log np_exp : R -> R.
Variable np_power : R -> R -> R.
Variable np_linalg_svd : ndarray R -> result (ndarray R * ndarray R * ndarray R).
Variable tf_transform : transformation R -> ndarray R -> result (ndarray R).
Variable msn_all_combination : ndarray R -> ndarray R -> result R.

Definition variance_as_objective (res : MstepResult R) : Prop :=
  q res = sigma2 res.

Lemma nonrigid_step_objective (source target : ndarray R)
    (estep_res : EstepResult R) (sigma2_p : option R)
    (g : option (ndarray R)) (lmd : R) (res : MstepResult R) :
  NonRigidCPD__maximization_step source target estep_res sigma2_p g lmd
    = Ok res ->
  variance_as_objective res.
Proof.
rewrite /NonRigidCPD__maximization_step; case: estep_res => pt1 p1 px n_p.
do 18!bind_inv.
by move=> [<-].
Qed.

Variables (s : option (ndarray R)) (beta lmd : R) (g : option (ndarray R)).
Variables (target : ndarray R) (w tol : R).

Lemma nonrigid_iteration_objective (res res' : MstepResult R) :
  em_iteration np_pi np_sqrt np_log np_exp np_power np_linalg_svd
    tf_transform (NonRigidObj s beta lmd g) target w res = Ok res' ->
  variance_as_objective res'.
Proof.
rewrite /em_iteration.
do 3!bind_inv.
rewrite /maximization_step; bind_inv.
exact: nonrigid_step_objective.
Qed.

Lemma nonrigid_loop_objective_from (n : nat) (res : MstepResult R) (q0 : R) :
  variance_as_objective res ->
  let: (k, tr, out) :=
    registration_loop_trace np_pi np_sqrt np_log np_exp np_power
      np_linalg_svd tf_transform (NonRigidObj s beta lmd g) target w tol
      n res q0 in
  every variance_as_objective tr
  /\ forall r, out = Ok r -> variance_as_objective r.
Proof.
elim: n res q0 => [|n IH] res q0 P /=; first by split=> // r [<-].
case E: (em_iteration _ _ _ _ _ _ _ _ _ _ _) => [res'|e] //=.
have P' := nonrigid_iteration_objective E.
case: ifP => _; first by split=> // r [<-].
move: (IH res' (q res') P').
case: (registration_loop_trace _ _ _ _ _ _ _ _ _ _ _ _ _ _) => [[k tr] out].
by move=> [Ptr Pout]; split.
Qed.

Lemma nonrigid_loop_objective (n : nat) (res : MstepResult R) (q0 : R) :
  let: (k, tr, out) :=
    registration_loop_trace np_pi np_sqrt np_log np_exp np_power
      np_linalg_svd tf_transform (NonRigidObj s beta lmd g) target w tol
      n res q0 in
  every variance_as_objective tr
  /\ ((0 < k)%N -> forall r, out = Ok r -> variance_as_objective r).
Proof.
case: n => [|n] //=.
case E: (em_iteration _ _ _ _ _ _ _ _ _ _ _) => [res'|e] //=.
have P' := nonrigid_iteration_objective E.
case: ifP => _; first by split=> // _ r [<-].
move: (nonrigid_loop_objective_from n (q res') P').
case: (registration_loop_trace _ _ _ _ _ _ _ _ _ _ _ _ _ _) => [[k tr] out].
by move=> [Ptr Pout]; split.
Qed.

End NonRigidObjective.

Arguments variance_as_objective {R} res.

(** The non-rigid maximization step returns its variance as its objective
    value, for every input on which it returns; so in a registration of the
    non-rigid variant every iteration's result has [q = sigma2], and the
    test of convergence compares a variance with the previous objective
    value: from the second iteration on, two successive variances. *)
Theorem nonrigid_objective_is_variance (R : realFieldType)
    (np_pi : R) (np_sqrt np_log np_exp : R -> R) (np_power : R -> R -> R)
    (np_linalg_svd : ndarray R -> result (ndarray R * ndarray R * ndarray R))
    (tf_transform : transformation R -> ndarray R -> result (ndarray R))
    (msn_all_combination : ndarray R -> ndarray R -> result R)
    (s : option (ndarray R)) (beta lmd : R) (g : option (ndarray R))
    (target : ndarray R) (w : R) (max_iteration : int) (tol : R) :
  (forall (source target' : ndarray R) estep_res sigma2_p g' lmd' res,
     NonRigidCPD__maximization_step source target' estep_res sigma2_p g' lmd'
       = Ok res ->
     q res = sigma2 res)
  /\ let: (k, tr, out) :=
       registration_trace np_pi np_sqrt np_log np_exp np_power np_linalg_svd
         tf_transform msn_all_combination (NonRigidObj s beta lmd g) target
         w max_iteration tol in
     every (fun r => q r = sigma2 r) tr
     /\ ((0 < k)%N -> forall r, out = Ok r -> q r = sigma2 r).
Proof.
split.
  move=> source target' estep_res sigma2_p g' lmd' res.
  exact: nonrigid_step_objective.
rewrite /registration_trace.
case: (_initialize _ _ _ _) => [res0|e] //.
exact: nonrigid_loop_objective.
Qed.

(** The step returns on one point on a line. *)
Lemma nonrigid_objective_example :
  exists2 res, one_step (1 : rat) = Ok res & q res = sigma2 res.
Proof.
have u : nonrigid_lhs (one_row rat) (one_one rat) 1 1 \in unitmx.
  by rewrite unitmx11 one_lhs00; vm_compute.
by rewrite /one_step nonrigid_mstep_square u; eexists.
Qed.

(** ** The probabilities of the expectation step *)

Section EstepProbabilities.

Variable R : realFieldType.
Variable np_pi : R.
Variables np_sqrt np_exp : R -> R.
Variable np_power : R -> R -> R.

Hypothesis np_pi_gt0 : 0 < np_pi.
Hypothesis np_power_ge0 : forall x y, 0 < x -> 0 <= np_power x y.
Hypothesis np_exp_ge0 : forall x, 0 <= np_exp x.

Variables (N M D : nat).
Variables (T : 'M[R]_(N, D)) (X : 'M[R]_(M, D)).
Variables (sigma2 w : R).

Hypothesis sigma2_gt0 : 0 < sigma2.
Hypothesis w_range : 0 <= w < 1.

Let c := estep_c np_pi np_power N M D sigma2 w.
Let den := estep_denominator np_pi np_sqrt np_exp np_power T X sigma2 w.
Let a := estep_a np_pi np_sqrt np_exp np_power T X sigma2 w.
Let kt1 := estep_kt1 np_sqrt np_exp T X sigma2.
Let kt1' := estep_kt1_clamped np_sqrt np_exp T X sigma2.

Lemma estep_a_gt0 (m : 'I_M) : 0 < a 0 m.
Proof.
rewrite /a /estep_a mxE div1r invr_gt0.
exact: estep_denominator_gt0.
Qed.

(** [pt1 = kt1 / (kt1 + c)] on the clamped kernel sums. *)
Lemma estep_pt1_quotient (m : 'I_M) :
  estep_pt1 np_pi np_sqrt np_exp np_power T X sigma2 w 0 m
  = kt1' 0 m / den 0 m.
Proof.
have d0 : den 0 m != 0.
  by rewrite gt_eqF //; apply: estep_denominator_gt0.
rewrite /estep_pt1 mxE /estep_a mxE -/den -/c mulrA mulr1.
rewrite -[1](divff d0) -mulrBl; congr (_ / _).
by rewrite /den /estep_denominator mxE -/c -/kt1' addrK.
Qed.

Lemma estep_pt1_range (m : 'I_M) :
  0 < estep_pt1 np_pi np_sqrt np_exp np_power T X sigma2 w 0 m <= 1.
Proof.
apply/andP; split.
  rewrite estep_pt1_quotient divr_gt0 //.
    exact: estep_kt1_clamped_gt0.
  exact: estep_denominator_gt0.
rewrite /estep_pt1 mxE lerBlDr lerDl mulr_ge0 //.
  exact: estep_c_ge0.
exact/ltW/estep_a_gt0.
Qed.

Lemma estep_p1_ge0 (n : 'I_N) :
  0 <= estep_p1 np_pi np_sqrt np_exp np_power T X sigma2 w 0 n.
Proof.
rewrite /estep_p1 mxE; apply: sumr_ge0 => m _.
by rewrite mulr_ge0 ?np_exp_ge0 //; apply/ltW/estep_a_gt0.
Qed.

Lemma estep_n_p_ge0 :
  0 <= estep_n_p np_pi np_sqrt np_exp np_power T X sigma2 w.
Proof. by apply: sumr_ge0 => n _; apply: estep_p1_ge0. Qed.

(** The total of [p1], summed the other way round. *)
Lemma estep_n_p_exchange :
  estep_n_p np_pi np_sqrt np_exp np_power T X sigma2 w
  = \sum_m a 0 m * kt1 0 m.
Proof.
rewrite /estep_n_p.
under eq_bigr do rewrite /estep_p1 mxE.
rewrite exchange_big /=; apply: eq_bigr => m _.
by rewrite /kt1 /estep_kt1 mxE mulr_sumr.
Qed.

Lemma estep_n_p_total :
  (forall m, kt1 0 m != 0) ->
  estep_n_p np_pi np_sqrt np_exp np_power T X sigma2 w
  = \sum_m estep_pt1 np_pi np_sqrt np_exp np_power T X sigma2 w 0 m.
Proof.
move=> kt1_ne0; rewrite estep_n_p_exchange; apply: eq_bigr => m _.
rewrite estep_pt1_quotient /a /estep_a mxE -/den mulrC mul1r.
by rewrite /kt1' /estep_kt1_clamped mxE /zero_to_eps (negPf (kt1_ne0 m)).
Qed.

End EstepProbabilities.

(** For a positive variance and an outlier weight in [0, 1), with kernel
    values that are not negative: the expectation step returns, every entry
    of [pt1] lies in (0, 1], no entry of [p1] is negative, and [n_p] is not
    negative. *)
Theorem estep_probabilities_in_range (R : realFieldType) (np_pi : R)
    (np_sqrt np_exp : R -> R) (np_power : R -> R -> R)
    (N M D : nat) (T : 'M[R]_(N, D)) (X : 'M[R]_(M, D)) (sigma2 w : R) :
  0 < np_pi -> (forall x y, 0 < x -> 0 <= np_power x y) ->
  (forall x, 0 <= np_exp x) ->
  0 < sigma2 -> 0 <= w < 1 -> (0 < M)%N ->
  exists (pt1v : 'rV[R]_M) (p1v : 'rV[R]_N) (pxv : 'M[R]_(N, D)) (n_pv : R),
    [/\ expectation_step np_pi np_sqrt np_exp np_power (Arr2 T) (Arr2 X)
          sigma2 w
        = Ok (mkEstepResult (Arr1 pt1v) (Arr1 p1v) (Arr2 pxv) n_pv),
        forall m, 0 < pt1v 0 m <= 1,
        forall n, 0 <= p1v 0 n
      & 0 <= n_pv].
Proof.
move=> pi0 pow0 exp0 s0 wr M0.
exists (estep_pt1 np_pi np_sqrt np_exp np_power T X sigma2 w),
       (estep_p1 np_pi np_sqrt np_exp np_power T X sigma2 w),
       (estep_px np_pi np_sqrt np_exp np_power T X sigma2 w),
       (estep_n_p np_pi np_sqrt np_exp np_power T X sigma2 w).
split.
- apply: expectation_step_typed => //.
  by case/andP: wr => _; rewrite lt_neqAle => /andP[].
- by move=> m; apply: estep_pt1_range.
- by move=> n; apply: estep_p1_ge0.
- exact: estep_n_p_ge0.
Qed.

Lemma half_in_range : 0 <= (1 / 2%:R : rat) < 1.
Proof. by rewrite divr_ge0 ?ler0n //= ltr_pdivrMr ?ltr0n // mul1r ltr1n. Qed.

Lemma estep_probabilities_in_range_witness :
  exists (pt1v : 'rV[rat]_2) (p1v : 'rV[rat]_2) (pxv : 'M[rat]_(2, 1))
         (n_pv : rat),
    [/\ expectation_step rat_pi rat_sqrt rat_exp rat_power
          (Arr2 line_source) (Arr2 line_target) 1 (1 / 2%:R)
        = Ok (mkEstepResult (Arr1 pt1v) (Arr1 p1v) (Arr2 pxv) n_pv),
        forall m, 0 < pt1v 0 m <= 1,
        forall n, 0 <= p1v 0 n
      & 0 <= n_pv].
Proof.
apply: estep_probabilities_in_range.
- exact: rat_pi_gt0.
- exact: rat_power_ge0.
- exact: rat_exp_ge0.
- exact: ltr01.
- exact: half_in_range.
- by [].
Defined.

(** With kernel values that are positive and a source that is not empty, no
    kernel sum is zero, and the total [n_p = sum(p1)] equals the sum of the
    entries of [pt1]; without outliers ([w = 0]) it is the number of target
    points. *)
Theorem estep_total_responsibility (R : realFieldType) (np_pi : R)
    (np_sqrt np_exp : R -> R) (np_power : R -> R -> R)
    (N M D : nat) (T : 'M[R]_(N, D)) (X : 'M[R]_(M, D)) (sigma2 w : R) :
  0 < np_pi -> (forall x y, 0 < x -> 0 <= np_power x y) ->
  (forall x, 0 < np_exp x) ->
  0 < sigma2 -> 0 <= w < 1 -> (0 < M)%N -> (0 < N)%N ->
  exists (pt1v : 'rV[R]_M) (p1v : 'rV[R]_N) (pxv : 'M[R]_(N, D)) (n_pv : R),
    [/\ expectation_step np_pi np_sqrt np_exp np_power (Arr2 T) (Arr2 X)
          sigma2 w
        = Ok (mkEstepResult (Arr1 pt1v) (Arr1 p1v) (Arr2 pxv) n_pv),
        n_pv = \sum_n p1v 0 n,
        n_pv = \sum_m pt1v 0 m
      & w = 0 -> n_pv = M%:R].
Proof.
move=> pi0 pow0 exp0 s0 wr M0 N0.
have exp_ge0 x : 0 <= np_exp x by apply/ltW/exp0.
have w1 : w != 1 by case/andP: wr => _; rewrite lt_neqAle => /andP[].
have kt1_ne0 m : estep_kt1 np_sqrt np_exp T X sigma2 0 m != 0.
  rewrite gt_eqF // /estep_kt1 mxE.
  case: N N0 T => [//|N'] _ T'; rewrite big_ord_recl.
  by rewrite ltr_wpDr ?exp0 //; apply: sumr_ge0 => n _; apply: exp_ge0.
have totalE := estep_n_p_total pi0 pow0 exp_ge0 s0 wr kt1_ne0.
exists (estep_pt1 np_pi np_sqrt np_exp np_power T X sigma2 w),
       (estep_p1 np_pi np_sqrt np_exp np_power T X sigma2 w),
       (estep_px np_pi np_sqrt np_exp np_power T X sigma2 w),
       (estep_n_p np_pi np_sqrt np_exp np_power T X sigma2 w).
split=> //; first exact: expectation_step_typed.
move=> w0; rewrite totalE.
rewrite (eq_bigr (fun=> 1)) ?sumr_const ?card_ord // => m _.
by rewrite /estep_pt1 mxE /estep_c w0 !(mul0r, mulr0) subr0.
Qed.

Lemma rat_exp_gt0 (x : rat) : 0 < rat_exp x.
Proof.
by rewrite /rat_exp divr_gt0 // ltr_pwDl // sqr_ge0.
Qed.

Lemma zero_in_range : 0 <= (0 : rat) < 1.
Proof. by rewrite lexx ltr01. Qed.

Lemma estep_total_responsibility_witness :
  exists (pt1v : 'rV[rat]_2) (p1v : 'rV[rat]_2) (pxv : 'M[rat]_(2, 1))
         (n_pv : rat),
    [/\ expectation_step rat_pi rat_sqrt rat_exp rat_power
          (Arr2 line_source) (Arr2 line_target) 1 0
        = Ok (mkEstepResult (Arr1 pt1v) (Arr1 p1v) (Arr2 pxv) n_pv),
        n_pv = \sum_n p1v 0 n,
        n_pv = \sum_m pt1v 0 m
      & (0 : rat) = 0 -> n_pv = 2%:R].
Proof.
apply: estep_total_responsibility.
- exact: rat_pi_gt0.
- exact: rat_power_ge0.
- exact: rat_exp_gt0.
- exact: ltr01.
- exact: zero_in_range.
- by [].
- by [].
Defined.

(** The divisions of the expectation step are divisions of Python numbers:
    an outlier weight of exactly 1, or a target without points, ends the
    step with [ZeroDivisionError], whatever the other arguments. *)
Theorem estep_division_by_zero (R : realFieldType) (np_pi : R)
    (np_sqrt np_exp : R -> R) (np_power : R -> R -> R)
    (N M D D' : nat) (T : 'M[R]_(N, D)) (X : 'M[R]_(M, D')) (sigma2 w : R) :
  (w == 1) || (M == 0)%N ->
  expectation_step np_pi np_sqrt np_exp np_power (Arr2 T) (Arr2 X) sigma2 w
  = Raise ZeroDivisionError.
Proof.
move=> h; rewrite /expectation_step /shape_at /py_div /= subr_eq0 eq_sym.
case: (w == 1) h => //= M0.
by rewrite pnatr_eq0 M0.
Qed.

Definition no_points : 'M[rat]_(0, 1) := 0.

Lemma estep_division_by_zero_witness :
  expectation_step rat_pi rat_sqrt rat_exp rat_power
    (Arr2 line_source) (Arr2 no_points) 1 0
  = Raise ZeroDivisionError.
Proof. by apply: estep_division_by_zero; rewrite orbT. Defined.

(** ** Statistics that do not fit the source *)

(** The rigid and the affine maximization step, given a [p1] whose length is
    not the number of source points: [np.dot(source.T, p1)] cannot be formed,
    and the step raises [ValueError], whatever the other statistics. *)
Theorem mstep_rejects_foreign_statistics (R : realFieldType)
    (np_log : R -> R)
    (np_linalg_svd : ndarray R -> result (ndarray R * ndarray R * ndarray R))
    (N N' N'' D D'' : nat) (S : 'M[R]_(N, D)) (target pt1 : ndarray R)
    (p1 : 'rV[R]_N') (px : 'M[R]_(N'', D'')) (n_p : R)
    (sigma2_p : option R) :
  N' != N ->
  RigidCPD__maximization_step np_log np_linalg_svd (Arr2 S) target
    (mkEstepResult pt1 (Arr1 p1) (Arr2 px) n_p) sigma2_p
  = Raise (ValueError aligned_msg)
  /\ AffineCPD__maximization_step np_log (Arr2 S) target
       (mkEstepResult pt1 (Arr1 p1) (Arr2 px) n_p) sigma2_p
     = Raise (ValueError aligned_msg).
Proof.
move=> neN; split.
  rewrite /RigidCPD__maximization_step /shape_at /=.
  by rewrite {1}/np_dot eq_sym (negPf neN).
rewrite /AffineCPD__maximization_step /shape_at /=.
by rewrite {1}/np_dot eq_sym (negPf neN).
Qed.

Lemma mstep_rejects_foreign_statistics_witness :
  RigidCPD__maximization_step rat_log (@svd_1x1 _) (Arr2 planar_source)
    (Arr2 line_target)
    (mkEstepResult (Arr1 line_ones) (Arr1 line_ones) (Arr2 line_px) 2) None
  = Raise (ValueError aligned_msg)
  /\ AffineCPD__maximization_step rat_log (Arr2 planar_source)
       (Arr2 line_target)
       (mkEstepResult (Arr1 line_ones) (Arr1 line_ones) (Arr2 line_px) 2)
       None
     = Raise (ValueError aligned_msg).
Proof. by apply: mstep_rejects_foreign_statistics. Defined.

(** ** set_source *)

Section SetSource.

Variable R : realFieldType.
Variable gaussian_kernel : ndarray R -> R -> result (ndarray R).

(** An object of the class and with the parameters of [self], constructed
    with [source]. *)
Definition constructed_like (self : cpd R) (source : ndarray R) :
    result (cpd R) :=
  match self with
  | RigidObj _ => Ok (RigidCPD (Some source))
  | AffineObj _ => Ok (AffineCPD (Some source))
  | NonRigidObj _ beta lmd _ => NonRigidCPD gaussian_kernel (Some source) beta lmd
  end.

End SetSource.

(** [set_source] leaves nothing of the previous source: it returns exactly
    when constructing an object of the same class and parameters with the new
    source does, and the object is then that one.  On a rigid or an affine
    object it always returns. *)
Theorem set_source_as_constructed (R : realFieldType)
    (gaussian_kernel : ndarray R -> R -> result (ndarray R))
    (self : cpd R) (source : ndarray R) :
  match constructed_like gaussian_kernel self source with
  | Ok self' => set_source gaussian_kernel self source = (self', Ok tt)
  | Raise e =>
      is_nonrigid self
      /\ (set_source gaussian_kernel self source).2 = Raise e
  end.
Proof.
case: self => [s|s|s beta lmd g] //=.
by case: (gaussian_kernel source beta).
Qed.

(** ** Keyword arguments of the entry point *)

(** Keyword arguments go to the constructor of the variant.  The rigid and
    the affine constructor have none: any keyword ends the call with
    [TypeError] before anything runs.  The non-rigid constructor takes
    [beta] and [lmd], with the default 2.0 for one that is not given, and
    refuses every other keyword. *)
Theorem registration_cpd_keywords (R : realFieldType)
    (np_pi : R) (np_sqrt np_log np_exp : R -> R) (np_power : R -> R -> R)
    (np_linalg_svd : ndarray R -> result (ndarray R * ndarray R * ndarray R))
    (tf_transform : transformation R -> ndarray R -> result (ndarray R))
    (msn_all_combination : ndarray R -> ndarray R -> result R)
    (gaussian_kernel : ndarray R -> R -> result (ndarray R))
    (source target : ndarray R) (w : R) (max_iteration : int) (tol : R)
    (key : string) (value beta lmd : R) (kargs : kwargs R) :
  let entry := registration_cpd np_pi np_sqrt np_log np_exp np_power
                 np_linalg_svd tf_transform msn_all_combination
                 gaussian_kernel source target in
  let run obj := registration np_pi np_sqrt np_log np_exp np_power
                   np_linalg_svd tf_transform msn_all_combination obj target
                   w max_iteration tol in
  [/\ entry "rigid"%string w max_iteration tol ((key, value) :: kargs)
      = Raise TypeError
      /\ entry "affine"%string w max_iteration tol ((key, value) :: kargs)
         = Raise TypeError,
      entry "nonrigid"%string w max_iteration tol
        [:: ("beta"%string, beta); ("lmd"%string, lmd)]
      = (obj <- NonRigidCPD gaussian_kernel (Some source) beta lmd ;; run obj),
      entry "nonrigid"%string w max_iteration tol [:: ("lmd"%string, lmd)]
      = (obj <- NonRigidCPD gaussian_kernel (Some source) 2 lmd ;; run obj),
      entry "nonrigid"%string w max_iteration tol [:: ("beta"%string, beta)]
      = (obj <- NonRigidCPD gaussian_kernel (Some source) beta 2 ;; run obj)
    & kw_only [:: "beta"%string; "lmd"%string] kargs = false ->
      entry "nonrigid"%string w max_iteration tol kargs = Raise TypeError].
Proof.
move=> entry run; split=> //.
by rewrite /entry /registration_cpd /= /NonRigidCPD_kw => ->.
Qed.

(** ** The non-rigid step on points of a line *)

Section NonRigidLine.

Variable R : realFieldType.

(** An array with one column is repeated along the columns of the other
    operand. *)
Lemma np_binop_2c (f : R -> R -> R) (m n : nat) (A : 'M[R]_(m, n))
    (B : 'M[R]_(m, 1)) :
  np_binop f (Arr2 A) (Arr2 B) = Ok (Arr2 (\matrix_(i, j) f (A i j) (B i 0))).
Proof.
rewrite /np_binop /= bdimxx bdim_n1 /=; congr (Ok (Arr2 _)).
apply/matrixP => i j; rewrite !mxE !bidx_ord mgetE /bidx eqxx.
by rewrite (mgetE B i 0).
Qed.

Lemma np_binop_c2 (f : R -> R -> R) (m n : nat) (A : 'M[R]_(m, 1))
    (B : 'M[R]_(m, n)) :
  np_binop f (Arr2 A) (Arr2 B) = Ok (Arr2 (\matrix_(i, j) f (A i 0) (B i j))).
Proof.
rewrite /np_binop /= bdimxx bdim_1n /=; congr (Ok (Arr2 _)).
apply/matrixP => i j; rewrite !mxE !bidx_ord mgetE /bidx eqxx.
by rewrite (mgetE A i 0).
Qed.

Variables (N M : nat).
Variables (S : 'M[R]_(N, 1)) (X : 'M[R]_(M, 1)).
Variables (pt1 : 'rV[R]_M) (p1 : 'rV[R]_N) (px : 'M[R]_(N, 1)) (n_p : R).
Variables (g : 'M[R]_N) (lmd s2p : R).

(** [dp1_inv * px - source] for arrays of one column: N x N. *)
Definition column_rhs : 'M[R]_N :=
  \matrix_(i, j) (dp1_inv p1 i j * px i 0 - S i 0).

Definition column_w : 'M[R]_N :=
  invmx (nonrigid_lhs p1 g lmd s2p) *m column_rhs.

Definition column_t : 'M[R]_N := \matrix_(i, j) (S i 0 + (g *m column_w) i j).

Definition column_sigma2 : R :=
  (\tr (X^T *m diag_mx pt1 *m X)
   - 2 * (\sum_(i < minn 1 N) mget (px^T *m column_t) i i)
   + \tr (column_t^T *m diag_mx p1 *m column_t)) / (n_p * 1%:R).

Lemma nonrigid_mstep_column :
  NonRigidCPD__maximization_step (Arr2 S) (Arr2 X)
    (typed_estep pt1 p1 px n_p) (Some s2p) (Some (Arr2 g)) lmd =
  if nonrigid_lhs p1 g lmd s2p \in unitmx then
    Ok (mkMstepResult (NonRigidTransformation (Some (Arr2 g)) (Arr2 column_w))
          column_sigma2 column_sigma2)
  else Raise LinAlgError.
Proof.
rewrite /NonRigidCPD__maximization_step /typed_estep /shape_at /=.
rewrite np_add_22 bindE /np_mul np_binop_2c bindE /np_sub np_binop_2c bindE.
rewrite -/(dp1_inv p1) -/(nonrigid_lhs p1 g lmd s2p).
have -> : \matrix_(i, j) ((\matrix_(i0, j0) (dp1_inv p1 i0 j0 * px i0 0)) i j
                           - S i 0) = column_rhs.
  by apply/matrixP => i j; rewrite !mxE.
rewrite np_linalg_solve_22; case: ifP => // _; rewrite bindE -/column_w.
rewrite np_dot_22 bindE /np_add np_binop_c2 bindE -/column_t.
rewrite -/(np_mul _ _) np_mul_21 bindE np_dot_22 bindE np_trace_sq bindE.
rewrite np_dot_22 bindE {1}/np_trace bindE.
by rewrite -/(np_mul _ _) np_mul_21 bindE np_dot_22 bindE np_trace_sq bindE.
Qed.

Lemma column_w_system :
  nonrigid_lhs p1 g lmd s2p \in unitmx ->
  nonrigid_lhs p1 g lmd s2p *m column_w
  = \matrix_(i, j) ((if i == j then px i 0 / p1 0 i else 0) - S i 0).
Proof.
move=> u; rewrite /column_w mulKVmx //.
apply/matrixP => i j; rewrite /column_rhs /dp1_inv !mxE; congr (_ - _).
case: (i == j); rewrite ?mulr1n ?mulr0n ?mul0r //.
by rewrite mul1r mulrC.
Qed.

End NonRigidLine.

(** For point sets on a line (D = 1) the non-rigid maximization step does
    not stop on its right-hand side: [dp1_inv * px - source] is formed by
    repeating the single column of [px] and of the source, the step returns
    exactly when the matrix of the system is invertible, and the coefficients
    it returns are an N x N array, the solution of the system whose
    right-hand side holds [px i / p1 i - source i] on the diagonal and
    [- source i] elsewhere in row [i]. *)
Theorem nonrigid_step_on_a_line (R : realFieldType) (N M : nat)
    (S : 'M[R]_(N, 1)) (X : 'M[R]_(M, 1)) (pt1 : 'rV[R]_M) (p1 : 'rV[R]_N)
    (px : 'M[R]_(N, 1)) (n_p : R) (g : 'M[R]_N) (lmd sigma2_prev : R) :
  let step := NonRigidCPD__maximization_step (Arr2 S) (Arr2 X)
                (typed_estep pt1 p1 px n_p) (Some sigma2_prev)
                (Some (Arr2 g)) lmd in
  is_ok step = (nonrigid_lhs p1 g lmd sigma2_prev \in unitmx)
  /\ forall res, step = Ok res ->
       exists W : 'M[R]_N,
         [/\ mstep_transformation res
             = NonRigidTransformation (Some (Arr2 g)) (Arr2 W),
             shape (Arr2 W) = [:: N; N]
           & nonrigid_lhs p1 g lmd sigma2_prev *m W
             = \matrix_(i, j) ((if i == j then px i 0 / p1 0 i else 0)
                               - S i 0)].
Proof.
move=> step; rewrite /step nonrigid_mstep_column.
case: ifP => u; split=> // res [<-] /=.
exists (column_w S p1 px g lmd sigma2_prev); split=> //.
exact: column_w_system.
Qed.

(** Two points on a line, with the identity as kernel matrix: the matrix of
    the system is 3 I, and the step returns. *)
Lemma line_lhs :
  nonrigid_lhs line_ones (1%:M : 'M[rat]_2) 2 1 = 3%:R%:M.
Proof.
apply/matrixP => i j; rewrite /nonrigid_lhs /dp1_inv /line_ones !mxE.
by case: (i == j); vm_compute.
Qed.

Lemma nonrigid_step_on_a_line_example :
  is_ok (NonRigidCPD__maximization_step (Arr2 line_source) (Arr2 line_target)
           (typed_estep line_ones line_ones line_px 2) (Some 1)
           (Some (Arr2 (1%:M : 'M[rat]_2))) 2).
Proof.
rewrite nonrigid_mstep_column line_lhs.
have -> // : (3%:R%:M : 'M[rat]_2) \in unitmx.
by rewrite unitmxE det_scalar unitfE expf_neq0.
Qed.

(** ** What the transformation of a step depends on *)

(** The rigid and the affine maximization step use the target and [pt1] for
    the variance and the objective only: with the same source, [p1], [px]
    and [n_p], two targets (of any numbers of points) and two vectors [pt1]
    give steps that return together and return the same transformation. *)
Theorem mstep_transformation_ignores_target (R : realFieldType)
    (np_log : R -> R)
    (np_linalg_svd : ndarray R -> result (ndarray R * ndarray R * ndarray R))
    (N M M' D : nat) (S : 'M[R]_(N, D)) (X : 'M[R]_(M, D))
    (X' : 'M[R]_(M', D)) (pt1 : 'rV[R]_M) (pt1' : 'rV[R]_M')
    (p1 : 'rV[R]_N) (px : 'M[R]_(N, D)) (n_p : R)
    (sigma2_p sigma2_p' : option R) :
  svd_contract np_linalg_svd -> (0 < D)%N ->
  let rigid := RigidCPD__maximization_step np_log np_linalg_svd (Arr2 S) in
  let affine := AffineCPD__maximization_step np_log (Arr2 S) in
  let e := typed_estep pt1 p1 px n_p in
  let e' := typed_estep pt1' p1 px n_p in
  [/\ is_ok (rigid (Arr2 X) e sigma2_p) = is_ok (rigid (Arr2 X') e' sigma2_p'),
      forall res res',
        rigid (Arr2 X) e sigma2_p = Ok res ->
        rigid (Arr2 X') e' sigma2_p' = Ok res' ->
        mstep_transformation res = mstep_transformation res',
      is_ok (affine (Arr2 X) e sigma2_p) = is_ok (affine (Arr2 X') e' sigma2_p')
    & forall res res',
        affine (Arr2 X) e sigma2_p = Ok res ->
        affine (Arr2 X') e' sigma2_p' = Ok res' ->
        mstep_transformation res = mstep_transformation res'].
Proof.
move=> svdP D0 rigid affine e e'.
rewrite /rigid /affine /e /e' {rigid affine e e'}.
set step := RigidCPD__maximization_step _ _ _ (Arr2 X) _ _.
set step' := RigidCPD__maximization_step _ _ _ (Arr2 X') _ _.
have rigidE :
  match np_linalg_svd (Arr2 (cross_cov S p1 px n_p)) with
  | Ok _ => exists t s s' q q',
      step = Ok (mkMstepResult t s q) /\ step' = Ok (mkMstepResult t s' q')
  | Raise err => step = Raise err /\ step' = Raise err
  end.
  have := rigid_step_cases np_log svdP S X D0 pt1 p1 px n_p sigma2_p.
  have := rigid_step_cases np_log svdP S X' D0 pt1' p1 px n_p sigma2_p'.
  rewrite -/step -/step'.
  case svdE: (np_linalg_svd _) => [[[u s] vh]|err]; last first.
    by move=> h' h; split; [exact: h | exact: h'].
  move=> _ _.
  have [U [sv [Vh [[eu es evh] _]]]] := svdP _ _ _ _ _ svdE.
  rewrite eu evh in svdE.
  rewrite /step /step' (rigid_mstep_typed np_log X pt1 sigma2_p D0 svdE).
  rewrite (rigid_mstep_typed np_log X' pt1' sigma2_p' D0 svdE).
  by do 5!eexists.
split.
- move: rigidE; case: (np_linalg_svd _) => [_ [t [s [s' [q [q' [-> ->]]]]]]|err].
    by [].
  by move=> [-> ->].
- move=> res res'.
  move: rigidE; case: (np_linalg_svd _) => [_ [t [s [s' [q [q' [-> ->]]]]]]|err].
    by move=> [<-] [<-].
  by move=> [-> _].
- by rewrite !affine_mstep_typed; case: ifP.
- move=> res res'; rewrite !affine_mstep_typed.
  by case: ifP => // _ [<-] [<-].
Qed.

Lemma mstep_transformation_ignores_target_witness :
  let rigid := RigidCPD__maximization_step rat_log (@svd_1x1 _)
                 (Arr2 line_source) in
  let affine := AffineCPD__maximization_step rat_log (Arr2 line_source) in
  let e := typed_estep line_ones line_ones line_px 2 in
  [/\ is_ok (rigid (Arr2 line_target) e None)
      = is_ok (rigid (Arr2 line_points) e (Some 1)),
      forall res res',
        rigid (Arr2 line_target) e None = Ok res ->
        rigid (Arr2 line_points) e (Some 1) = Ok res' ->
        mstep_transformation res = mstep_transformation res',
      is_ok (affine (Arr2 line_target) e None)
      = is_ok (affine (Arr2 line_points) e (Some 1))
    & forall res res',
        affine (Arr2 line_target) e None = Ok res ->
        affine (Arr2 line_points) e (Some 1) = Ok res' ->
        mstep_transformation res = mstep_transformation res'].
Proof.
apply: mstep_transformation_ignores_target; [exact: svd_1x1_contract | by []].
Defined.

(** ** The affine step on an exact affine image *)

Section ExactAffineImage.

Variable R : realFieldType.
Variables (N D : nat) (S : 'M[R]_(N, D)) (B0 : 'M[R]_D) (t0 : 'rV[R]_D).
Variable p1 : 'rV[R]_N.

(** Every source point [i] is matched with weight [p1 i] to its own image
    under [y |-> B0 y + t0]. *)
Let X : 'M[R]_(N, D) := S *m B0^T + const_mx 1 *m t0.
Let px : 'M[R]_(N, D) := diag_mx p1 *m X.
Let n_p : R := \sum_i p1 0 i.

Hypothesis n_p_ne0 : n_p != 0.

Let Y := source_hat S p1 n_p.

Lemma map_mx_div (m n : nat) (A : 'M[R]_(m, n)) (c : R) :
  map_mx (fun x => x / c) A = c^-1 *: A.
Proof. by apply/matrixP => i j; rewrite !mxE mulrC. Qed.

Lemma ones_mul_diag : const_mx 1 *m diag_mx p1 = p1.
Proof. by apply/rowP => j; rewrite mul_mx_diag !mxE mul1r. Qed.

Lemma weights_mul_ones : p1 *m (const_mx 1 : 'M[R]_(N, 1)) = n_p%:M.
Proof.
apply/matrixP => i j; rewrite !ord1 !mxE eqxx mulr1n.
by apply: eq_bigr => k _; rewrite mxE mulr1.
Qed.

Lemma column_sums (A : 'M[R]_(N, D)) :
  \row_j \sum_i A i j = const_mx 1 *m A.
Proof.
apply/rowP => j; rewrite !mxE; apply: eq_bigr => i _.
by rewrite mxE mul1r.
Qed.

(** The weighted mean of the centred source is zero. *)
Lemma weights_mul_source_hat : p1 *m Y = 0.
Proof.
rewrite /Y /source_hat mulmxBr mulmxA weights_mul_ones mul_scalar_mx.
by rewrite /mu_y map_mx_div scalerA divff // scale1r subrr.
Qed.

Lemma exact_mu_x : mu_x px n_p = mu_y S p1 n_p *m B0^T + t0.
Proof.
rewrite /mu_x /mu_y !map_mx_div column_sums /px mulmxA ones_mul_diag.
rewrite /X mulmxDr !mulmxA weights_mul_ones mul_scalar_mx scalerDr.
by rewrite scalerA mulVf // scale1r scalemxAl.
Qed.

Lemma source_hat_tr : Y^T = S^T - (mu_y S p1 n_p)^T *m const_mx 1.
Proof. by rewrite /Y /source_hat linearB /= trmx_mul trmx_const. Qed.

Lemma exact_yp1y : mx_yp1y S p1 n_p = S^T *m diag_mx p1 *m Y.
Proof.
rewrite /mx_yp1y -/Y source_hat_tr !mulmxBl -!mulmxA.
rewrite (mulmxA (const_mx 1) (diag_mx p1)) ones_mul_diag.
by rewrite weights_mul_source_hat !mulmx0 subr0.
Qed.

Lemma exact_cross_cov : cross_cov S p1 px n_p = B0 *m mx_yp1y S p1 n_p.
Proof.
rewrite /cross_cov -/Y weights_mul_source_hat mulmx0 subr0 exact_yp1y.
have -> : px^T = B0 *m S^T *m diag_mx p1 + t0^T *m p1.
  rewrite /px trmx_mul tr_diag_mx /X linearD /= !trmx_mul trmxK trmx_const.
  by rewrite mulmxDl -!mulmxA ones_mul_diag.
by rewrite mulmxDl -!mulmxA weights_mul_source_hat mulmx0 addr0.
Qed.

Hypothesis yp1y_unit : mx_yp1y S p1 n_p \in unitmx.

Lemma exact_affine_b : affine_b S p1 px n_p = B0.
Proof.
have u : (mx_yp1y S p1 n_p)^T \in unitmx by rewrite unitmx_tr.
have := affine_b_system px u.
rewrite exact_cross_cov.
move/(congr1 (fun Z => Z *m invmx (mx_yp1y S p1 n_p))).
by rewrite !mulmxK.
Qed.

Lemma exact_affine_t : affine_t S p1 px n_p = t0.
Proof. by rewrite /affine_t exact_affine_b exact_mu_x addrC addKr. Qed.

Lemma exact_target_hat : target_hat X px n_p = Y *m B0^T.
Proof.
rewrite /target_hat exact_mu_x /X mulmxDr opprD addrACA subrr addr0.
by rewrite /Y /source_hat mulmxBl mulmxA.
Qed.

Lemma exact_affine_sigma2 : affine_sigma2 S X p1 p1 px n_p = 0.
Proof.
rewrite /affine_sigma2 /tr_xp1x /affine_tr_ab exact_target_hat.
rewrite exact_affine_b exact_cross_cov /mx_yp1y -/Y trmx_mul trmxK.
by rewrite !mulmxA subrr mul0r.
Qed.

End ExactAffineImage.

(** A round trip: when the target is the image of the source under an
    affine map [y |-> B0 y + t0], every source point is matched with its own
    image (with weight [p1 i], the total weight not being zero), and the
    weighted covariance of the source is invertible, the affine step returns
    exactly [B0] and [t0], and the variance 0. *)
Theorem affine_step_recovers_affine_map (R : realFieldType)
    (np_log : R -> R) (N D : nat) (S : 'M[R]_(N, D)) (B0 : 'M[R]_D)
    (t0 : 'rV[R]_D) (p1 : 'rV[R]_N) (sigma2_p : option R) :
  let X := S *m B0^T + const_mx 1 *m t0 in
  let n_p := \sum_i p1 0 i in
  n_p != 0 ->
  (source_hat S p1 n_p)^T *m diag_mx p1 *m source_hat S p1 n_p \in unitmx ->
  exists q_new,
    AffineCPD__maximization_step np_log (Arr2 S) (Arr2 X)
      (typed_estep p1 p1 (diag_mx p1 *m X) n_p) sigma2_p
    = Ok (mkMstepResult (AffineTransformation (Arr2 B0) (Arr1 t0)) 0 q_new).
Proof.
move=> X n_p n0 u.
rewrite affine_mstep_typed unitmx_tr /mx_yp1y u.
rewrite exact_affine_b // exact_affine_t // exact_affine_sigma2 //.
by eexists.
Qed.

Definition double_mx1 : 'M[rat]_1 := 2%:R%:M.

Lemma line_ones_total : \sum_i line_ones 0 i = 2%:R :> rat.
Proof. by rewrite /line_ones; mx_eval; vm_compute. Qed.

Lemma affine_step_recovers_affine_map_witness :
  exists q_new,
    AffineCPD__maximization_step rat_log (Arr2 line_source)
      (Arr2 (line_source *m double_mx1^T + const_mx 1 *m unit_row1))
      (typed_estep line_ones line_ones
         (diag_mx line_ones
            *m (line_source *m double_mx1^T + const_mx 1 *m unit_row1))
         (\sum_i line_ones 0 i)) None
    = Ok (mkMstepResult
            (AffineTransformation (Arr2 double_mx1) (Arr1 unit_row1))
            0 q_new).
Proof.
apply: affine_step_recovers_affine_map.
- by rewrite line_ones_total; vm_compute.
- rewrite line_ones_total -/(mx_yp1y line_source line_ones 2).
  by rewrite -unitmx_tr line_source_yp1y_unit.
Defined.

(** ** A target point without kernel mass *)

(** A target point whose kernel sum is exactly zero (every kernel value at it
    is zero: the source is too far for the floating-point exponential) is
    the only kind of point the clamp touches.  It adds nothing to [p1], [px]
    and [n_p]; its entry of [pt1] is [1 - c / (eps + c)] with
    [eps = np.finfo(np.float32).eps], which is 1 without outliers. *)
Theorem estep_point_without_kernel_mass (R : realFieldType) (np_pi : R)
    (np_sqrt np_exp : R -> R) (np_power : R -> R -> R)
    (N M D : nat) (T : 'M[R]_(N, D)) (X : 'M[R]_(M, D)) (sigma2 w : R)
    (m : 'I_M) :
  (forall x, 0 <= np_exp x) -> w != 1 ->
  estep_kt1 np_sqrt np_exp T X sigma2 0 m = 0 ->
  let K := estep_kernel np_sqrt np_exp T X sigma2 in
  let c := estep_c np_pi np_power N M D sigma2 w in
  let a := estep_a np_pi np_sqrt np_exp np_power T X sigma2 w in
  let e := estep_spec np_pi np_sqrt np_exp np_power T X sigma2 w in
  [/\ expectation_step np_pi np_sqrt np_exp np_power (Arr2 T) (Arr2 X)
        sigma2 w = Ok e,
      forall n, K m n = 0,
      at2 (pt1 e) 0 m = 1 - c / (finfo_float32_eps R + c)
      /\ (w = 0 -> at2 (pt1 e) 0 m = 1),
      forall n : 'I_N,
        at2 (p1 e) 0 n = \sum_(m' < M | m' != m) a 0 m' * K m' n
    & forall (n : 'I_N) (d : 'I_D),
        at2 (px e) n d = \sum_(m' < M | m' != m) (a 0 m' * X m' d) * K m' n].
Proof.
move=> exp0 w1 kt0 K c a e.
have K0 n : K m n = 0.
  move: kt0; rewrite /estep_kt1 mxE => /psumr_eq0P h.
  by apply: h => // n' _; apply: exp0.
have pt1E : estep_pt1 np_pi np_sqrt np_exp np_power T X sigma2 w 0 m
            = 1 - c / (finfo_float32_eps R + c).
  rewrite /estep_pt1 mxE /estep_a mxE /estep_denominator mxE.
  by rewrite /estep_kt1_clamped mxE kt0 /zero_to_eps eqxx mul1r.
split=> //.
- by apply: expectation_step_typed => //; apply: leq_ltn_trans (ltn_ord m).
- rewrite /e /= mget0E pt1E; split=> // w0.
  by rewrite /c /estep_c w0 !(mul0r, mulr0) subr0.
- move=> n; rewrite /e /= mget0E /estep_p1 mxE (bigD1 m) //=.
  by rewrite -/K K0 mulr0 add0r.
- move=> n d; rewrite /e /= mgetE /estep_px mxE (bigD1 m) //=.
  by rewrite -/K K0 mulr0 add0r.
Qed.

(** An exponential that underflows: zero below -1. *)
Definition cut_exp (x : rat) : rat := if x < -1 then 0 else 1.

Lemma cut_exp_ge0 (x : rat) : 0 <= cut_exp x.
Proof. by rewrite /cut_exp; case: ifP. Qed.

Definition far_point : 'M[rat]_(1, 1) := const_mx 10%:R.
Definition origin_point : 'M[rat]_(1, 1) := 0.

Lemma far_point_kt1 : estep_kt1 rat_sqrt cut_exp origin_point far_point 1 0 0 = 0.
Proof.
rewrite /estep_kt1 mxE big_ord1 /estep_kernel /estep_h big_ord1.
rewrite /far_point /origin_point !mxE /cut_exp /rat_sqrt.
by have -> : (- (10%:R - 0) ^+ 2 / ((1 + 2 * 1) / 2) ^+ 2 < -1 :> rat) = true
  by vm_compute.
Qed.

Lemma estep_point_without_kernel_mass_witness :
  let K := estep_kernel rat_sqrt cut_exp origin_point far_point 1 in
  let c := estep_c rat_pi rat_power 1 1 1 1 0 in
  let a := estep_a rat_pi rat_sqrt cut_exp rat_power origin_point far_point
             1 0 in
  let e := estep_spec rat_pi rat_sqrt cut_exp rat_power origin_point
             far_point 1 0 in
  [/\ expectation_step rat_pi rat_sqrt cut_exp rat_power (Arr2 origin_point)
        (Arr2 far_point) 1 0 = Ok e,
      forall n, K ord0 n = 0,
      at2 (pt1 e) 0 (ord0 : 'I_1) = 1 - c / (finfo_float32_eps rat + c)
      /\ ((0 : rat) = 0 -> at2 (pt1 e) 0 (ord0 : 'I_1) = 1),
      forall n : 'I_1,
        at2 (p1 e) 0 n = \sum_(m' < 1 | m' != ord0) a 0 m' * K m' n
    & forall (n : 'I_1) (d : 'I_1),
        at2 (px e) n d
        = \sum_(m' < 1 | m' != ord0) (a 0 m' * far_point m' d) * K m' n].
Proof.
apply: estep_point_without_kernel_mass.
- exact: cut_exp_ge0.
- by rewrite eq_sym oner_neq0.
- exact: far_point_kt1.
Defined.

(** ** How a registration on well-formed point sets can end *)

Lemma maximization_step_affine (R : realFieldType) (np_log : R -> R)
    (np_linalg_svd : ndarray R -> result (ndarray R * ndarray R * ndarray R))
    (source target : ndarray R) (estep_res : EstepResult R)
    (sigma2_p : option R) :
  maximization_step np_log np_linalg_svd (AffineObj (Some source)) target
    estep_res sigma2_p
  = AffineCPD__maximization_step np_log source target estep_res sigma2_p.
Proof. by []. Qed.

Lemma maximization_step_nonrigid (R : realFieldType) (np_log : R -> R)
    (np_linalg_svd : ndarray R -> result (ndarray R * ndarray R * ndarray R))
    (source target : ndarray R) (beta lmd : R) (g : option (ndarray R))
    (estep_res : EstepResult R) (sigma2_p : option R) :
  maximization_step np_log np_linalg_svd (NonRigidObj (Some source) beta lmd g)
    target estep_res sigma2_p
  = NonRigidCPD__maximization_step source target estep_res sigma2_p g lmd.
Proof. by []. Qed.

Section FailureModes.

Variable R : realFieldType.
Variable np_pi : R.
Variables np_sqrt np_log np_exp : R -> R.
Variable np_power : R -> R -> R.
Variable np_linalg_svd : ndarray R -> result (ndarray R * ndarray R * ndarray R).
Variable tf_transform : transformation R -> ndarray R -> result (ndarray R).
Variable msn_all_combination : ndarray R -> ndarray R -> result R.

Variables (N M D : nat) (S : 'M[R]_(N, D)) (X : 'M[R]_(M, D)).
Variables (w tol : R).

(** The collaborators on well-formed point sets: the transformation keeps
    the shape of the source, and the decomposition of a D x D matrix returns
    D x D factors. *)
Definition keeps_shape : Prop :=
  forall t, exists T : 'M[R]_(N, D), tf_transform t (Arr2 S) = Ok (Arr2 T).

Definition svd_returns : Prop :=
  forall A : 'M[R]_D, exists (U Vh : 'M[R]_D) (sv : ndarray R),
    np_linalg_svd (Arr2 A) = Ok (Arr2 U, sv, Arr2 Vh).

Hypothesis tfP : keeps_shape.
Hypothesis w_ne1 : w != 1.
Hypothesis M_gt0 : (0 < M)%N.

Lemma rigid_iteration_returns (res : MstepResult R) :
  svd_returns -> (0 < D)%N ->
  is_ok (em_iteration np_pi np_sqrt np_log np_exp np_power np_linalg_svd
           tf_transform (RigidCPD (Some (Arr2 S))) (Arr2 X) w res).
Proof.
move=> svdP D0; rewrite /em_iteration /=.
have [T ->] := tfP (mstep_transformation res).
rewrite bindE expectation_step_typed // bindE maximization_step_rigid.
rewrite /estep_spec -/(typed_estep _ _ _ _).
have [U [Vh [sv svdE]]] := svdP (cross_cov S
  (estep_p1 np_pi np_sqrt np_exp np_power T X (sigma2 res) w)
  (estep_px np_pi np_sqrt np_exp np_power T X (sigma2 res) w)
  (estep_n_p np_pi np_sqrt np_exp np_power T X (sigma2 res) w)).
by rewrite (rigid_mstep_typed np_log X _ _ D0 svdE).
Qed.

Lemma affine_iteration_returns (res : MstepResult R) :
  match em_iteration np_pi np_sqrt np_log np_exp np_power np_linalg_svd
          tf_transform (AffineCPD (Some (Arr2 S))) (Arr2 X) w res with
  | Ok _ => True
  | Raise e => e = LinAlgError
  end.
Proof.
rewrite /em_iteration /=.
have [T ->] := tfP (mstep_transformation res).
rewrite bindE expectation_step_typed // bindE maximization_step_affine.
rewrite /estep_spec -/(typed_estep _ _ _ _) affine_mstep_typed.
by case: ifP.
Qed.

Lemma rigid_loop_returns (n : nat) (res : MstepResult R) (q0 : R) :
  svd_returns -> (0 < D)%N ->
  is_ok (registration_loop np_pi np_sqrt np_log np_exp np_power np_linalg_svd
           tf_transform (RigidCPD (Some (Arr2 S))) (Arr2 X) w tol n res q0).
Proof.
move=> svdP D0; elim: n res q0 => [|n IH] res q0 //=.
have := rigid_iteration_returns res svdP D0.
case: (em_iteration _ _ _ _ _ _ _ _ _ _ _) => [res'|e] //= _.
by case: ifP => // _; apply: IH.
Qed.

Lemma affine_loop_returns (n : nat) (res : MstepResult R) (q0 : R) :
  match registration_loop np_pi np_sqrt np_log np_exp np_power np_linalg_svd
          tf_transform (AffineCPD (Some (Arr2 S))) (Arr2 X) w tol n res q0
  with
  | Ok _ => True
  | Raise e => e = LinAlgError
  end.
Proof.
elim: n res q0 => [|n IH] res q0 //=.
have := affine_iteration_returns res.
case: (em_iteration _ _ _ _ _ _ _ _ _ _ _) => [res'|e] //= _.
by case: ifP => // _; apply: IH.
Qed.

Variables (beta lmd : R) (G : 'M[R]_N).

(** With a number of points that differs from the dimension, neither being
    1, the first iteration of the non-rigid variant stops in its
    maximization step. *)
Lemma nonrigid_iteration_raises (res : MstepResult R) :
  N != D -> N != 1%N -> D != 1%N ->
  em_iteration np_pi np_sqrt np_log np_exp np_power np_linalg_svd
    tf_transform (NonRigidObj (Some (Arr2 S)) beta lmd (Some (Arr2 G)))
    (Arr2 X) w res
  = Raise (ValueError broadcast_msg).
Proof.
move=> ND N1 D1; rewrite /em_iteration /=.
have [T ->] := tfP (mstep_transformation res).
rewrite bindE expectation_step_typed // bindE maximization_step_nonrigid.
rewrite /estep_spec -/(typed_estep _ _ _ _).
exact: nonrigid_mstep_broadcast_error.
Qed.

End FailureModes.

(** On well-formed point sets (a source of N and a target of M >= 1 points
    in D >= 1 dimensions, an outlier weight other than 1) and with
    collaborators that return (an initial variance, transformed sources of
    the shape of the source, decompositions with D x D factors), a
    registration of the rigid variant always returns a result, and a
    registration of the affine variant returns a result or raises
    [LinAlgError], from the linear system of its maximization step. *)
Theorem rigid_and_affine_failure_modes (R : realFieldType)
    (np_pi : R) (np_sqrt np_log np_exp : R -> R) (np_power : R -> R -> R)
    (np_linalg_svd : ndarray R -> result (ndarray R * ndarray R * ndarray R))
    (tf_transform : transformation R -> ndarray R -> result (ndarray R))
    (msn_all_combination : ndarray R -> ndarray R -> result R)
    (N M D : nat) (S : 'M[R]_(N, D)) (X : 'M[R]_(M, D)) (w tol s0 : R)
    (max_iteration : int) :
  keeps_shape tf_transform S -> svd_returns np_linalg_svd D ->
  msn_all_combination (Arr2 S) (Arr2 X) = Ok s0 ->
  w != 1 -> (0 < M)%N -> (0 < D)%N ->
  let run := registration np_pi np_sqrt np_log np_exp np_power np_linalg_svd
               tf_transform msn_all_combination in
  is_ok (run (RigidCPD (Some (Arr2 S))) (Arr2 X) w max_iteration tol)
  /\ match run (AffineCPD (Some (Arr2 S))) (Arr2 X) w max_iteration tol with
     | Ok _ => True
     | Raise e => e = LinAlgError
     end.
Proof.
move=> tfP svdP msnE w1 M0 D0 run; split.
  rewrite /run /registration /= /RigidCPD_initialize /shape_at /= msnE /=.
  exact: rigid_loop_returns.
rewrite /run /registration /= /AffineCPD_initialize /shape_at /= msnE /=.
exact: affine_loop_returns.
Qed.

Lemma still_transform_keeps_shape (N D : nat) (S : 'M[rat]_(N, D)) :
  keeps_shape still_transform S.
Proof. by move=> t; exists S. Qed.

Lemma svd_1x1_returns : svd_returns (@svd_1x1 rat) 1.
Proof. by move=> A; do 3!eexists; apply: svd_1x1E. Qed.

Lemma rigid_and_affine_failure_modes_witness :
  let run := registration rat_pi rat_sqrt rat_log rat_exp rat_power
               (@svd_1x1 _) still_transform unit_msn in
  is_ok (run (RigidCPD (Some (Arr2 line_source))) (Arr2 line_target) 0 50
           (1 / 1000%:R))
  /\ match run (AffineCPD (Some (Arr2 line_source))) (Arr2 line_target) 0 50
             (1 / 1000%:R) with
     | Ok _ => True
     | Raise e => e = LinAlgError
     end.
Proof.
apply: (@rigid_and_affine_failure_modes _ _ _ _ _ _ _ _ _ 2 2 1 _ _ _ _ 1).
- exact: still_transform_keeps_shape.
- exact: svd_1x1_returns.
- by [].
- by rewrite eq_sym oner_neq0.
- by [].
- by [].
Defined.

(** With a number of source points that differs from the dimension, neither
    being 1 (any point set in the plane or in space with more points than
    dimensions), a registration of the non-rigid variant that is allowed at
    least one iteration never returns: on well-formed point sets, with
    collaborators that return, its first maximization step raises
    [ValueError]; so does the entry point. *)
Theorem nonrigid_registration_raises (R : realFieldType)
    (np_pi : R) (np_sqrt np_log np_exp : R -> R) (np_power : R -> R -> R)
    (np_linalg_svd : ndarray R -> result (ndarray R * ndarray R * ndarray R))
    (tf_transform : transformation R -> ndarray R -> result (ndarray R))
    (msn_all_combination : ndarray R -> ndarray R -> result R)
    (gaussian_kernel : ndarray R -> R -> result (ndarray R))
    (N M D : nat) (S : 'M[R]_(N, D)) (X : 'M[R]_(M, D)) (G : 'M[R]_N)
    (w tol s0 beta lmd : R) (n : nat) :
  N != D -> N != 1%N -> D != 1%N ->
  keeps_shape tf_transform S ->
  gaussian_kernel (Arr2 S) beta = Ok (Arr2 G) ->
  msn_all_combination (Arr2 S) (Arr2 X) = Ok s0 ->
  w != 1 -> (0 < M)%N ->
  (forall self,
     NonRigidCPD gaussian_kernel (Some (Arr2 S)) beta lmd = Ok self ->
     registration np_pi np_sqrt np_log np_exp np_power np_linalg_svd
       tf_transform msn_all_combination self (Arr2 X) w (Posz n.+1) tol
     = Raise (ValueError broadcast_msg))
  /\ registration_cpd np_pi np_sqrt np_log np_exp np_power np_linalg_svd
       tf_transform msn_all_combination gaussian_kernel (Arr2 S) (Arr2 X)
       "nonrigid"%string w (Posz n.+1) tol
       [:: ("beta"%string, beta); ("lmd"%string, lmd)]
     = Raise (ValueError broadcast_msg).
Proof.
move=> ND N1 D1 tfP gkE msnE w1 M0.
have runE : registration np_pi np_sqrt np_log np_exp np_power np_linalg_svd
              tf_transform msn_all_combination
              (NonRigidObj (Some (Arr2 S)) beta lmd (Some (Arr2 G))) (Arr2 X)
              w (Posz n.+1) tol
            = Raise (ValueError broadcast_msg).
  rewrite /registration /= /NonRigidCPD_initialize /shape_at /= msnE /=.
  by rewrite nonrigid_iteration_raises.
split; first by move=> self; rewrite /NonRigidCPD gkE bindE => -[<-].
by rewrite /registration_cpd /= /NonRigidCPD_kw /= gkE bindE.
Qed.

Lemma identity_kernel_planar :
  identity_kernel (Arr2 planar_source) 2 = Ok (Arr2 (1%:M : 'M[rat]_3)).
Proof. by []. Qed.

Lemma nonrigid_registration_raises_witness :
  (forall self,
     NonRigidCPD identity_kernel (Some (Arr2 planar_source)) 2 2 = Ok self ->
     registration rat_pi rat_sqrt rat_log rat_exp rat_power (@svd_1x1 _)
       still_transform unit_msn self (Arr2 planar_source) 0 (Posz 50)
       (1 / 1000%:R)
     = Raise (ValueError broadcast_msg))
  /\ registration_cpd rat_pi rat_sqrt rat_log rat_exp rat_power (@svd_1x1 _)
       still_transform unit_msn identity_kernel (Arr2 planar_source)
       (Arr2 planar_source) "nonrigid"%string 0 (Posz 50) (1 / 1000%:R)
       [:: ("beta"%string, 2); ("lmd"%string, 2)]
     = Raise (ValueError broadcast_msg).
Proof.
apply: (@nonrigid_registration_raises _ _ _ _ _ _ _ _ _ _ 3 3 2 _ _ 1%:M
          _ _ 1 _ _ 49).
- by [].
- by [].
- by [].
- exact: still_transform_keeps_shape.
- exact: identity_kernel_planar.
- by [].
- by rewrite eq_sym oner_neq0.
- by [].
Defined.

(** ** The rigid step on an exact image, on a line *)

Section ExactLineImage.

Variable R : realFieldType.
Variables (N : nat) (S : 'M[R]_(N, 1)) (s0 t0 : R) (p1 : 'rV[R]_N).

Let X : 'M[R]_(N, 1) := \matrix_(i, j) (s0 * S i j + t0).
Let n_p : R := \sum_i p1 0 i.
Let px : 'M[R]_(N, 1) := diag_mx p1 *m X.

Hypothesis n_p_ne0 : n_p != 0.

Lemma line_image : X = S *m (s0%:M)^T + const_mx 1 *m (t0%:M : 'rV[R]_1).
Proof.
apply/matrixP => i j; rewrite !mxE !big_ord1 !mxE !ord1 /= !mulr1n.
by rewrite mulrC mul1r.
Qed.

Lemma line_cross_cov :
  cross_cov S p1 px n_p = s0%:M *m mx_yp1y S p1 n_p.
Proof. by rewrite /px line_image exact_cross_cov. Qed.

Lemma line_mu_x : mu_x px n_p = s0 *: mu_y S p1 n_p + t0%:M.
Proof.
by rewrite /px line_image exact_mu_x // tr_scalar_mx mul_mx_scalar.
Qed.

Lemma line_target_hat : target_hat X px n_p = s0 *: source_hat S p1 n_p.
Proof.
rewrite /px {1}line_image line_image exact_target_hat //.
by rewrite tr_scalar_mx mul_mx_scalar.
Qed.

Variables U Vh : 'M[R]_1.
Hypothesis U_orth : U *m U^T = 1%:M.
Hypothesis Vh_orth : Vh *m Vh^T = 1%:M.

Lemma line_rot : rigid_rot U Vh = 1%:M.
Proof.
have := rigid_rot_det U_orth Vh_orth (ltn0Sn 0).
rewrite det_mx11 => e; apply/matrixP => i j.
by rewrite !ord1 e mxE eqxx.
Qed.

Lemma line_tr_atr : rigid_tr_atr S p1 px n_p U Vh = s0 * tr_yp1y S p1 n_p.
Proof.
rewrite /rigid_tr_atr line_rot mulmx1 mxtrace_tr line_cross_cov.
by rewrite mul_scalar_mx mxtraceZ.
Qed.

Hypothesis yp1y_ne0 : tr_yp1y S p1 n_p != 0.

Lemma line_scale : rigid_scale S p1 px n_p U Vh = s0.
Proof. by rewrite /rigid_scale line_tr_atr mulfK. Qed.

Lemma line_t : rigid_t S p1 px n_p U Vh = t0%:M.
Proof.
rewrite /rigid_t line_scale line_rot trmx1 mulmx1 line_mu_x.
have -> : map_mx (fun x => s0 * x) (mu_y S p1 n_p) = s0 *: mu_y S p1 n_p.
  by apply/matrixP => i j; rewrite !mxE.
by rewrite addrC addKr.
Qed.

Lemma line_sigma2 : rigid_sigma2 S X p1 p1 px n_p U Vh = 0.
Proof.
rewrite /rigid_sigma2 line_scale line_tr_atr /tr_xp1x line_target_hat.
rewrite /tr_yp1y /mx_yp1y linearZ /= mxtraceZ.
by rewrite [(_ *: _)^T]linearZ /= -!scalemxAl mxtraceZ subrr mul0r.
Qed.

End ExactLineImage.

(** A round trip on a line: when the target is the image of the source under
    [y |-> s0 y + t0] (any real [s0], a reflection included), every source
    point is matched with its own image (with weight [p1 i], the total not
    being zero) and the weighted variance of the source is not zero, a rigid
    step that returns, with a decomposition that keeps numpy's contract,
    returns the rotation [[1]], the scale [s0] (negative for a reflection),
    the translation [t0], and the variance 0. *)
Theorem rigid_step_recovers_map_on_a_line (R : realFieldType)
    (np_log : R -> R)
    (np_linalg_svd : ndarray R -> result (ndarray R * ndarray R * ndarray R))
    (N : nat) (S : 'M[R]_(N, 1)) (s0 t0 : R) (p1 : 'rV[R]_N)
    (sigma2_p : option R) (res : MstepResult R) :
  let X : 'M[R]_(N, 1) := \matrix_(i, j) (s0 * S i j + t0) in
  let n_p := \sum_i p1 0 i in
  svd_contract np_linalg_svd -> n_p != 0 ->
  \tr ((source_hat S p1 n_p)^T *m diag_mx p1 *m source_hat S p1 n_p) != 0 ->
  RigidCPD__maximization_step np_log np_linalg_svd (Arr2 S) (Arr2 X)
    (typed_estep p1 p1 (diag_mx p1 *m X) n_p) sigma2_p = Ok res ->
  mstep_transformation res
  = RigidTransformation (Arr2 (1%:M : 'M[R]_1)) (Arr1 (t0%:M : 'rV[R]_1)) s0
  /\ sigma2 res = 0.
Proof.
move=> X n_p svdP n0 y0.
have := rigid_step_cases np_log svdP S X (ltn0Sn 0) p1 p1 (diag_mx p1 *m X)
          n_p sigma2_p.
case: (np_linalg_svd _) => [usv [U [Vh [UU VV ->]]] [<-] /=|e -> //].
by rewrite line_rot // line_scale // line_t // line_sigma2.
Qed.

(** The line reflected: [y |-> 1 - y]. *)
Definition reflected_line : 'M[rat]_(2, 1) :=
  \matrix_(i, j) (-1 * line_source i j + 1).

Lemma rigid_step_recovers_map_on_a_line_witness :
  exists res,
    RigidCPD__maximization_step rat_log (@svd_1x1 _) (Arr2 line_source)
      (Arr2 reflected_line)
      (typed_estep line_ones line_ones (diag_mx line_ones *m reflected_line)
         (\sum_i line_ones 0 i)) None = Ok res
    /\ (mstep_transformation res
        = RigidTransformation (Arr2 (1%:M : 'M[rat]_1))
            (Arr1 (1%:M : 'rV[rat]_1)) (-1)
        /\ sigma2 res = 0).
Proof.
have stepE := rigid_mstep_typed rat_log reflected_line line_ones None
  (ltn0Sn 0)
  (svd_1x1E (cross_cov line_source line_ones
               (diag_mx line_ones *m reflected_line) (\sum_i line_ones 0 i))).
eexists; split; first exact: stepE.
apply: (rigid_step_recovers_map_on_a_line _ _ _ stepE).
- exact: svd_1x1_contract.
- by rewrite line_ones_total; vm_compute.
- rewrite line_ones_total -/(mx_yp1y line_source line_ones 2).
  by rewrite -/(tr_yp1y line_source line_ones 2) line_source_tr_yp1y; vm_compute.
Defined.

(** ** The variance of a maximization step (C6), on every shape

    The non-rigid step returns on three kinds of shapes: as many points as
    dimensions, points on a line, and a single point.  On every other shape
    it raises (C2). *)

Section NonRigidSingle.

Variable R : realFieldType.

(** An array of one entry is repeated along both axes of the other
    operand. *)
Lemma np_binop_s2 (f : R -> R -> R) (n : nat) (A : 'M[R]_(1, 1))
    (B : 'M[R]_(1, n)) :
  np_binop f (Arr2 A) (Arr2 B) = Ok (Arr2 (\matrix_(i, j) f (A 0 0) (B i j))).
Proof.
rewrite /np_binop /nrows /ncols bdimxx bdim_1n /=; congr (Ok (Arr2 _)).
apply/matrixP => i j; rewrite !mxE !bidx_ord /bidx eqxx.
by rewrite (mgetE A i 0) (mgetE B i j) !ord1.
Qed.

Variables (M D : nat).
Variables (S : 'M[R]_(1, D)) (X : 'M[R]_(M, D)).
Variables (pt1 : 'rV[R]_M) (p1 : 'rV[R]_1) (px : 'M[R]_(1, D)) (n_p : R).
Variables (g : 'M[R]_1) (lmd s2p : R).

(** [dp1_inv * px - source] for a single point: 1 x D. *)
Definition single_rhs : 'M[R]_(1, D) :=
  \matrix_(i, j) (dp1_inv p1 0 0 * px i j) - S.

Definition single_w : 'M[R]_(1, D) :=
  invmx (nonrigid_lhs p1 g lmd s2p) *m single_rhs.

Definition single_t : 'M[R]_(1, D) := S + g *m single_w.

Definition single_residual : R :=
  \tr (X^T *m diag_mx pt1 *m X) - 2 * \tr (px^T *m single_t)
  + \tr (single_t^T *m diag_mx p1 *m single_t).

Lemma nonrigid_mstep_single :
  NonRigidCPD__maximization_step (Arr2 S) (Arr2 X)
    (typed_estep pt1 p1 px n_p) (Some s2p) (Some (Arr2 g)) lmd =
  if nonrigid_lhs p1 g lmd s2p \in unitmx then
    Ok (mkMstepResult (NonRigidTransformation (Some (Arr2 g)) (Arr2 single_w))
          (single_residual / (n_p * D%:R)) (single_residual / (n_p * D%:R)))
  else Raise LinAlgError.
Proof.
rewrite /NonRigidCPD__maximization_step /typed_estep /shape_at.
rewrite /np_diag /np_map [size _]/= [nth _ _ _]/= leqnn; cbv beta iota.
rewrite bindE bindE bindE bindE /np_T; cbv beta iota.
rewrite np_add_22 bindE /np_mul np_binop_s2 bindE np_sub_22 bindE.
rewrite -/(dp1_inv p1) -/(nonrigid_lhs p1 g lmd s2p) -/single_rhs.
rewrite np_linalg_solve_22; case: ifP => // _; rewrite bindE -/single_w.
rewrite np_dot_22 bindE np_add_22 bindE -/single_t.
rewrite -/(np_mul _ _) np_mul_21 bindE np_dot_22 bindE np_trace_sq bindE.
rewrite np_dot_22 bindE np_trace_sq bindE.
by rewrite -/(np_mul _ _) np_mul_21 bindE np_dot_22 bindE np_trace_sq bindE.
Qed.

(** For a single point the entrywise product is the matrix product. *)
Lemma single_rhs_product : single_rhs = dp1_inv p1 *m px - S.
Proof.
rewrite /single_rhs; congr (_ - _); apply/matrixP => i j.
by rewrite mxE [RHS]mxE big_ord1 !ord1.
Qed.

End NonRigidSingle.

(** The residual of the non-rigid step on points of a line: [np.trace] of
    the 1 x N array [px.T t] is its first entry. *)
Definition column_residual (R : realFieldType) (N M : nat)
    (S : 'M[R]_(N, 1)) (X : 'M[R]_(M, 1)) (pt1 : 'rV[R]_M) (p1 : 'rV[R]_N)
    (px : 'M[R]_(N, 1)) (g : 'M[R]_N) (lmd s2p : R) : R :=
  let t := column_t S p1 px g lmd s2p in
  \tr (X^T *m diag_mx pt1 *m X)
  - 2 * (\sum_(i < minn 1 N) mget (px^T *m t) i i)
  + \tr (t^T *m diag_mx p1 *m t).

Definition unit_mx2 : 'M[rat]_2 := 1%:M.

(** C6, as amended.  No floor is applied to the variance.  For inputs of
    matching shapes with [n_p > 0] and [D >= 1], and a decomposition that
    keeps numpy's contract, every maximization step that returns has the
    variance [residual / (n_p D)], which is strictly positive exactly when
    the residual is, the residual being that of the transformation the step
    returns:
    for the rigid step [tr_XP1X - s tr_AtR], with [R = U C Vh] built from the
    factors [U], [Vh] the decomposition of [A] returned, [tr_AtR =
    trace(A^T R)] and [s = tr_AtR / tr_YP1Y] the returned rotation and scale;
    for the affine step [tr_XP1X - trace(A B^T)] with the returned [B];
    for the non-rigid step [tr_XP1X - 2 tr_PXT + tr_TP1T] with
    [T = source + G W] for the returned [W], on each of the shapes on which
    that step returns (as many points as dimensions, points on a line, a
    single point), while on every other shape it raises.  The variance of
    the initializer is the value the helper [msn_all_combination]
    returned. *)
Theorem mstep_sigma2_positive_iff (R : realFieldType) (np_log : R -> R)
    (np_linalg_svd : ndarray R -> result (ndarray R * ndarray R * ndarray R))
    (msn_all_combination : ndarray R -> ndarray R -> result R)
    (N M D : nat) (S : 'M[R]_(N, D)) (X : 'M[R]_(M, D))
    (pt1 : 'rV[R]_M) (p1 : 'rV[R]_N) (px : 'M[R]_(N, D)) (n_p : R)
    (sigma2_p : option R) (g : 'M[R]_N)
    (Sq : 'M[R]_(D, D)) (p1q : 'rV[R]_D) (pxq : 'M[R]_(D, D)) (gq : 'M[R]_D)
    (Sc : 'M[R]_(N, 1)) (Xc : 'M[R]_(M, 1)) (pxc : 'M[R]_(N, 1))
    (Ss : 'M[R]_(1, D)) (p1s : 'rV[R]_1) (pxs : 'M[R]_(1, D)) (gs : 'M[R]_1)
    (lmd s2p : R) :
  svd_contract np_linalg_svd -> 0 < n_p -> (0 < D)%N ->
  [/\ forall res,
        RigidCPD__maximization_step np_log np_linalg_svd (Arr2 S) (Arr2 X)
          (typed_estep pt1 p1 px n_p) sigma2_p = Ok res ->
        exists (U Vh : 'M[R]_D) (sv : 'rV[R]_D),
          let A := cross_cov S p1 px n_p in
          let rot := U *m diag_mx (ones_with_last D (\det (U *m Vh))) *m Vh in
          let tr_atr := \tr (A^T *m rot) in
          let s := tr_atr / \tr (mx_yp1y S p1 n_p) in
          let r := tr_xp1x X pt1 px n_p - s * tr_atr in
          [/\ np_linalg_svd (Arr2 A) = Ok (Arr2 U, Arr1 sv, Arr2 Vh)
              /\ A = U *m diag_mx sv *m Vh,
              mstep_transformation res
              = RigidTransformation (Arr2 rot)
                  (Arr1 (mu_x px n_p
                         - map_mx (fun x => s * x) (mu_y S p1 n_p *m rot^T)))
                  s,
              sigma2 res = r / (n_p * D%:R)
            & (0 < sigma2 res) = (0 < r)],
      forall res,
        AffineCPD__maximization_step np_log (Arr2 S) (Arr2 X)
          (typed_estep pt1 p1 px n_p) sigma2_p = Ok res ->
        let B := affine_b S p1 px n_p in
        let r := tr_xp1x X pt1 px n_p - \tr (cross_cov S p1 px n_p *m B^T) in
        [/\ mstep_transformation res
            = AffineTransformation (Arr2 B)
                (Arr1 (mu_x px n_p - mu_y S p1 n_p *m B^T)),
            sigma2 res = r / (n_p * D%:R)
          & (0 < sigma2 res) = (0 < r)],
      [/\ forall res,
            NonRigidCPD__maximization_step (Arr2 Sq) (Arr2 X)
              (typed_estep pt1 p1q pxq n_p) (Some s2p) (Some (Arr2 gq)) lmd
              = Ok res ->
            let W := square_w Sq p1q pxq gq lmd s2p in
            let T := Sq + gq *m W in
            let r := \tr (X^T *m diag_mx pt1 *m X) - 2 * \tr (pxq^T *m T)
                     + \tr (T^T *m diag_mx p1q *m T) in
            [/\ mstep_transformation res
                = NonRigidTransformation (Some (Arr2 gq)) (Arr2 W),
                sigma2 res = r / (n_p * D%:R)
              & (0 < sigma2 res) = (0 < r)],
          forall res,
            NonRigidCPD__maximization_step (Arr2 Sc) (Arr2 Xc)
              (typed_estep pt1 p1 pxc n_p) (Some s2p) (Some (Arr2 g)) lmd
              = Ok res ->
            let W := column_w Sc p1 pxc g lmd s2p in
            let r := column_residual Sc Xc pt1 p1 pxc g lmd s2p in
            [/\ mstep_transformation res
                = NonRigidTransformation (Some (Arr2 g)) (Arr2 W),
                sigma2 res = r / (n_p * 1%:R)
              & (0 < sigma2 res) = (0 < r)],
          forall res,
            NonRigidCPD__maximization_step (Arr2 Ss) (Arr2 X)
              (typed_estep pt1 p1s pxs n_p) (Some s2p) (Some (Arr2 gs)) lmd
              = Ok res ->
            let W := single_w Ss p1s pxs gs lmd s2p in
            let T := Ss + gs *m W in
            let r := \tr (X^T *m diag_mx pt1 *m X) - 2 * \tr (pxs^T *m T)
                     + \tr (T^T *m diag_mx p1s *m T) in
            [/\ mstep_transformation res
                = NonRigidTransformation (Some (Arr2 gs)) (Arr2 W),
                sigma2 res = r / (n_p * D%:R)
              & (0 < sigma2 res) = (0 < r)]
        & N != D -> N != 1%N -> D != 1%N ->
          NonRigidCPD__maximization_step (Arr2 S) (Arr2 X)
            (typed_estep pt1 p1 px n_p) (Some s2p) (Some (Arr2 g)) lmd
          = Raise (ValueError broadcast_msg)]
    & forall self target res,
        _initialize np_log msn_all_combination self target = Ok res ->
        exists2 source, cpd_source self = Some source
          & msn_all_combination source target = Ok (sigma2 res)].
Proof.
move=> svdP n0 D0; split.
- move=> res.
  have := rigid_step_cases np_log svdP S X D0 pt1 p1 px n_p sigma2_p.
  case svdE: (np_linalg_svd _) => [[[u s] vh]|e]; last by move=> ->.
  move=> _.
  have [U [sv [Vh [[eu es evh] [_ _ AE]]]]] := svdP _ _ _ _ _ svdE.
  rewrite eu es evh in svdE.
  rewrite (rigid_mstep_typed np_log X pt1 sigma2_p D0 svdE) => -[<-] /=.
  exists U, Vh, sv; split=> //.
  by rewrite /rigid_sigma2 pos_quotient.
- move=> res; rewrite affine_mstep_typed; case: ifP => // _ [<-] /=.
  by split=> //; rewrite /affine_sigma2 pos_quotient.
- split.
  + move=> res; rewrite nonrigid_mstep_square; case: ifP => // _ [<-] /=.
    by split=> //; rewrite /square_sigma2 pos_quotient.
  + move=> res; rewrite nonrigid_mstep_column; case: ifP => // _ [<-] /=.
    by split=> //; rewrite /column_sigma2 pos_quotient.
  + move=> res; rewrite nonrigid_mstep_single; case: ifP => // _ [<-] /=.
    by split=> //; rewrite pos_quotient.
  + exact: nonrigid_mstep_broadcast_error.
- move=> self target res.
  case: self => [[src|]|[src|]|[src|] beta lmd' g'] //=;
    rewrite /RigidCPD_initialize /AffineCPD_initialize
            /NonRigidCPD_initialize /=;
    case: (shape_at src 1) => [d|] //=;
    case E: (msn_all_combination src target) => [s0|] //=;
    case: (shape_at target 0) => [m|] //=.
  + by move=> [<-]; exists src.
  + by move=> [<-]; exists src.
  + by case: (shape_at src 0) => [n|] //= [<-]; exists src.
Qed.

Lemma mstep_sigma2_positive_iff_witness :
  [/\ forall res,
        RigidCPD__maximization_step rat_log (@svd_1x1 _) (Arr2 line_points)
          (Arr2 line_points)
          (typed_estep line_ones line_ones line_points 2) None = Ok res ->
        exists (U Vh : 'M[rat]_1) (sv : 'rV[rat]_1),
          let A := cross_cov line_points line_ones line_points 2 in
          let rot := U *m diag_mx (ones_with_last 1 (\det (U *m Vh))) *m Vh in
          let tr_atr := \tr (A^T *m rot) in
          let s := tr_atr / \tr (mx_yp1y line_points line_ones 2) in
          let r := tr_xp1x line_points line_ones line_points 2 - s * tr_atr in
          [/\ (@svd_1x1 _) (Arr2 A) = Ok (Arr2 U, Arr1 sv, Arr2 Vh)
              /\ A = U *m diag_mx sv *m Vh,
              mstep_transformation res
              = RigidTransformation (Arr2 rot)
                  (Arr1 (mu_x line_points 2
                         - map_mx (fun x => s * x)
                             (mu_y line_points line_ones 2 *m rot^T)))
                  s,
              sigma2 res = r / (2 * 1%:R)
            & (0 < sigma2 res) = (0 < r)],
      forall res,
        AffineCPD__maximization_step rat_log (Arr2 line_points)
          (Arr2 line_points)
          (typed_estep line_ones line_ones line_points 2) None = Ok res ->
        let B := affine_b line_points line_ones line_points 2 in
        let r := tr_xp1x line_points line_ones line_points 2
                 - \tr (cross_cov line_points line_ones line_points 2 *m B^T) in
        [/\ mstep_transformation res
            = AffineTransformation (Arr2 B)
                (Arr1 (mu_x line_points 2
                       - mu_y line_points line_ones 2 *m B^T)),
            sigma2 res = r / (2 * 1%:R)
          & (0 < sigma2 res) = (0 < r)],
      [/\ forall res,
            NonRigidCPD__maximization_step (Arr2 unit_mx1) (Arr2 line_points)
              (typed_estep line_ones unit_row1 unit_mx1 2) (Some 1)
              (Some (Arr2 unit_mx1)) 2
              = Ok res ->
            let W := square_w unit_mx1 unit_row1 unit_mx1 unit_mx1 2 1 in
            let T := unit_mx1 + unit_mx1 *m W in
            let r := \tr (line_points^T *m diag_mx line_ones *m line_points)
                     - 2 * \tr (unit_mx1^T *m T)
                     + \tr (T^T *m diag_mx unit_row1 *m T) in
            [/\ mstep_transformation res
                = NonRigidTransformation (Some (Arr2 unit_mx1)) (Arr2 W),
                sigma2 res = r / (2 * 1%:R)
              & (0 < sigma2 res) = (0 < r)],
          forall res,
            NonRigidCPD__maximization_step (Arr2 line_source) (Arr2 line_target)
              (typed_estep line_ones line_ones line_px 2) (Some 1)
              (Some (Arr2 unit_mx2)) 2
              = Ok res ->
            let W := column_w line_source line_ones line_px unit_mx2 2 1 in
            let r := column_residual line_source line_target line_ones
                       line_ones line_px unit_mx2 2 1 in
            [/\ mstep_transformation res
                = NonRigidTransformation (Some (Arr2 unit_mx2)) (Arr2 W),
                sigma2 res = r / (2 * 1%:R)
              & (0 < sigma2 res) = (0 < r)],
          forall res,
            NonRigidCPD__maximization_step (Arr2 unit_mx1) (Arr2 line_points)
              (typed_estep line_ones unit_row1 unit_mx1 2) (Some 1)
              (Some (Arr2 unit_mx1)) 2
              = Ok res ->
            let W := single_w unit_mx1 unit_row1 unit_mx1 unit_mx1 2 1 in
            let T := unit_mx1 + unit_mx1 *m W in
            let r := \tr (line_points^T *m diag_mx line_ones *m line_points)
                     - 2 * \tr (unit_mx1^T *m T)
                     + \tr (T^T *m diag_mx unit_row1 *m T) in
            [/\ mstep_transformation res
                = NonRigidTransformation (Some (Arr2 unit_mx1)) (Arr2 W),
                sigma2 res = r / (2 * 1%:R)
              & (0 < sigma2 res) = (0 < r)]
        & (2 != 1)%N -> (2 != 1)%N -> (1 != 1)%N ->
          NonRigidCPD__maximization_step (Arr2 line_points) (Arr2 line_points)
            (typed_estep line_ones line_ones line_points 2) (Some 1)
            (Some (Arr2 unit_mx2)) 2
          = Raise (ValueError broadcast_msg)]
    & forall self target res,
        _initialize rat_log unit_msn self target = Ok res ->
        exists2 source, cpd_source self = Some source
          & unit_msn source target = Ok (sigma2 res)].
Proof.
apply: mstep_sigma2_positive_iff; [exact: svd_1x1_contract | | by []].
exact: ltr0n.
Defined.
